(** * Spreadsheet corpus analyzer: a shallow embedding

    The development follows the five scripts of the repository:
    [analyze_spreadsheets.py], [phased_analyzer.py], [phased_analyzer_v2.py],
    [phased_analyzer_v3.py] and [clean_report.py].

    Conventions of the embedding.
    - A Python [str] is a list of Unicode code points ([pystr]).
    - A Python [dict] whose iteration order is observed is an association
      list in insertion order; a [dict] that is only looked up is a [gmap].
    - A Python [set] is a duplicate-free list compared up to membership.
    - Ratios that Python computes in binary64 are computed exactly in [Q];
      the thresholds compared against are small decimal constants and the
      operands are quotients of small counts, so the comparisons agree.
      [round(x, n)] is round-half-even on the exact value; it can differ
      from Python in the last digit when the exact value lies half-way
      between two decimals.
    - Functions of libraries (str.lower, difflib's ratio, hashlib's md5,
      pandas' readers and to_numeric) are parameters of the sections that
      use them. *)

From Stdlib Require Import QArith Qround Lqa.
From stdpp Require Import base tactics option list sorting strings gmap.

Local Open Scope N_scope.

(** ** Strings *)

Module PyStr.

Abbreviation pystr := (list N).

Definition of_string (s : String.string) : pystr :=
  map Ascii.N_of_ascii (String.list_ascii_of_string s).

(** [str.isspace] / the default set of [str.strip()] / [\s] of [re] on [str]. *)
Definition isspace (c : N) : bool :=
  ((9 <=? c) && (c <=? 13)) || ((28 <=? c) && (c <=? 32))
  || (c =? 133) || (c =? 160) || (c =? 5760)
  || ((8192 <=? c) && (c <=? 8202))
  || (c =? 8232) || (c =? 8233) || (c =? 8239) || (c =? 8287) || (c =? 12288).

(** The character class [[a-z0-9]]. *)
Definition is_lower_alnum (c : N) : bool :=
  ((97 <=? c) && (c <=? 122)) || ((48 <=? c) && (c <=? 57)).

(** The character class [[A-Za-z]]. *)
Definition is_ascii_alpha (c : N) : bool :=
  ((97 <=? c) && (c <=? 122)) || ((65 <=? c) && (c <=? 90)).

Definition underscore : N := 95.
Definition is_underscore (c : N) : bool := c =? underscore.

(** The character class [[a-z0-9_]]. *)
Definition is_word (c : N) : bool := is_lower_alnum c || is_underscore c.

Fixpoint lstrip (p : N -> bool) (s : pystr) : pystr :=
  match s with
  | [] => []
  | c :: s' => if p c then lstrip p s' else s
  end.

Fixpoint rstrip (p : N -> bool) (s : pystr) : pystr :=
  match s with
  | [] => []
  | c :: s' =>
      match rstrip p s' with
      | [] => if p c then [] else [c]
      | r => c :: r
      end
  end.

(** [s.strip(chars)] with [p] the membership test of [chars]. *)
Definition strip_by (p : N -> bool) (s : pystr) : pystr := rstrip p (lstrip p s).

(** [s.strip()] *)
Definition strip (s : pystr) : pystr := strip_by isspace s.

(** [re.sub(r"[C]+", rep, s)]: every maximal run of characters of the class
    [p] is replaced by [rep]. [in_run] records that the previous character
    belonged to the run being replaced. *)
Fixpoint sub_runs_from (p : N -> bool) (rep : pystr) (in_run : bool) (s : pystr) : pystr :=
  match s with
  | [] => []
  | c :: s' =>
      if p c
      then (if in_run then [] else rep) ++ sub_runs_from p rep true s'
      else c :: sub_runs_from p rep false s'
  end.

Definition sub_runs (p : N -> bool) (rep : pystr) (s : pystr) : pystr :=
  sub_runs_from p rep false s.

(** [str.lower()] restricted to ASCII letters; every other code point is
    left alone. It agrees with Python on ASCII input. *)
Definition ascii_lower_char (c : N) : N :=
  if (65 <=? c) && (c <=? 90) then c + 32 else c.
Definition ascii_lower (s : pystr) : pystr := map ascii_lower_char s.

End PyStr.
Export PyStr.

(** ** Column-name normalizer *)

Section Normalize.

(** [str.lower()]. Python lower-cases by the Unicode tables; the embedding
    takes the function as a parameter. *)
Variable lower : pystr -> pystr.

(** phased_analyzer*.py:
    [s = re.sub(r"[^a-z0-9]+", "_", str(name).lower().strip());
     return s.strip("_")] *)
Definition normalize_col (name : pystr) : pystr :=
  let s := sub_runs (fun c => negb (is_lower_alnum c)) [underscore]
                    (strip (lower name)) in
  strip_by is_underscore s.

(** analyze_spreadsheets.py:
    [s = str(name).strip().lower(); s = re.sub(r"\s+", "_", s);
     s = re.sub(r"[^a-z0-9_]+", "", s); return s or "unnamed"] *)
Definition unnamed : pystr := of_string "unnamed"%string.

Definition normalize_col_legacy (name : pystr) : pystr :=
  let s := lower (strip name) in
  let s := sub_runs isspace [underscore] s in
  let s := filter (fun c => is_word c = true) s in
  match s with [] => unnamed | _ => s end.

End Normalize.


(** ** Insertion-ordered dictionaries

    A [dict] keeps its keys in the order of their first insertion, and an
    assignment to an existing key keeps the key where it is. *)

Section Dict.
Context {K V : Type} `{EqDecision K}.

Fixpoint dict_get (k : K) (d : list (K * V)) : option V :=
  match d with
  | [] => None
  | (k', v) :: d' => if decide (k = k') then Some v else dict_get k d'
  end.

Fixpoint dict_set (k : K) (v : V) (d : list (K * V)) : list (K * V) :=
  match d with
  | [] => [(k, v)]
  | (k', v') :: d' =>
      if decide (k = k') then (k', v) :: d' else (k', v') :: dict_set k v d'
  end.

Definition dict_keys (d : list (K * V)) : list K := map fst d.
End Dict.

(** [d[k].append(x)] on a [defaultdict(list)]. *)
Definition dict_append {K V : Type} `{EqDecision K} (k : K) (x : V)
    (d : list (K * list V)) : list (K * list V) :=
  dict_set k (default [] (dict_get k d) ++ [x]) d.

(** ** Sets of column names and their Jaccard similarity *)

(** [set(a)]: a duplicate-free list. *)
Definition to_set (a : list pystr) : list pystr := remove_dups a.

(** [sa == sb] on sets. *)
Definition set_eqb (sa sb : list pystr) : bool :=
  bool_decide (sa ⊆ sb) && bool_decide (sb ⊆ sa).

(** phased_analyzer*.py:
    [sa, sb = set(a), set(b); if not sa and not sb: return 0;
     return len(sa & sb) / len(sa | sb)] *)
Definition jaccard (a b : list pystr) : Q :=
  let sa := to_set a in
  let sb := to_set b in
  match sa, sb with
  | [], [] => 0%Q
  | _, _ => (Z.of_nat (length (list_intersection sa sb))
             # Pos.of_nat (length (list_union sa sb)))%Q
  end.

(** analyze_spreadsheets.py:
    [if not a and not b: return 1.0; return len(a & b) / max(1, len(a | b))] *)
Definition jaccard_legacy (a b : list pystr) : Q :=
  let sa := to_set a in
  let sb := to_set b in
  match sa, sb with
  | [], [] => 1%Q
  | _, _ => (Z.of_nat (length (list_intersection sa sb))
             # Pos.of_nat (Nat.max 1 (length (list_union sa sb))))%Q
  end.

Definition COL_SIM_THRESH : Q := (80 # 100)%Q.
Definition CLUSTER_OVERLAP : Q := (40 # 100)%Q.
Definition NAME_GROUP_OVERLAP : Q := (30 # 100)%Q.

(** ** Phase 1 records *)

(** The fields of a [phase1] entry that the later phases read. *)
Record sheet_rec := {
  rec_file : pystr;
  rec_sheet : pystr;
  rec_columns : list pystr;
  rec_norm_cols : list pystr;
  rec_is_wide : bool
}.

Definition bar : N := 124.

(** [f"{rec['file']}|{rec['sheet']}"] *)
Definition rec_key (r : sheet_rec) : pystr := rec_file r ++ [bar] ++ rec_sheet r.

(** [if not norm] on a string. *)
Definition is_empty_str (s : pystr) : bool := match s with [] => true | _ => false end.

(** [if not representative] on a set. *)
Definition is_empty_set (s : list pystr) : bool :=
  match s with [] => true | _ => false end.

(** ** Phase 2: column frequencies and the alias map *)

Definition counter_incr (k : pystr) (cf : list (pystr * nat)) : list (pystr * nat) :=
  dict_set k (S (default 0%nat (dict_get k cf))) cf.

(** phased_analyzer_v2.py, phased_analyzer_v3.py:
    [for rec in phase1: for raw, norm in zip(columns, norm_cols):
       if not norm: continue; col_freq[norm] += 1] *)
Definition col_freq (phase1 : list sheet_rec) : list (pystr * nat) :=
  foldl (fun cf rec =>
           foldl (fun cf rn => if is_empty_str rn.2 then cf else counter_incr rn.2 cf)
                 cf (zip (rec_columns rec) (rec_norm_cols rec)))
        [] phase1.

(** phased_analyzer.py counts the empty name as well. *)
Definition col_freq_v1 (phase1 : list sheet_rec) : list (pystr * nat) :=
  foldl (fun cf rec =>
           foldl (fun cf rn => counter_incr rn.2 cf)
                 cf (zip (rec_columns rec) (rec_norm_cols rec)))
        [] phase1.

(** [norm_keys = [k for k in col_freq if k]] *)
Definition norm_keys (phase1 : list sheet_rec) : list pystr :=
  filter (fun k => is_empty_str k = false) (dict_keys (col_freq phase1)).

(** [norm_keys = list(col_freq.keys())] *)
Definition norm_keys_v1 (phase1 : list sheet_rec) : list pystr :=
  dict_keys (col_freq_v1 phase1).

Section Merge.

(** [SequenceMatcher(None, a, b).ratio()] of difflib. *)
Variable ratio : pystr -> pystr -> Q.

Definition similar (a b : pystr) : bool := Qle_bool COL_SIM_THRESH (ratio a b).

(** Body of [for j in range(i+1, len(norm_keys))]. *)
Definition merge_step_j (keys : list pystr) (i : nat)
    (merged : gmap pystr pystr) (j : nat) : gmap pystr pystr :=
  match keys !! i, keys !! j with
  | Some ki, Some kj =>
      if decide (is_Some (merged !! kj)) then merged
      else if similar ki kj then <[kj := ki]> merged
      else merged
  | _, _ => merged
  end.

(** Body of [for i in range(len(norm_keys))]. *)
Definition merge_step_i (keys : list pystr)
    (merged : gmap pystr pystr) (i : nat) : gmap pystr pystr :=
  match keys !! i with
  | Some ki =>
      if decide (is_Some (merged !! ki)) then merged
      else foldl (merge_step_j keys i) merged (seq (S i) (length keys - S i))
  | None => merged
  end.

(** The alias-to-canonical map [merged]. *)
Definition merge_names (keys : list pystr) : gmap pystr pystr :=
  foldl (merge_step_i keys) ∅ (seq 0 (length keys)).

Definition merged_map (phase1 : list sheet_rec) : gmap pystr pystr :=
  merge_names (norm_keys phase1).

Definition merged_map_v1 (phase1 : list sheet_rec) : gmap pystr pystr :=
  merge_names (norm_keys_v1 phase1).

End Merge.

(** [merged.get(n, n)] *)
Definition canon (merged : gmap pystr pystr) (n : pystr) : pystr :=
  default n (merged !! n).

(** ** Phase 3: clustering *)

Inductive formation := ViaSheetName | ViaJaccard.

Record cluster := {
  members : list pystr;
  union_cols : list pystr;
  via : formation
}.

(** The three variables the clustering loops update. *)
Record cstate := {
  assigned : gmap pystr nat;
  clusters : list (nat * cluster);
  cid : nat
}.

(** [sheet_name_groups[rec["sheet"]].append(key)] *)
Definition sheet_name_groups (phase1 : list sheet_rec) : list (pystr * list pystr) :=
  foldl (fun g rec => dict_append (rec_sheet rec) (rec_key rec) g) [] phase1.

(** v2, v3: [normed = {merged.get(n, n) for n in norm_cols if n};
    sheet_colsets[key] = normed] *)
Definition sheet_colsets (merged : gmap pystr pystr) (phase1 : list sheet_rec)
    : list (pystr * list pystr) :=
  foldl (fun d rec =>
           dict_set (rec_key rec)
             (to_set (map (canon merged)
                          (filter (fun n => is_empty_str n = false) (rec_norm_cols rec))))
             d)
        [] phase1.

(** v1 keeps the empty name. *)
Definition sheet_colsets_v1 (merged : gmap pystr pystr) (phase1 : list sheet_rec)
    : list (pystr * list pystr) :=
  foldl (fun d rec =>
           dict_set (rec_key rec) (to_set (map (canon merged) (rec_norm_cols rec))) d)
        [] phase1.

(** [sheet_colsets.get(m, set())] *)
Definition colset_of (colsets : list (pystr * list pystr)) (k : pystr) : list pystr :=
  default [] (dict_get k colsets).

(** Phase A, body of the loop [for m in members] that fills [group] and
    [union_cols]. *)
Definition name_group_step (colsets : list (pystr * list pystr))
    (representative : list pystr) (gu : list pystr * list pystr) (m : pystr)
    : list pystr * list pystr :=
  let ms := colset_of colsets m in
  if Qle_bool NAME_GROUP_OVERLAP (jaccard representative ms)
     || set_eqb ms representative
  then (gu.1 ++ [m], list_union gu.2 ms)
  else gu.

Definition name_group (colsets : list (pystr * list pystr))
    (representative : list pystr) (mems : list pystr) : list pystr * list pystr :=
  foldl (name_group_step colsets representative) ([], []) mems.

(** [for g in group: assigned[g] = cid] *)
Definition assign_all (c : nat) (group : list pystr) (a : gmap pystr nat) : gmap pystr nat :=
  foldl (fun a g => <[g := c]> a) a group.

(** Phase A, body of [for sname, members in sheet_name_groups.items()]. *)
Definition phaseA_step (colsets : list (pystr * list pystr))
    (st : cstate) (g : pystr * list pystr) : cstate :=
  let mems := g.2 in
  if (length mems <? 2)%nat then st
  else
    let representative := colset_of colsets (default [] (head mems)) in
    if is_empty_set representative then st
    else
      let gu := name_group colsets representative mems in
      if (2 <=? length gu.1)%nat then
        let c := S (cid st) in
        {| assigned := assign_all c gu.1 (assigned st);
           clusters := clusters st ++
             [(c, {| members := gu.1; union_cols := gu.2; via := ViaSheetName |})];
           cid := c |}
      else st.

(** The local variables of one pass of the residual loop. *)
Record jstate := {
  j_members : list pystr;
  j_ccols : list pystr;
  j_assigned : gmap pystr nat
}.

(** Phase B, body of [for j in range(i+1, len(remaining))]. *)
Definition phaseB_step_j (colsets : list (pystr * list pystr))
    (remaining : list pystr) (c : nat) (js : jstate) (j : nat) : jstate :=
  match remaining !! j with
  | Some kj =>
      if decide (is_Some (j_assigned js !! kj)) then js
      else if Qle_bool CLUSTER_OVERLAP (jaccard (j_ccols js) (colset_of colsets kj))
      then {| j_members := j_members js ++ [kj];
              j_ccols := list_union (j_ccols js) (colset_of colsets kj);
              j_assigned := <[kj := c]> (j_assigned js) |}
      else js
  | None => js
  end.

(** Phase B, body of [for i in range(len(remaining))]. *)
Definition phaseB_step_i (colsets : list (pystr * list pystr))
    (remaining : list pystr) (st : cstate) (i : nat) : cstate :=
  match remaining !! i with
  | Some k =>
      if decide (is_Some (assigned st !! k)) then st
      else
        let c := S (cid st) in
        let js0 := {| j_members := [k];
                      j_ccols := to_set (colset_of colsets k);
                      j_assigned := <[k := c]> (assigned st) |} in
        let js := foldl (phaseB_step_j colsets remaining c) js0
                        (seq (S i) (length remaining - S i)) in
        {| assigned := j_assigned js;
           clusters := clusters st ++
             [(c, {| members := j_members js; union_cols := j_ccols js;
                     via := ViaJaccard |})];
           cid := c |}
  | None => st
  end.

Definition phaseB (colsets : list (pystr * list pystr))
    (remaining : list pystr) (st : cstate) : cstate :=
  foldl (phaseB_step_i colsets remaining) st (seq 0 (length remaining)).

Definition cstate0 : cstate := {| assigned := ∅; clusters := []; cid := 0 |}.

(** phased_analyzer_v3.py, lines 237-276: name-affinity grouping, then
    [remaining = [k for k in sheet_colsets if k not in assigned]] and the
    residual Jaccard clustering. *)
Definition cluster_sheets (merged : gmap pystr pystr) (phase1 : list sheet_rec) : cstate :=
  let colsets := sheet_colsets merged phase1 in
  let stA := foldl (phaseA_step colsets) cstate0 (sheet_name_groups phase1) in
  let remaining :=
    filter (fun k => ~ is_Some (assigned stA !! k)) (dict_keys colsets) in
  phaseB colsets remaining stA.

(** phased_analyzer.py, lines 246-266: the residual loop alone, over
    [keys = list(sheet_colsets.keys())]. (phased_analyzer_v2.py runs the same
    loop over the column sets without the empty name.) *)
Definition cluster_sheets_v1 (merged : gmap pystr pystr) (phase1 : list sheet_rec) : cstate :=
  let colsets := sheet_colsets_v1 merged phase1 in
  phaseB colsets (dict_keys colsets) cstate0.

(** The member lists of all clusters, one after the other. *)
Definition all_members (st : cstate) : list pystr :=
  concat (map (fun c => members c.2) (clusters st)).

(** [strict_partition keys st]: every key of [keys] is a member of exactly
    one cluster of [st], and every cluster lists each of its members once
    and lists keys of [keys] only. *)
Definition strict_partition (keys : list pystr) (st : cstate) : Prop :=
  (forall k, k ∈ keys ->
     exists i c, clusters st !! i = Some c /\ k ∈ members c.2
       /\ forall j c', clusters st !! j = Some c' -> k ∈ members c'.2 -> j = i)
  /\ (forall i c, clusters st !! i = Some c ->
        NoDup (members c.2) /\ forall k, k ∈ members c.2 -> k ∈ keys).

(** The clustering invariant: the member lists are pairwise disjoint and
    duplicate-free, and [assigned] knows exactly the members. *)
Definition cluster_inv (st : cstate) : Prop :=
  NoDup (all_members st)
  /\ forall k, k ∈ all_members st <-> is_Some (assigned st !! k).

(** ** Ratios and rounding *)

(** [a / b] for counts; a quotient by zero (the mean of an empty series,
    which pandas reports as NaN) reads as [a]. *)
Definition frac (a b : nat) : Q := (Z.of_nat a # Pos.of_nat b)%Q.

(** Round half to even, to an integer. *)
Definition round_half_even (x : Q) : Z :=
  let f := Qfloor x in
  match ((x - inject_Z f) ?= (1 # 2))%Q with
  | Lt => f
  | Gt => (f + 1)%Z
  | Eq => if Z.even f then f else (f + 1)%Z
  end.

(** [round(x, 4)] *)
Definition round4 (x : Q) : Q := (round_half_even (x * 10000) # 10000)%Q.

(** [round(x, 1)] *)
Definition round1 (x : Q) : Q := (round_half_even (x * 10) # 10)%Q.

(** [len(l)] of the distinct values of [l]. *)
Definition nunique (l : list pystr) : nat := length (remove_dups l).

(** [(series.map(p)).mean()] *)
Definition mean_of (p : pystr -> bool) (l : list pystr) : Q :=
  frac (length (filter (fun v => p v = true) l)) (length l).

(** ** Header detector (analyze_spreadsheets.py)

    A preview is a list of rows; a cell is given by the string that
    [astype(str)] makes of it. *)

Definition contains_alpha (v : pystr) : bool := existsb is_ascii_alpha v.
Definition nonblank (v : pystr) : bool := negb (is_empty_str v).

(** The weighted sum of the three ratios of a row, before rounding. *)
Definition header_score (preview : list (list pystr)) (row_idx : nat) : Q :=
  let vals := map strip (default [] (preview !! row_idx)) in
  let non_empty := filter (fun v => nonblank v = true) vals in
  let unique_ratio := frac (nunique non_empty) (Nat.max 1 (length non_empty)) in
  let alpha_ratio := mean_of contains_alpha non_empty in
  let below_has_values :=
    if (row_idx + 1 <? length preview)%nat
    then mean_of nonblank (map strip (default [] (preview !! (row_idx + 1)%nat)))
    else 0%Q in
  ((45 # 100) * unique_ratio + (35 # 100) * alpha_ratio
   + (20 # 100) * below_has_values)%Q.

(** [header_confidence(df_preview, row_idx)] *)
Definition header_confidence (preview : list (list pystr)) (row_idx : nat) : Q :=
  let vals := map strip (default [] (preview !! row_idx)) in
  let non_empty := filter (fun v => nonblank v = true) vals in
  if (length non_empty =? 0)%nat then 0%Q
  else round4 (header_score preview row_idx).

(** [max(scores, key=lambda t: t[1])]: the first element whose key is not
    exceeded; [best] is the element kept so far. *)
Fixpoint py_max_from (best : nat * Q) (l : list (nat * Q)) : nat * Q :=
  match l with
  | [] => best
  | x :: l' => py_max_from (if Qlt_le_dec best.2 x.2 then x else best) l'
  end.

(** [detect_header_row(df_preview)] *)
Definition detect_header_row (preview : list (list pystr)) : nat * Q :=
  let max_rows := Nat.min 8 (length preview) in
  if (max_rows =? 0)%nat then (0%nat, 0%Q)
  else
    match map (fun idx => (idx, header_confidence preview idx)) (seq 0 max_rows) with
    | [] => (0%nat, 0%Q)
    | x :: scores => py_max_from x scores
    end.

(** The header detector as the specification words it: every row of the
    preview is a candidate, its confidence is the weighted sum itself, and
    the first row of greatest confidence is returned with that
    confidence. *)
Definition spec_detect_header_row (preview : list (list pystr)) : nat * Q :=
  match map (fun idx => (idx, header_score preview idx)) (seq 0 (length preview)) with
  | [] => (0%nat, 0%Q)
  | x :: scores => py_max_from x scores
  end.

(** ** Column series

    A column is a list of cells; a missing cell ([NaN], [None]) is [None],
    any other cell is given by the text it holds. *)

Abbreviation series := (list (option pystr)).

(** [ser.dropna()] *)
Definition dropna (ser : series) : list pystr := omap id ser.

(** [ser.isna().sum()] *)
Definition count_na (ser : series) : nat :=
  length (filter (fun c : option pystr => c = None) ser).

(** phased_analyzer*.py: [nuniq = ser.nunique()] counts the distinct
    non-missing cells. *)
Definition ser_nunique (ser : series) : nat := nunique (dropna ser).

(** phased_analyzer*.py:
    [uniqueness = round(nuniq / max(len(ser), 1) * 100, 1)] *)
Definition uniqueness_pct (ser : series) : Q :=
  round1 (frac (ser_nunique ser) (Nat.max (length ser) 1) * 100).

(** phased_analyzer*.py: [missing_pct = round(ser.isna().mean() * 100, 1)] *)
Definition missing_pct (ser : series) : Q :=
  round1 (frac (count_na ser) (length ser) * 100).

(** analyze_spreadsheets.py, [main]:
    [non_null = ser.dropna().astype(str).str.strip();
     unique_ratio = float(non_null.nunique() / max(1, len(non_null)))
                    if len(non_null) else 0.0]
    and the profile stores [round(unique_ratio, 4)]. *)
Definition unique_ratio (ser : series) : Q :=
  let non_null := map strip (dropna ser) in
  if (length non_null =? 0)%nat then 0%Q
  else round4 (frac (nunique non_null) (Nat.max 1 (length non_null))).

(** ** Incrementing-id detection *)

Definition Qle_b (x y : Q) : Prop := Qle_bool x y = true.

#[global] Instance Qle_b_dec (x y : Q) : Decision (Qle_b x y).
Proof. unfold Qle_b. apply _. Defined.


Section IdIncremental.

(** [pd.to_numeric(v, errors="coerce")]; [None] stands for the [NaN] of a
    value that is not a number. *)
Variable to_numeric : pystr -> option Q.




End IdIncremental.






(** ** The pattern catalog of the phased analyzers *)



(** ** Relationship detection *)

(** [not l] on a list. *)
Definition is_nil {A} (l : list A) : bool := match l with [] => true | _ => false end.

(** A row of [deep_profiles], which is also a row of data_dictionary.csv
    (the rendering [top5] of the most frequent values is left out). *)
Record profile := {
  p_file : pystr;
  p_sheet : pystr;
  p_column : pystr;
  p_norm_col : pystr;
  p_inferred_type : pystr;
  p_missing_pct : Q;
  p_unique_values : nat;
  p_uniqueness_pct : Q;
  p_patterns : list (pystr * Q);
  p_cluster_id : nat
}.

(** A location [(file, sheet, uniqueness)]. *)
Record loc := { l_file : pystr; l_sheet : pystr; l_uniq : Q }.

Definition loc_of (p : profile) : loc :=
  {| l_file := p_file p; l_sheet := p_sheet p; l_uniq := p_uniqueness_pct p |}.

Record fk_pair := { fk_column : pystr; fk_pk : loc; fk_fk : loc }.

(** [u > 70] and [u <= 70] *)
Definition is_high (l : loc) : bool := negb (Qle_bool (l_uniq l) 70).
Definition is_low (l : loc) : bool := Qle_bool (l_uniq l) 70.

(** v2, v3: [for p in deep_profiles: nc = p["norm_col"];
    if not nc: continue; col_sheet_map[nc].append((file, sheet, uniq))] *)
Definition col_sheet_map (deep_profiles : list profile) : list (pystr * list loc) :=
  foldl (fun m p =>
           let nc := p_norm_col p in
           if is_empty_str nc then m else dict_append nc (loc_of p) m)
        [] deep_profiles.

(** The lists [pk_candidates] and [fk_pairs]. *)
Record relations := {
  pk_candidates : list (pystr * list loc);
  fk_pairs : list fk_pair
}.

(** [for hf,hs,hu in high: for lf,ls,lu in low: fk_pairs.append(...)] *)
Definition all_pairs (nc : pystr) (high low : list loc) : list fk_pair :=
  h ← high; (fun l => {| fk_column := nc; fk_pk := h; fk_fk := l |}) <$> low.

(** phased_analyzer_v3.py, lines 431-441 (the same in v2 and, for these two
    lists, in phased_analyzer.py): body of
    [for nc, locs in col_sheet_map.items()]. *)
Definition relate_step (rel : relations) (item : pystr * list loc) : relations :=
  let nc := item.1 in
  let locs := item.2 in
  if (length locs <? 2)%nat then rel
  else
    let high := filter (fun l => is_high l = true) locs in
    let low := filter (fun l => is_low l = true) locs in
    let pk := if is_nil high then pk_candidates rel
              else pk_candidates rel ++ [(nc, high)] in
    let fk := if is_nil high || is_nil low then fk_pairs rel
              else fk_pairs rel ++ all_pairs nc high low in
    {| pk_candidates := pk; fk_pairs := fk |}.

Definition relate (deep_profiles : list profile) : relations :=
  foldl relate_step {| pk_candidates := []; fk_pairs := [] |}
        (col_sheet_map deep_profiles).

(** clean_report.py *)

Definition unnamed_prefix : pystr := of_string "unnamed_"%string.

(** [named_dd = [r for r in dd_rows if not r["NormCol"].startswith("unnamed_")]] *)
Definition named_dd (dd_rows : list profile) : list profile :=
  filter (fun r => ~ unnamed_prefix `prefix_of` p_norm_col r) dd_rows.

(** [for r in named_dd: col_sheet_map[r["NormCol"]].append(dict(...))] *)
Definition clean_col_sheet_map (rows : list profile) : list (pystr * list loc) :=
  foldl (fun m p => dict_append (p_norm_col p) (loc_of p) m) [] rows.

(** clean_report.py, lines 56-70: body of
    [for nc, locs in col_sheet_map.items()];
    [files_set = set(l["file"] for l in locs); if len(files_set) < 2: continue],
    and the edges are formed from [high[:3]] and [low[:3]]. *)
Definition clean_relate_step (rel : relations) (item : pystr * list loc) : relations :=
  let nc := item.1 in
  let locs := item.2 in
  let files_set := to_set (map l_file locs) in
  if (length files_set <? 2)%nat then rel
  else
    let high := filter (fun l => is_high l = true) locs in
    let low := filter (fun l => is_low l = true) locs in
    let pk := if is_nil high then pk_candidates rel
              else pk_candidates rel ++ [(nc, high)] in
    let fk := if is_nil high || is_nil low then fk_pairs rel
              else fk_pairs rel ++ all_pairs nc (take 3 high) (take 3 low) in
    {| pk_candidates := pk; fk_pairs := fk |}.

Definition clean_relate (dd_rows : list profile) : relations :=
  foldl clean_relate_step {| pk_candidates := []; fk_pairs := [] |}
        (clean_col_sheet_map (named_dd dd_rows)).

(** [loc] is emitted as a primary-key candidate of column [nc]. *)
Definition pk_emitted (rel : relations) (nc : pystr) (l : loc) : Prop :=
  exists high, (nc, high) ∈ pk_candidates rel /\ l ∈ high.

(** The locations of column [nc] among the profiles. *)
Definition locations (nc : pystr) (ps : list profile) : list loc :=
  loc_of <$> filter (fun p => p_norm_col p = nc) ps.

(** ** Structural fingerprints *)

(** [a <= b] on [str]: lexicographic by code point. *)
Fixpoint str_leb (a b : pystr) : bool :=
  match a, b with
  | [], _ => true
  | _ :: _, [] => false
  | x :: a', y :: b' =>
      if x <? y then true else if y <? x then false else str_leb a' b'
  end.

Definition str_le (a b : pystr) : Prop := str_leb a b = true.

#[global] Instance str_le_dec (a b : pystr) : Decision (str_le a b).
Proof. unfold str_le. apply _. Defined.

(** [sorted(l)] on a list of [str]. *)
Definition py_sorted (l : list pystr) : list pystr := merge_sort str_le l.

(** [sep.join(l)] *)
Fixpoint join (sep : pystr) (l : list pystr) : pystr :=
  match l with
  | [] => []
  | [x] => x
  | x :: l' => x ++ sep ++ join sep l'
  end.

(** [set(n for n in rec["norm_cols"] if n)] *)
Definition name_set (r : sheet_rec) : list pystr :=
  to_set (filter (fun n => is_empty_str n = false) (rec_norm_cols r)).

(** phased_analyzer_v3.py:
    [sig = "|".join(sorted(set(n for n in rec["norm_cols"] if n))[:30])] *)
Definition sheet_sig (r : sheet_rec) : pystr :=
  join [bar] (take 30 (py_sorted (name_set r))).

(** phased_analyzer.py, phased_analyzer_v2.py:
    [colsig = "|".join(sorted(rec["norm_cols"][:20]))] *)
Definition sheet_sig_v1 (r : sheet_rec) : pystr :=
  join [bar] (py_sorted (take 20 (rec_norm_cols r))).

Section Fingerprint.

(** [hashlib.md5(sig.encode()).hexdigest()] *)
Variable md5 : pystr -> pystr.




End Fingerprint.

(** The canonical column set of a sheet, as [sheet_colsets] stores it. *)
Definition canonical_set (merged : gmap pystr pystr) (r : sheet_rec) : list pystr :=
  to_set (map (canon merged) (filter (fun n => is_empty_str n = false) (rec_norm_cols r))).


(** ** Deep profiling *)

(** The outcome of a computation that may raise an exception. *)
Inductive result (A : Type) : Type :=
  | Ok (a : A)
  | Raise (e : pystr).
Arguments Ok {A} a.
Arguments Raise {A} e.

Definition bind {A B} (r : result A) (k : A -> result B) : result B :=
  match r with
  | Ok a => k a
  | Raise e => Raise e
  end.

Notation "'let!' x ':=' r 'in' k" := (bind r (fun x => k))
  (at level 10, x name, r at level 100, k at level 200).

(** An entry of [quality_issues]. *)
Inductive issue :=
  | NullHeavy (file sheet col : pystr) (pct : Q)
  | MixedType (file sheet col : pystr).

(** An entry of [errors_log] written by Phase 4. *)
Inductive log_entry :=
  | DeepReadError (file sheet : pystr) (e : pystr)
  | ColumnError (file sheet col : pystr) (e : pystr).

(** The lists Phase 4 appends to. *)
Record dstate := {
  deep_profiles : list profile;
  quality_issues : list issue;
  errors_log : list log_entry
}.

Definition dstate0 : dstate :=
  {| deep_profiles := []; quality_issues := []; errors_log := [] |}.

Definition MAX_PROFILE_COLS : nat := 200.

Definition mixed : pystr := of_string "mixed"%string.

(** A data frame: its columns in order, each with its name. *)
Abbreviation frame := (list (pystr * series)).

Definition non_null_count (c : pystr * series) : nat := length (dropna c.2).

(** [pop = df.notna().sum().sort_values(ascending=False)]: the columns by
    decreasing number of non-missing cells (pandas leaves the order of
    equally populated columns open). *)
Definition more_populated (c d : pystr * series) : Prop :=
  (non_null_count d <= non_null_count c)%nat.

#[global] Instance more_populated_dec (c d : pystr * series) :
  Decision (more_populated c d).
Proof. unfold more_populated. apply _. Defined.

(** [cols_to_profile]: all columns, or for a wide sheet of more than 200
    columns the 200 most populated ones. *)
Definition cols_to_profile (rec : sheet_rec) (df : frame) : frame :=
  if rec_is_wide rec && (MAX_PROFILE_COLS <? length df)%nat
  then take MAX_PROFILE_COLS (merge_sort more_populated df)
  else df.

Section DeepProfile.

Variable lower : pystr -> pystr.

(** [infer_dtype(ser)] and [detect_patterns(ser)], which work on cells of
    any Python type and may raise on them. *)
Variable infer_dtype : series -> result pystr.
Variable detect_patterns : series -> result (list (pystr * Q)).

(** [pd.read_excel] / [pd.read_csv] of a sheet. *)
Variable read_frame : sheet_rec -> result frame.

(** The cluster ids of Phase 3. *)
Variable assigned_ids : gmap pystr nat.

(** The statements of the [try] block up to [deep_profiles.append]. *)
Definition profile_column (rec : sheet_rec) (col : pystr * series) : result profile :=
  let ser := col.2 in
  let missing := missing_pct ser in
  let! dtype := infer_dtype ser in
  let! pats := detect_patterns ser in
  let nuniq := ser_nunique ser in
  let uniqueness := uniqueness_pct ser in
  Ok {| p_file := rec_file rec; p_sheet := rec_sheet rec;
        p_column := col.1; p_norm_col := normalize_col lower col.1;
        p_inferred_type := dtype; p_missing_pct := missing;
        p_unique_values := nuniq; p_uniqueness_pct := uniqueness;
        p_patterns := pats;
        p_cluster_id := default 0%nat (assigned_ids !! rec_key rec) |}.

(** v3: [if missing_pct > 70 and missing_pct < 100: ...;
         if dtype == "mixed" and missing_pct < 50: ...] *)
Definition quality_flags (p : profile) : list issue :=
  (if negb (Qle_bool (p_missing_pct p) 70) && negb (Qle_bool 100 (p_missing_pct p))
   then [NullHeavy (p_file p) (p_sheet p) (p_column p) (p_missing_pct p)] else [])
  ++ (if bool_decide (p_inferred_type p = mixed) && negb (Qle_bool 50 (p_missing_pct p))
      then [MixedType (p_file p) (p_sheet p) (p_column p)] else []).

(** v2: [if missing_pct > 70: ...; if dtype == "mixed": ...] *)
Definition quality_flags_v2 (p : profile) : list issue :=
  (if negb (Qle_bool (p_missing_pct p) 70)
   then [NullHeavy (p_file p) (p_sheet p) (p_column p) (p_missing_pct p)] else [])
  ++ (if bool_decide (p_inferred_type p = mixed)
      then [MixedType (p_file p) (p_sheet p) (p_column p)] else []).

(** phased_analyzer_v3.py, lines 387-416: body of
    [for col in cols_to_profile], [try: ... except Exception: pass]. *)
Definition profile_step (rec : sheet_rec) (st : dstate) (col : pystr * series) : dstate :=
  match profile_column rec col with
  | Ok p =>
      {| deep_profiles := deep_profiles st ++ [p];
         quality_issues := quality_issues st ++ quality_flags p;
         errors_log := errors_log st |}
  | Raise _ => st
  end.

(** phased_analyzer_v2.py, lines 352-381: the same loop,
    [except Exception as ce: errors_log.append(f"Column error ...")]. *)
Definition profile_step_v2 (rec : sheet_rec) (st : dstate) (col : pystr * series) : dstate :=
  match profile_column rec col with
  | Ok p =>
      {| deep_profiles := deep_profiles st ++ [p];
         quality_issues := quality_issues st ++ quality_flags_v2 p;
         errors_log := errors_log st |}
  | Raise e =>
      {| deep_profiles := deep_profiles st;
         quality_issues := quality_issues st;
         errors_log := errors_log st ++ [ColumnError (rec_file rec) (rec_sheet rec) col.1 e] |}
  end.

(** Body of [for rec in phase1]: a sheet that cannot be read is logged
    and passed over. *)
Definition profile_sheet (st : dstate) (rec : sheet_rec) : dstate :=
  match read_frame rec with
  | Raise e =>
      {| deep_profiles := deep_profiles st;
         quality_issues := quality_issues st;
         errors_log := errors_log st ++ [DeepReadError (rec_file rec) (rec_sheet rec) e] |}
  | Ok df => foldl (profile_step rec) st (cols_to_profile rec df)
  end.

Definition profile_sheet_v2 (st : dstate) (rec : sheet_rec) : dstate :=
  match read_frame rec with
  | Raise e =>
      {| deep_profiles := deep_profiles st;
         quality_issues := quality_issues st;
         errors_log := errors_log st ++ [DeepReadError (rec_file rec) (rec_sheet rec) e] |}
  | Ok df => foldl (profile_step_v2 rec) st df
  end.

(** Phase 4, deep profiling. *)
Definition deep_profile (phase1 : list sheet_rec) (st : dstate) : dstate :=
  foldl profile_sheet st phase1.

Definition deep_profile_v2 (phase1 : list sheet_rec) (st : dstate) : dstate :=
  foldl profile_sheet_v2 st phase1.

(** The profile of a column when its profiling does not raise. *)
Definition profile_of (rec : sheet_rec) (col : pystr * series) : option profile :=
  match profile_column rec col with Ok p => Some p | Raise _ => None end.

End DeepProfile.

(** ** Maxima and sorting by a key *)

(** [max(iterable, key=...)]: the first element of greatest key; [best]
    is the element kept so far. *)
Fixpoint py_max_by {A} (key : A -> nat) (best : A) (l : list A) : A :=
  match l with
  | [] => best
  | x :: l' => py_max_by key (if (key best <? key x)%nat then x else best) l'
  end.



(** ** Phase 2: canonical frequencies *)

(** [c[k] += v] on a [Counter]. *)
Definition counter_add (k : pystr) (v : nat) (cf : list (pystr * nat)) : list (pystr * nat) :=
  dict_set k (default 0%nat (dict_get k cf) + v)%nat cf.

(** phased_analyzer*.py:
    [for k, v in col_freq.items():
       canon = merged.get(k, k); canonical_freq[canon] += v] *)
Definition canonical_freq (merged : gmap pystr pystr) (cf : list (pystr * nat))
    : list (pystr * nat) :=
  foldl (fun acc kv => counter_add (canon merged kv.1) kv.2 acc) [] cf.

(** ** Phase 3: classification of a cluster (phased_analyzer_v3.py) *)

(** A label of the form "kind – detail"; the dash is U+2013. *)
Definition dashed (kind detail : string) : pystr :=
  of_string kind ++ [32; 8211; 32] ++ of_string detail.

(** The dictionary [SIGNALS], lines 281-315. *)
Definition SIGNALS : list (pystr * list pystr) :=
  [ (dashed "Entity Table" "Product/Part Catalog",
     of_string <$>
       ["sku"; "title"; "brand"; "price"; "upc"; "mpn"; "description"; "item_name";
        "product_name"; "condition"; "category"; "manufacturer_part_number";
        "part_number"; "item_sku"; "custom_label"; "ebay_title"; "quantity";
        "oem_number"; "parts_description"; "part_title"; "additional_details";
        "oem"; "real_price"]%string);
    (dashed "Export Format" "eBay Listing Template",
     of_string <$>
       ["action"; "site_id"; "format"; "duration"; "start_price"; "buy_it_now_price";
        "listing_type"; "listing_duration"; "ebay_category"; "ebay_item_id";
        "listing_status"; "item_id"; "dont_change_this"; "general_instructions";
        "shippingpolicynames"; "returnpolicynames"; "paymentpolicynames"]%string);
    (dashed "Reference Lookup" "Category Mapping",
     of_string <$>
       ["category_id"; "category_name"; "header"; "mandatory"; "values"]%string);
    (dashed "Reference Lookup" "eBay Item Aspects",
     of_string <$>
       ["c_brand"; "c_manufacturer_part_number"; "c_placement_on_vehicle";
        "c_fitment_type"; "c_warranty"; "c_type"; "c_material";
        "c_surface_finish"; "c_color"]%string);
    (dashed "Relational Mapping" "Vehicle Fitment",
     of_string <$>
       ["make"; "model"; "year"; "engine"; "submodel"; "trim"; "fitment";
        "vehicle"; "compatibility"; "maker"]%string);
    (dashed "Media Mapping" "Image/URL heavy",
     of_string <$>
       ["image_url"; "picurl"; "pic_url"; "image"; "photo"; "gallery_url";
        "picture_url"; "image_count"; "folder_link";
        "image_links_one_per_column_f_g_h"; "exists_in_drive"]%string);
    (dashed "Inventory Snapshot" "SKU + Quantity",
     of_string <$>
       ["quantity"; "location"; "warehouse"; "stock"; "bin"; "qty";
        "available_quantity"; "q"]%string);
    (of_string "Metadata / Instructions Sheet"%string,
     of_string <$>
       ["info"; "created"; "indicates_missing_required_fields";
        "indicates_missing_field_that_will_be_required_soon";
        "fitment_parts_accessories_help"]%string);
    (of_string "Condition Descriptors Reference"%string,
     of_string <$> ["condition_descriptor"; "conditiondescriptors"]%string) ].

Definition unknown_label : pystr := dashed "Unknown" "insufficient signals".

(** An entry of the list [evidence]. *)
Inductive evidence :=
  | NoStrongMatch
  | Matched (label : pystr) (hits : list pystr).

(** The triple [classify_cluster] returns. *)
Record verdict := { v_label : pystr; v_conf : Z; v_evidence : list evidence }.

(** [hits = cols & sig; if hits: scores[label] = (len(hits), hits)] *)
Definition signal_hits (cols : list pystr) (ls : pystr * list pystr)
    : option (pystr * list pystr) :=
  let hits := list_intersection cols (to_set ls.2) in
  if is_nil hits then None else Some (ls.1, hits).

(** [max(len(s) for s in SIGNALS.values())] *)
Definition max_sig : nat := max_list ((fun ls => length (to_set ls.2)) <$> SIGNALS).

Section Classify.

Variable lower : pystr -> pystr.

(** [classify_cluster(union_cols)], lines 317-332. The quotient
    [hit_count / max_sig * 100] is an integer only when the two counts are
    equal, so that [int] of the binary64 product is the floor of the exact
    one. *)
Definition classify_cluster (union_cols : list pystr) : verdict :=
  let cols := to_set (lower <$> union_cols) in
  let scores := omap (signal_hits cols) SIGNALS in
  match scores with
  | [] => {| v_label := unknown_label; v_conf := 20; v_evidence := [NoStrongMatch] |}
  | s :: rest =>
      let best := py_max_by (fun s => length s.2) s rest in
      let hit_count := length best.2 in
      {| v_label := best.1;
         v_conf := Z.min 95 (Qfloor (frac hit_count max_sig * 100) + 40);
         v_evidence := (fun s => Matched s.1 (py_sorted s.2)) <$> scores |}
  end.

End Classify.

(** [clusters.get(assigned.get(key, 0), {})]: the cluster the master index
    reports for a sheet. *)
Definition cluster_of (st : cstate) (key : pystr) : option cluster :=
  dict_get (default 0%nat (assigned st !! key)) (clusters st).

(** ** Sheet keys taken apart *)

(** [s.split(sep)] for a separator of one character. *)
Fixpoint split_on (sep : N) (s : pystr) : list pystr :=
  match s with
  | [] => [[]]
  | c :: s' =>
      if c =? sep then [] :: split_on sep s'
      else match split_on sep s' with
           | p :: ps => (c :: p) :: ps
           | [] => [[c]]
           end
  end.

(** [m.split("|")[0]] and [m.split("|")[1]]; [None] stands for the
    IndexError of a missing part. *)
Definition key_file (m : pystr) : option pystr := split_on bar m !! 0%nat.
Definition key_sheet (m : pystr) : option pystr := split_on bar m !! 1%nat.

(** [short_files = sorted(set(m.split("|")[0] for m in cinfo["members"]))] *)
Definition short_files (cl : cluster) : list pystr :=
  py_sorted (to_set (omap key_file (members cl))).

(** ** Type inference of a column (phased analyzers) *)

Definition t_empty : pystr := of_string "empty"%string.
Definition t_integer : pystr := of_string "integer"%string.
Definition t_decimal : pystr := of_string "decimal"%string.
Definition t_boolean : pystr := of_string "boolean"%string.
Definition t_date : pystr := of_string "date"%string.
Definition t_currency : pystr := of_string "currency"%string.
Definition t_string : pystr := of_string "string"%string.

Section InferDtype.

(** [re.match] of the five patterns of [infer_dtype], in the order in
    which they are tried. *)
Variables rx_integer rx_decimal rx_boolean rx_date rx_currency : pystr -> bool.

(** The [if]/[elif] chain on a stripped, non-empty value. *)
Definition value_type (v : pystr) : pystr :=
  if rx_integer v then t_integer
  else if rx_decimal v then t_decimal
  else if rx_boolean v then t_boolean
  else if rx_date v then t_date
  else if rx_currency v then t_currency
  else t_string.

(** Lines 49-57: the loop over the sample strips each value, skips the
    empty ones and counts the type of every other one. *)
Definition type_counts (sample : list pystr) : list (pystr * nat) :=
  foldl (fun counts v =>
           let v := strip v in
           if is_empty_str v then counts else counter_incr (value_type v) counts)
        [] sample.

(** [infer_dtype(series)]; [counts.most_common(1)[0]] is the first entry
    of greatest count. *)
Definition infer_dtype (ser : series) : pystr :=
  let non_null := dropna ser in
  if (length non_null =? 0)%nat then t_empty
  else
    let counts := type_counts (take 200 non_null) in
    match counts with
    | [] => t_empty
    | c :: rest =>
        let top := (py_max_by snd c rest).1 in
        let total := sum_list (snd <$> counts) in
        if negb (Qle_bool (6 # 10) (frac (default 0%nat (dict_get top counts)) total))
           && (1 <? length counts)%nat
        then mixed
        else top
    end.

End InferDtype.

(** ** Pattern detection of a column (phased analyzers) *)

(** The keys of [PATTERN_MAP], in the order of the dictionary. *)
Definition PATTERN_NAMES : list pystr :=
  of_string <$> ["sku"; "email"; "phone"; "url"; "currency_value"; "vin";
                 "date_iso"; "incremental_id"]%string.

Section DetectPatterns.

(** [PATTERN_MAP[pname].match(v)] *)
Variable prx : pystr -> pystr -> bool.

(** [for pname, prx in PATTERN_MAP.items(): if prx.match(v): hits[pname] += 1] *)
Definition pattern_hits_step (hits : list (pystr * nat)) (v : pystr) : list (pystr * nat) :=
  foldl (fun hits pname => if prx pname (strip v) then counter_incr pname hits else hits)
        hits PATTERN_NAMES.

(** [detect_patterns(series)] *)
Definition detect_patterns (ser : series) : list (pystr * Q) :=
  let non_null := take 200 (dropna ser) in
  if (length non_null =? 0)%nat then []
  else
    let hits := foldl pattern_hits_step [] non_null in
    let n := length non_null in
    omap (fun kv => if Qle_bool (frac kv.2 n) (15 # 100) then None
                    else Some (kv.1, round1 (frac kv.2 n * 100)))
         hits.

End DetectPatterns.

(** ** Join columns *)

(** [s.add(x)] *)
Definition set_add (x : pystr) (s : list pystr) : list pystr :=
  if decide (x ∈ s) then s else s ++ [x].

(** [d[k].add(x)] on a [defaultdict(set)]. *)
Definition dict_add (k x : pystr) (d : list (pystr * list pystr)) : list (pystr * list pystr) :=
  dict_set k (set_add x (default [] (dict_get k d))) d.

(** phased_analyzer_v3.py, lines 443-447:
    [for nc, locs in col_sheet_map.items():
       if len(locs) >= 2: for f, s, u in locs: join_clusters[nc].add(f)] *)
Definition join_clusters (csm : list (pystr * list loc)) : list (pystr * list pystr) :=
  foldl (fun jc item =>
           if (2 <=? length item.2)%nat
           then foldl (fun jc l => dict_add item.1 (l_file l) jc) jc item.2
           else jc)
        [] csm.

(** clean_report.py, lines 55-60:
    [files_set = set(l["file"] for l in locs);
     if len(files_set) < 2: continue; join_cols[nc] = files_set] *)
Definition join_cols (csm : list (pystr * list loc)) : list (pystr * list pystr) :=
  foldl (fun jc item =>
           let files_set := to_set (map l_file item.2) in
           if (length files_set <? 2)%nat then jc else dict_set item.1 files_set jc)
        [] csm.

(** ** The table of primary-key candidates (phased_analyzer_v3.py) *)

(** Lines 610-615: [shown = 0;
    for nc, locs in pk_candidates:
      for fl, sh, u in locs[:2]: write a row; shown += 1
      if shown > 50: break]. The rows written, in order. *)
Fixpoint pk_table (shown : nat) (pks : list (pystr * list loc)) : list (pystr * loc) :=
  match pks with
  | [] => []
  | item :: rest =>
      let rows := (fun l => (item.1, l)) <$> take 2 item.2 in
      let shown' := (shown + length rows)%nat in
      rows ++ (if (50 <? shown')%nat then [] else pk_table shown' rest)
  end.

(** ** Quality lists of the report post-processor *)

(** clean_report.py, lines 73-80: [quality_null] and [quality_mixed],
    [if 70 < m < 100: ...; if r["Type"] == "mixed" and m < 50: ...]. *)
Definition clean_quality_step (q : list issue * list issue) (r : profile)
    : list issue * list issue :=
  let m := p_missing_pct r in
  (if negb (Qle_bool m 70) && negb (Qle_bool 100 m)
   then q.1 ++ [NullHeavy (p_file r) (p_sheet r) (p_column r) m] else q.1,
   if bool_decide (p_inferred_type r = mixed) && negb (Qle_bool 50 m)
   then q.2 ++ [MixedType (p_file r) (p_sheet r) (p_column r)] else q.2).

Definition clean_quality (dd_rows : list profile) : list issue * list issue :=
  foldl clean_quality_step ([], []) (named_dd dd_rows).

(** ** Redundancy in the report post-processor *)

(** A row of master_index.csv, as [csv.DictReader] gives it. *)
Record mi_row := {
  mi_file : pystr;
  mi_sheet : pystr;
  mi_size_bytes : pystr;
  mi_col_count : pystr;
  mi_wide_flag : pystr;
  mi_rows : pystr;
  mi_cluster_id : pystr;
  mi_classification : pystr;
  mi_class_conf : pystr
}.

(** [sig = f"{r['Sheet']}|{r['ColCount']}"] *)
Definition row_sig (r : mi_row) : pystr := mi_sheet r ++ [bar] ++ mi_col_count r.

(** [f"{r['File']}|{r['Sheet']}"] *)
Definition row_key (r : mi_row) : pystr := mi_file r ++ [bar] ++ mi_sheet r.

Section CleanFingerprint.

Variable md5 : pystr -> pystr.

(** clean_report.py, lines 84-89. *)
Definition clean_sheet_fps (mi_rows : list mi_row) : list (pystr * list pystr) :=
  foldl (fun d r => dict_append (md5 (row_sig r)) (row_key r) d) [] mi_rows.

Definition clean_redundant (mi_rows : list mi_row) : list (pystr * list pystr) :=
  filter (fun g => (1 < length g.2)%nat) (clean_sheet_fps mi_rows).

(** [big = {fp: m for fp, m in redundant.items() if len(m) >= 3}], the
    groups the report lists. *)
Definition clean_big (mi_rows : list mi_row) : list (pystr * list pystr) :=
  filter (fun g => (3 <= length g.2)%nat) (clean_redundant mi_rows).

End CleanFingerprint.

(** ** File clusters (analyze_spreadsheets.py) *)

(** [file_to_headers[f].update(headers)] *)
Definition dict_update (k : pystr) (xs : list pystr) (d : list (pystr * list pystr))
    : list (pystr * list pystr) :=
  dict_set k (list_union (default [] (dict_get k d)) xs) d.

(** Lines 410-412: [for (f, s), headers in sheet_header_sets.items():
    file_to_headers[f].update(headers)]. *)
Definition file_to_headers (sheet_header_sets : list ((pystr * pystr) * list pystr))
    : list (pystr * list pystr) :=
  foldl (fun d e => dict_update e.1.1 e.2 d) [] sheet_header_sets.

(** [file_to_headers[f]] *)
Definition headers_of (fth : list (pystr * list pystr)) (f : pystr) : list pystr :=
  default [] (dict_get f fth).

Definition FILE_SIM : Q := (55 # 100)%Q.

(** [unassigned.remove(f)] *)
Definition set_remove (f : pystr) (s : list pystr) : list pystr :=
  filter (fun x => x <> f) s.

(** Lines 414-432, the loop [while unassigned]. The set [unassigned] is
    given by the list of its elements in the order in which Python
    enumerates it; removing elements leaves the order of the others as it
    is. One unit of [fuel] is one pass of the loop; the function returns the
    clusters and what is left of [unassigned]. *)
Fixpoint cluster_files (fuel : nat) (fth : list (pystr * list pystr))
    (unassigned : list pystr) (clusters : list (list pystr))
    : list (list pystr) * list pystr :=
  match fuel, unassigned with
  | S fuel', seed :: _ =>
      let unassigned := set_remove seed unassigned in
      let seed_headers := headers_of fth seed in
      let to_add :=
        filter (fun other => Qle_b FILE_SIM (jaccard_legacy seed_headers (headers_of fth other)))
               unassigned in
      let unassigned := foldl (fun u f => set_remove f u) unassigned to_add in
      cluster_files fuel' fth unassigned (clusters ++ [seed :: to_add])
  | _, _ => (clusters, unassigned)
  end.

(** ** Key overlaps (analyze_spreadsheets.py) *)








(** ** The named candidates of the report post-processor *)

(** clean_report.py, lines 249-250:
    [named_pks = [(nc, locs) for nc, locs in pk_candidates
                  if not nc.startswith("unnamed_")]] and the same for
    [named_fks]. *)
Definition named_pks (pks : list (pystr * list loc)) : list (pystr * list loc) :=
  filter (fun pk => ~ unnamed_prefix `prefix_of` pk.1) pks.

Definition named_fks (fks : list fk_pair) : list fk_pair :=
  filter (fun fk => ~ unnamed_prefix `prefix_of` fk_column fk) fks.

(** ** Invariants and auxiliary definitions of the proofs *)

(** [clean prev s]: [s] is made of [[a-z0-9_]] only and has no two
    adjacent underscores; [prev] tells that the character before [s]
    is an underscore. *)
Fixpoint clean (prev : bool) (s : pystr) : Prop :=
  match s with
  | [] => True
  | c :: s' =>
      if is_underscore c then prev = false /\ clean true s'
      else is_lower_alnum c = true /\ clean false s'
  end.

(** Invariant of the merge loops: every recorded canonical name was taken
    from an index of [keys] below [bound] and is not itself an alias. *)
Definition merge_inv (keys : list pystr) (bound : nat) (m : gmap pystr pystr) : Prop :=
  forall a c, m !! a = Some c ->
    (exists ic, (ic < bound)%nat /\ keys !! ic = Some c) /\ m !! c = None.

(** What one item of the column map adds to the two lists: [skip] is the
    guard that passes over the item, [cut] the truncation of the two sides
    of the edges. *)
Definition pk_of (skip : list loc -> bool) (item : pystr * list loc)
    : list (pystr * list loc) :=
  if skip item.2 then []
  else match filter (fun l => is_high l = true) item.2 with
       | [] => []
       | high => [(item.1, high)]
       end.

Definition fk_of (skip : list loc -> bool) (cut : list loc -> list loc)
    (item : pystr * list loc) : list fk_pair :=
  if skip item.2 then []
  else
    let high := filter (fun l => is_high l = true) item.2 in
    let low := filter (fun l => is_low l = true) item.2 in
    if is_nil high || is_nil low then [] else all_pairs item.1 (cut high) (cut low).

Definition few_locs (locs : list loc) : bool := (length locs <? 2)%nat.
Definition few_files (locs : list loc) : bool :=
  (length (to_set (map l_file locs)) <? 2)%nat.
Definition no_cut (ls : list loc) : list loc := ls.


(** Grouping the elements of a list into a dictionary of lists: the
    elements that [keep] selects are appended under their [key]. *)
Definition group_step {A K V : Type} `{EqDecision K}
    (key : A -> K) (val : A -> V) (keep : A -> bool)
    (d : list (K * list V)) (a : A) : list (K * list V) :=
  if keep a then dict_append (key a) (val a) d else d.

Definition group_hits {A K V : Type} `{EqDecision K}
    (key : A -> K) (val : A -> V) (keep : A -> bool) (k : K) (l : list A) : list V :=
  val <$> filter (fun a => keep a = true /\ key a = k) l.

(** ** Sample inputs *)

Module Samples.

Definition mk_rec (f sh : string) (cols : list string) : sheet_rec :=
  {| rec_file := of_string f; rec_sheet := of_string sh;
     rec_columns := of_string <$> cols;
     rec_norm_cols := normalize_col ascii_lower <$> (of_string <$> cols);
     rec_is_wide := (300 <? length cols)%nat |}.

Definition mk_row (cells : list string) : list pystr := of_string <$> cells.

Definition mk_series (cells : list string) : series := (fun c => Some (of_string c)) <$> cells.

Definition mk_profile (f sh col : string) (u : Q) : profile :=
  {| p_file := of_string f; p_sheet := of_string sh; p_column := of_string col;
     p_norm_col := normalize_col ascii_lower (of_string col);
     p_inferred_type := of_string "string"; p_missing_pct := 0;
     p_unique_values := 0; p_uniqueness_pct := u; p_patterns := []; p_cluster_id := 0 |}.

Definition mk_loc (f sh : string) (u : Q) : loc :=
  {| l_file := of_string f; l_sheet := of_string sh; l_uniq := u |}.

(** Scenario B of the specification and a third sheet sharing a name. *)
Definition three_sheets : list sheet_rec :=
  [mk_rec "a.xlsx" "S" ["a"; "b"; "c"];
   mk_rec "b.xlsx" "T" ["a"; "b"; "c"; "d"];
   mk_rec "c.xlsx" "S" ["x"; "b"; "c"; "d"]].


(** Eight rows of repeated numbers followed by a row of labels. *)
Definition preview_nine_rows : list (list pystr) :=
  replicate 8 (mk_row ["1"; "1"]) ++ [mk_row ["name"; "qty"]].

(** An empty row above a row of repeated numbers. *)
Definition preview_empty_first : list (list pystr) :=
  [mk_row [""; ""; ""; ""]; mk_row ["1"; "1"; "1"; "1"]].


(** Two cells that differ by a trailing blank. *)
Definition column_with_blank : series := mk_series ["a"; "a "].



(** A column present in two sheets of one workbook. *)
Definition same_file_rows : list profile :=
  [mk_profile "a.xlsx" "S1" "sku" 100; mk_profile "a.xlsx" "S2" "sku" 50].

(** A column with four nearly unique locations and one repetitive one. *)
Definition four_high_rows : list profile :=
  [mk_profile "a.xlsx" "S" "sku" 100; mk_profile "b.xlsx" "S" "sku" 95;
   mk_profile "c.xlsx" "S" "sku" 90; mk_profile "d.xlsx" "S" "sku" 85;
   mk_profile "e.xlsx" "S" "sku" 40].

Definition sku : pystr := of_string "sku".



(** Two sheets whose one column is spelled in two ways, and the alias map
    that merges the two spellings. *)
Definition sheet_id : sheet_rec := mk_rec "a.xlsx" "S" ["order_id"].
Definition sheet_ids : sheet_rec := mk_rec "b.xlsx" "S" ["order_ids"].
Definition merged_ids : gmap pystr pystr :=
  {[ of_string "order_ids" := of_string "order_id" ]}.

(** A similarity ratio that is 16/17 on the two spellings, as difflib
    gives for them, and 0 elsewhere. *)
Definition ratio_ids (a b : pystr) : Q :=
  if bool_decide (a = of_string "order_id" /\ b = of_string "order_ids")
  then (16 # 17)%Q else 0%Q.



(** The same two names, one of them twice. *)
Definition sheet_ab : sheet_rec := mk_rec "a.xlsx" "S" ["a"; "b"].
Definition sheet_aab : sheet_rec := mk_rec "b.xlsx" "S" ["a"; "A"; "b"].

End Samples.

(** ** Auxiliary definitions of the further properties *)

(** The normalized names that Phase 2 goes through, one for each column
    of each sheet; the [zip] of the two header lists stops at the shorter
    one. *)
Definition norm_occurrences (phase1 : list sheet_rec) : list pystr :=
  rec ← phase1; (zip (rec_columns rec) (rec_norm_cols rec)).*2.

(** The number of times [k] occurs in [l]. *)
Definition occurrences (k : pystr) (l : list pystr) : nat :=
  length (filter (fun n => n = k) l).

(** What holds of every cluster that the clustering loops form: its
    [union_cols] is the union of the column sets of its members; a member
    without named columns is alone in its cluster; and a cluster formed by
    sheet name has at least two members, all from one group of [gs]. *)
Definition cluster_ok (colsets : list (pystr * list pystr))
    (gs : list (pystr * list pystr)) (cl : cluster) : Prop :=
  (forall x, x ∈ union_cols cl <-> exists m, m ∈ members cl /\ x ∈ colset_of colsets m)
  /\ (forall m, m ∈ members cl -> colset_of colsets m = [] -> members cl = [m])
  /\ (via cl = ViaSheetName ->
      (2 <= length (members cl))%nat
      /\ exists g, g ∈ gs /\ forall m, m ∈ members cl -> m ∈ g.2).

(** The bookkeeping of the clustering loops: cluster ids are 1, 2, ... in
    the order of formation, [assigned] sends a sheet to a cluster that
    lists it, and every cluster is as [cluster_ok] says. *)
Definition cstate_wf (colsets : list (pystr * list pystr))
    (gs : list (pystr * list pystr)) (st : cstate) : Prop :=
  map fst (clusters st) = seq 1 (cid st)
  /\ (forall k c, assigned st !! k = Some c ->
        exists cl, (c, cl) ∈ clusters st /\ k ∈ members cl)
  /\ Forall (fun c => cluster_ok colsets gs c.2) (clusters st).

(** The local variables of the residual loop for the seed [k] and the
    cluster id [c], started from the assignment [a0]. *)
Definition jstate_wf (colsets : list (pystr * list pystr)) (c : nat)
    (a0 : gmap pystr nat) (k : pystr) (js : jstate) : Prop :=
  (exists rest, j_members js = k :: rest)
  /\ (forall x, x ∈ j_ccols js <-> exists m, m ∈ j_members js /\ x ∈ colset_of colsets m)
  /\ (forall m, m ∈ j_members js -> colset_of colsets m = [] -> j_members js = [m])
  /\ (forall key c', j_assigned js !! key = Some c' ->
        (key ∈ j_members js /\ c' = c) \/ a0 !! key = Some c')
  /\ (forall key, is_Some (a0 !! key) -> is_Some (j_assigned js !! key))
  /\ is_Some (j_assigned js !! k).

(** The values that [infer_dtype] counts: the first 200 non-missing
    cells, stripped, without the empty ones. *)
Definition typed_sample (ser : series) : list pystr :=
  filter (fun v => is_empty_str v = false) (strip <$> take 200 (dropna ser)).

(** The two kinds of quality issue and of log entry. *)
Definition is_null_heavy (i : issue) : bool :=
  match i with NullHeavy _ _ _ _ => true | MixedType _ _ _ => false end.

Definition is_column_error (e : log_entry) : bool :=
  match e with ColumnError _ _ _ _ => true | DeepReadError _ _ _ => false end.

(** The rows that the table of primary-key candidates would hold without
    the break: two locations at most for each candidate. *)
Definition pk_rows (pks : list (pystr * list loc)) : list (pystr * loc) :=
  item ← pks; (fun l => (item.1, l)) <$> take 2 item.2.

(** The files of a list of locations, each once, in the order of their
    first occurrence. *)
Definition files_of (locs : list loc) : list pystr :=
  foldl (fun s l => set_add (l_file l) s) [] locs.

(** * Properties *)

(** A decidable closed proposition is settled by evaluation. *)
Ltac decide_by_compute := apply (bool_decide_unpack _); vm_compute; exact I.

(** ** Normalizer *)

Example normalize_col_ex1 :
  normalize_col ascii_lower (of_string "  Order ID (#) "%string) = of_string "order_id"%string.
Proof. vm_compute. reflexivity. Qed.

Example normalize_col_ex2 :
  normalize_col ascii_lower (of_string "__SKU--No.__"%string) = of_string "sku_no"%string.
Proof. vm_compute. reflexivity. Qed.

Example normalize_col_legacy_ex1 :
  normalize_col_legacy ascii_lower (of_string "  Order ID (#) "%string) = of_string "order_id_"%string.
Proof. vm_compute. reflexivity. Qed.

Example normalize_col_legacy_ex2 :
  normalize_col_legacy ascii_lower (of_string " ?? "%string) = of_string "unnamed"%string.
Proof. vm_compute. reflexivity. Qed.

Section NormalizeFacts.

Implicit Types (p : N -> bool) (s t : pystr) (c : N).

Lemma lstrip_id p s : Forall (fun c => p c = false) s -> lstrip p s = s.
Proof. destruct 1 as [|c s Hc _]; simpl; [done | by rewrite Hc]. Qed.

Lemma rstrip_id p s : Forall (fun c => p c = false) s -> rstrip p s = s.
Proof.
  induction 1 as [|c s Hc _ IH]; simpl; [done|].
  rewrite IH, Hc. by destruct s.
Qed.

Lemma strip_by_id p s : Forall (fun c => p c = false) s -> strip_by p s = s.
Proof. intros H. unfold strip_by. rewrite lstrip_id by done. by apply rstrip_id. Qed.

Lemma lstrip_suffix p s : lstrip p s `suffix_of` s.
Proof.
  induction s as [|c s IH]; simpl; [done|].
  destruct (p c); [by apply suffix_cons_r | done].
Qed.

Lemma rstrip_prefix p s : rstrip p s `prefix_of` s.
Proof.
  induction s as [|c s IH]; simpl; [done|].
  destruct (rstrip p s) as [|d r] eqn:E.
  - destruct (p c); [apply prefix_nil | by apply prefix_cons, prefix_nil].
  - by apply prefix_cons.
Qed.

Lemma lstrip_head p s : head (lstrip p s) = None \/ exists c, head (lstrip p s) = Some c /\ p c = false.
Proof.
  induction s as [|c s IH]; simpl; [by left|].
  destruct (p c) eqn:E; [done | right; eauto].
Qed.

Lemma lstrip_fix_head p s :
  (forall c, head s = Some c -> p c = false) -> lstrip p s = s.
Proof. destruct s as [|c s]; simpl; [done|]. intros H. by rewrite (H c). Qed.

Lemma rstrip_idemp p s : rstrip p (rstrip p s) = rstrip p s.
Proof.
  induction s as [|c s IH]; simpl; [done|].
  destruct (rstrip p s) as [|d r] eqn:E.
  - destruct (p c) eqn:Ec; simpl; [done | by rewrite Ec].
  - simpl in *. by rewrite IH.
Qed.

Lemma rstrip_head p s c :
  head (rstrip p s) = Some c -> head s = Some c.
Proof.
  destruct s as [|d s]; simpl; [done|].
  destruct (rstrip p s); [by destruct (p d) | done].
Qed.

(** Stripping is idempotent on both ends. *)
Lemma strip_by_fix p s :
  lstrip p (strip_by p s) = strip_by p s /\ rstrip p (strip_by p s) = strip_by p s.
Proof.
  unfold strip_by. split; [|apply rstrip_idemp].
  apply lstrip_fix_head. intros c Hc. apply rstrip_head in Hc.
  destruct (lstrip_head p s) as [H | (d & H & Hd)]; congruence.
Qed.

Lemma strip_by_idemp p s : strip_by p (strip_by p s) = strip_by p s.
Proof.
  destruct (strip_by_fix p s) as [H1 H2].
  unfold strip_by at 1. by rewrite H1, H2.
Qed.

Lemma clean_weaken b s : clean b s -> clean false s.
Proof.
  destruct s as [|c s]; simpl; [done|].
  destruct (is_underscore c); intros [? ?]; [|done].
  split; [reflexivity | done].
Qed.

Lemma clean_tail b c s : clean b (c :: s) -> clean false s.
Proof. simpl. destruct (is_underscore c); intros [_ H]; by eapply clean_weaken. Qed.

Lemma clean_suffix s t : s `suffix_of` t -> clean false t -> clean false s.
Proof.
  intros [k ->]. induction k as [|c k IH]; simpl; [done|].
  intros H. apply IH. by eapply (clean_tail false c).
Qed.

Lemma clean_prefix b s t : s `prefix_of` t -> clean b t -> clean b s.
Proof.
  intros [k ->]. revert b. induction s as [|c s IH]; intros b; simpl; [done|].
  destruct (is_underscore c); intros [? ?]; split; auto.
Qed.

Lemma clean_word b s : clean b s -> Forall (fun c => is_word c = true) s.
Proof.
  revert b. induction s as [|c s IH]; intros b; simpl; [constructor|].
  intros H. constructor.
  - unfold is_word. destruct (is_underscore c); [apply orb_true_r|].
    destruct H as [-> _]. reflexivity.
  - destruct (is_underscore c); destruct H as [_ H]; eauto.
Qed.

Lemma underscore_not_alnum c : is_underscore c = true -> is_lower_alnum c = false.
Proof.
  unfold is_underscore, underscore. intros ->%N.eqb_eq. reflexivity.
Qed.

Lemma word_range c : is_word c = true -> 48 <= c <= 122.
Proof.
  unfold is_word, is_lower_alnum, is_underscore, underscore.
  destruct (N.leb_spec 97 c), (N.leb_spec c 122), (N.leb_spec 48 c),
    (N.leb_spec c 57), (N.eqb_spec c 95); simpl; intros; try done; lia.
Qed.

Lemma word_not_space c : is_word c = true -> isspace c = false.
Proof.
  intros H%word_range. unfold isspace.
  repeat match goal with
         | |- context [(?a <=? ?b)%N] => destruct (N.leb_spec a b); try lia
         | |- context [(?a =? ?b)%N] => destruct (N.eqb_spec a b); try lia
         end.
Qed.

(** The substitution of [[^a-z0-9]+] by one underscore produces a clean
    string, which does not start with an underscore when the run is
    already open. *)
Lemma sub_runs_from_clean b s :
  clean b (sub_runs_from (fun c => negb (is_lower_alnum c)) [underscore] b s).
Proof.
  revert b. induction s as [|c s IH]; intros b; simpl; [done|].
  destruct (is_lower_alnum c) eqn:E; simpl.
  - destruct (is_underscore c) eqn:U.
    + apply underscore_not_alnum in U. congruence.
    + split; [done | apply IH].
  - destruct b; simpl.
    + specialize (IH true).
      destruct (sub_runs_from _ _ true s) as [|d r]; simpl in *; [done|].
      destruct (is_underscore d); naive_solver.
    + split; [done | apply IH].
Qed.

(** On a clean string the substitution changes nothing. *)
Lemma sub_runs_from_id b s :
  clean b s -> sub_runs_from (fun c => negb (is_lower_alnum c)) [underscore] b s = s.
Proof.
  revert b. induction s as [|c s IH]; intros b; simpl; [done|].
  destruct (is_underscore c) eqn:U.
  - intros [-> H]. rewrite (underscore_not_alnum _ U). simpl.
    rewrite (IH true H). f_equal.
    unfold is_underscore in U. by apply N.eqb_eq in U.
  - intros [-> H]. simpl. by rewrite (IH false H).
Qed.

Lemma sub_runs_space_id b s :
  Forall (fun c => isspace c = false) s -> sub_runs_from isspace [underscore] b s = s.
Proof.
  intros H. revert b. induction H as [|c s Hc _ IH]; intros b; simpl; [done|].
  by rewrite Hc, IH.
Qed.

Lemma filter_word_id s :
  Forall (fun c => is_word c = true) s -> filter (fun c => is_word c = true) s = s.
Proof.
  induction 1 as [|c s Hc _ IH]; [done|].
  rewrite filter_cons. destruct (decide (is_word c = true)); [by rewrite IH | done].
Qed.

Lemma filter_word_Forall s :
  Forall (fun c => is_word c = true) (filter (fun c => is_word c = true) s).
Proof. apply Forall_forall. intros c Hc. by apply list_elem_of_filter in Hc as [? _]. Qed.

Variable lower : pystr -> pystr.

(** [str.lower()] leaves a string of lower-case ASCII letters, digits
    and underscores unchanged. *)
Hypothesis lower_word : forall s, Forall (fun c => is_word c = true) s -> lower s = s.

Lemma normalize_col_clean name :
  clean false (normalize_col lower name).
Proof.
  unfold normalize_col, strip_by.
  eapply clean_prefix; [apply rstrip_prefix|].
  eapply clean_suffix; [apply lstrip_suffix|].
  apply sub_runs_from_clean.
Qed.

Lemma normalize_col_word name :
  Forall (fun c => is_word c = true) (normalize_col lower name).
Proof. eapply clean_word, normalize_col_clean. Qed.

Lemma normalize_col_idempotent name :
  normalize_col lower (normalize_col lower name) = normalize_col lower name.
Proof.
  pose proof (normalize_col_clean name) as Hc.
  pose proof (normalize_col_word name) as Hw.
  set (out := normalize_col lower name) in *.
  unfold normalize_col at 1.
  rewrite (lower_word out Hw).
  unfold strip. rewrite (strip_by_id isspace out).
  2:{ eapply Forall_impl; [exact Hw|]. apply word_not_space. }
  unfold sub_runs. rewrite (sub_runs_from_id false out Hc).
  subst out. unfold normalize_col. apply strip_by_idemp.
Qed.

Lemma unnamed_word : Forall (fun c => is_word c = true) unnamed.
Proof. by repeat constructor. Qed.

Lemma normalize_col_legacy_word name :
  Forall (fun c => is_word c = true) (normalize_col_legacy lower name).
Proof.
  unfold normalize_col_legacy.
  pose proof (filter_word_Forall (sub_runs isspace [underscore] (lower (strip name)))) as H.
  destruct (filter _ _); [apply unnamed_word | done].
Qed.

Lemma normalize_col_legacy_nonempty name : normalize_col_legacy lower name <> [].
Proof. unfold normalize_col_legacy. by destruct (filter _ _). Qed.

Lemma normalize_col_legacy_idempotent name :
  normalize_col_legacy lower (normalize_col_legacy lower name)
  = normalize_col_legacy lower name.
Proof.
  pose proof (normalize_col_legacy_word name) as Hw.
  pose proof (normalize_col_legacy_nonempty name) as Hne.
  set (out := normalize_col_legacy lower name) in *.
  assert (Hs : Forall (fun c => isspace c = false) out).
  { eapply Forall_impl; [exact Hw|]. apply word_not_space. }
  unfold normalize_col_legacy.
  unfold strip. rewrite (strip_by_id isspace out Hs).
  rewrite (lower_word out Hw).
  unfold sub_runs. rewrite (sub_runs_space_id false out Hs).
  rewrite (filter_word_id out Hw).
  by destruct out.
Qed.

(** C2. The column-name normalizer is idempotent: normalizing a
    normalized name returns it unchanged, for every raw name. This holds
    for the normalizer of the phased analyzers and for the one of
    [analyze_spreadsheets.py]. *)
Theorem normalize_idempotent (x : pystr) :
  normalize_col lower (normalize_col lower x) = normalize_col lower x
  /\ normalize_col_legacy lower (normalize_col_legacy lower x)
     = normalize_col_legacy lower x.
Proof. split; [apply normalize_col_idempotent | apply normalize_col_legacy_idempotent]. Qed.

End NormalizeFacts.

Lemma ascii_lower_word s : Forall (fun c => is_word c = true) s -> ascii_lower s = s.
Proof.
  unfold ascii_lower.
  induction 1 as [|c s Hc _ IH]; simpl; [done|].
  rewrite IH. f_equal.
  unfold ascii_lower_char.
  unfold is_word, is_lower_alnum, is_underscore, underscore in Hc.
  destruct (N.leb_spec 65 c), (N.leb_spec c 90); simpl; try done.
  destruct (N.leb_spec 97 c), (N.leb_spec c 122), (N.leb_spec 48 c),
    (N.leb_spec c 57), (N.eqb_spec c 95); simpl in Hc; try done; lia.
Qed.

Lemma normalize_idempotent_witness :
  let x := of_string "  Order ID (#) "%string in
  normalize_col ascii_lower (normalize_col ascii_lower x) = normalize_col ascii_lower x
  /\ normalize_col_legacy ascii_lower (normalize_col_legacy ascii_lower x)
     = normalize_col_legacy ascii_lower x.
Proof. exact (normalize_idempotent ascii_lower ascii_lower_word _). Defined.

(** ** Loops *)

Lemma foldl_preserves {A B} (P : A -> Prop) (f : A -> B -> A) (l : list B) (a : A) :
  P a -> (forall a x, x ∈ l -> P a -> P (f a x)) -> P (foldl f a l).
Proof.
  revert a. induction l as [|x l IH]; intros a Ha Hf; simpl; [done|].
  apply IH.
  - apply Hf; [left | done].
  - intros a' y Hy. apply Hf. by right.
Qed.

(** A [for i in range(s, s + n)] loop carries an invariant indexed by the
    loop counter. *)
Lemma foldl_range_inv {A} (P : nat -> A -> Prop) (f : A -> nat -> A) (s n : nat) (a : A) :
  P s a ->
  (forall i a, (s <= i < s + n)%nat -> P i a -> P (S i) (f a i)) ->
  P (s + n)%nat (foldl f a (seq s n)).
Proof.
  revert s a. induction n as [|n IH]; intros s a Ha Hf; simpl.
  - by rewrite Nat.add_0_r.
  - replace (s + S n)%nat with (S s + n)%nat by lia.
    apply IH.
    + apply Hf; [lia | done].
    + intros i a' Hi. apply Hf. lia.
Qed.

(** ** Dictionaries *)

Section DictFacts.
Context {K V : Type} `{EqDecision K}.
Implicit Types (d : list (K * V)) (k : K) (v : V).

Lemma dict_keys_set k v d :
  dict_keys (dict_set k v d)
  = if decide (k ∈ dict_keys d) then dict_keys d else dict_keys d ++ [k].
Proof.
  unfold dict_keys. induction d as [|[k' v'] d IH]; simpl; [done|].
  destruct (decide (k = k')) as [->|Hne]; simpl.
  - rewrite decide_True by left. done.
  - rewrite IH. destruct (decide (k ∈ map fst d)) as [Hin|Hnin].
    + rewrite decide_True by (by right). done.
    + rewrite decide_False; [done|]. by intros [?|?]%elem_of_cons.
Qed.

Lemma dict_keys_set_NoDup k v d : NoDup (dict_keys d) -> NoDup (dict_keys (dict_set k v d)).
Proof.
  intros H. rewrite dict_keys_set. case_decide; [done|].
  apply NoDup_app. split_and!; [done | | apply NoDup_singleton].
  intros x Hx ->%list_elem_of_singleton. done.
Qed.

Lemma dict_keys_set_elem k v d x :
  x ∈ dict_keys (dict_set k v d) <-> x = k \/ x ∈ dict_keys d.
Proof.
  rewrite dict_keys_set. case_decide.
  - split; [by right | by intros [->|?]].
  - rewrite elem_of_app, list_elem_of_singleton. tauto.
Qed.

Lemma dict_get_set k v d k' :
  dict_get k' (dict_set k v d) = if decide (k' = k) then Some v else dict_get k' d.
Proof.
  induction d as [|[k0 v0] d IH]; simpl.
  - by destruct (decide (k' = k)).
  - destruct (decide (k = k0)) as [->|Hne]; simpl.
    + by destruct (decide (k' = k0)).
    + rewrite IH. destruct (decide (k' = k0)) as [->|]; [|done].
      by rewrite decide_False by done.
Qed.

Lemma dict_get_None k d : dict_get k d = None <-> k ∉ dict_keys d.
Proof.
  unfold dict_keys. induction d as [|[k0 v0] d IH]; simpl.
  - split; [intros _; apply not_elem_of_nil | done].
  - destruct (decide (k = k0)) as [->|Hne].
    + split; [done | intros []; left].
    + rewrite IH. rewrite not_elem_of_cons. tauto.
Qed.
End DictFacts.

(** ** The alias map *)

Lemma col_freq_NoDup phase1 : NoDup (dict_keys (col_freq phase1)).
Proof.
  unfold col_freq. apply (foldl_preserves (fun cf => NoDup (dict_keys cf))).
  { apply NoDup_nil_2. }
  intros cf rec _ Hcf. apply (foldl_preserves (fun cf => NoDup (dict_keys cf))); [done|].
  intros cf' rn _ H. destruct (is_empty_str rn.2); [done|].
  by apply dict_keys_set_NoDup.
Qed.

Lemma col_freq_v1_NoDup phase1 : NoDup (dict_keys (col_freq_v1 phase1)).
Proof.
  unfold col_freq_v1. apply (foldl_preserves (fun cf => NoDup (dict_keys cf))).
  { apply NoDup_nil_2. }
  intros cf rec _ Hcf. apply (foldl_preserves (fun cf => NoDup (dict_keys cf))); [done|].
  intros cf' rn _ H. by apply dict_keys_set_NoDup.
Qed.

Lemma norm_keys_NoDup phase1 : NoDup (norm_keys phase1).
Proof. apply NoDup_filter, col_freq_NoDup. Qed.

Lemma norm_keys_v1_NoDup phase1 : NoDup (norm_keys_v1 phase1).
Proof. apply col_freq_v1_NoDup. Qed.

Section MergeFacts.

Variable ratio : pystr -> pystr -> Q.
Variable keys : list pystr.
Hypothesis keys_NoDup : NoDup keys.

Lemma merge_inv_mono b b' m : (b <= b')%nat -> merge_inv keys b m -> merge_inv keys b' m.
Proof.
  intros Hb H a c Hac. destruct (H a c Hac) as [(ic & ? & ?) ?].
  split; [exists ic; split; [lia | done] | done].
Qed.

Lemma merge_step_j_inv i ki j m :
  keys !! i = Some ki -> (i < j)%nat ->
  merge_inv keys (S i) m /\ m !! ki = None ->
  merge_inv keys (S i) (merge_step_j ratio keys i m j)
  /\ merge_step_j ratio keys i m j !! ki = None.
Proof.
  intros Hi Hij [Hinv Hki]. unfold merge_step_j. rewrite Hi.
  destruct (keys !! j) as [kj|] eqn:Hj; [|done].
  case_decide as Hin; [done|].
  destruct (similar ratio ki kj); [|done].
  assert (Hne : ki <> kj).
  { intros ->. pose proof (NoDup_lookup _ _ _ _ keys_NoDup Hi Hj). lia. }
  split; [|by rewrite lookup_insert_ne].
  intros a c Hac. destruct (decide (a = kj)) as [->|Ha].
  - rewrite lookup_insert_eq in Hac. injection Hac as <-.
    split; [exists i; split; [lia | done]|].
    by rewrite lookup_insert_ne.
  - rewrite lookup_insert_ne in Hac by done.
    destruct (Hinv a c Hac) as [(ic & Hic & Hkc) Hc].
    split; [by exists ic|].
    rewrite lookup_insert_ne; [done|].
    intros <-. pose proof (NoDup_lookup _ _ _ _ keys_NoDup Hj Hkc). lia.
Qed.

Lemma merge_step_i_inv i m :
  (i < length keys)%nat -> merge_inv keys i m -> merge_inv keys (S i) (merge_step_i ratio keys m i).
Proof.
  intros Hi Hinv. unfold merge_step_i.
  assert (Hmono : merge_inv keys (S i) m) by (apply (merge_inv_mono i); [lia | done]).
  destruct (keys !! i) as [ki|] eqn:Hki; [|done].
  case_decide as Hin; [done|].
  apply eq_None_not_Some in Hin.
  pose proof (foldl_range_inv
    (fun _ m => merge_inv keys (S i) m /\ m !! ki = None)
    (merge_step_j ratio keys i) (S i) (length keys - S i) m) as H.
  apply H.
  - done.
  - intros j m' Hj Hm'. apply merge_step_j_inv; [done | lia | done].
Qed.

Lemma merge_names_inv : merge_inv keys (length keys) (merge_names ratio keys).
Proof.
  unfold merge_names.
  apply (foldl_range_inv (merge_inv keys) (merge_step_i ratio keys) 0 (length keys) ∅).
  - intros a c Hac. by rewrite lookup_empty in Hac.
  - intros i m Hi. apply merge_step_i_inv. lia.
Qed.

Lemma merge_names_no_chain a c :
  merge_names ratio keys !! a = Some c -> merge_names ratio keys !! c = None.
Proof. intros H. by destruct (merge_names_inv a c H). Qed.

Lemma merge_names_canon_fixpoint x :
  canon (merge_names ratio keys) (canon (merge_names ratio keys) x)
  = canon (merge_names ratio keys) x.
Proof.
  unfold canon at 2 3. destruct (merge_names ratio keys !! x) as [c|] eqn:E; simpl.
  - unfold canon. by rewrite (merge_names_no_chain x c E).
  - unfold canon. by rewrite E.
Qed.

End MergeFacts.

(** C10. The alias map built by the greedy merge has no chains: a name
    recorded as the canonical of an alias is never itself an alias, and so
    resolving a name twice gives the same result as resolving it once. This
    holds for the map of every phased analyzer, whatever the similarity
    ratio is. *)
Theorem merged_no_chains (ratio : pystr -> pystr -> Q) (phase1 : list sheet_rec) :
  (forall alias c, merged_map ratio phase1 !! alias = Some c ->
                   merged_map ratio phase1 !! c = None)
  /\ (forall x, canon (merged_map ratio phase1) (canon (merged_map ratio phase1) x)
                = canon (merged_map ratio phase1) x)
  /\ (forall alias c, merged_map_v1 ratio phase1 !! alias = Some c ->
                      merged_map_v1 ratio phase1 !! c = None)
  /\ (forall x, canon (merged_map_v1 ratio phase1) (canon (merged_map_v1 ratio phase1) x)
                = canon (merged_map_v1 ratio phase1) x).
Proof.
  unfold merged_map, merged_map_v1. split_and!.
  - apply merge_names_no_chain, norm_keys_NoDup.
  - apply merge_names_canon_fixpoint, norm_keys_NoDup.
  - apply merge_names_no_chain, norm_keys_v1_NoDup.
  - apply merge_names_canon_fixpoint, norm_keys_v1_NoDup.
Qed.

(** ** Clustering *)

Lemma elem_of_concat {A} (x : A) (ls : list (list A)) :
  x ∈ concat ls <-> exists l, x ∈ l /\ l ∈ ls.
Proof.
  induction ls as [|l0 ls IH]; simpl.
  - split; [by intros ?%elem_of_nil | by intros (l & _ & ?%elem_of_nil)].
  - rewrite elem_of_app, IH. split.
    + intros [H | (l & H1 & H2)]; [exists l0; split; [done | left] |].
      exists l. split; [done | by right].
    + intros (l & H1 & [->|H2]%elem_of_cons); [by left | right; eauto].
Qed.

Lemma concat_NoDup_unique {A} (ls : list (list A)) i j l l' x :
  NoDup (concat ls) -> ls !! i = Some l -> ls !! j = Some l' ->
  x ∈ l -> x ∈ l' -> i = j.
Proof.
  revert i j. induction ls as [|l0 ls IH]; intros i j Hnd Hi Hj Hx Hx'; [done|].
  simpl in Hnd. apply NoDup_app in Hnd as (Hl0 & Hdisj & Hrest).
  destruct i as [|i], j as [|j]; simpl in *; simplify_eq.
  - done.
  - exfalso. apply (Hdisj x Hx). apply elem_of_concat. exists l'.
    split; [done|]. apply list_elem_of_lookup. eauto.
  - exfalso. apply (Hdisj x Hx'). apply elem_of_concat. exists l.
    split; [done|]. apply list_elem_of_lookup. eauto.
  - f_equal. by apply IH.
Qed.

Lemma concat_NoDup_each {A} (ls : list (list A)) l :
  NoDup (concat ls) -> l ∈ ls -> NoDup l.
Proof.
  induction ls as [|l0 ls IH]; intros Hnd Hl; [by apply elem_of_nil in Hl|].
  simpl in Hnd. apply NoDup_app in Hnd as (Hl0 & _ & Hrest).
  apply elem_of_cons in Hl as [->|Hl]; auto.
Qed.

(** The invariant, once [assigned] covers exactly [keys], is a strict
    partition of [keys]. *)
Lemma cluster_inv_partition keys st :
  cluster_inv st ->
  (forall k, is_Some (assigned st !! k) <-> k ∈ keys) ->
  strict_partition keys st.
Proof.
  intros [Hnd Hmem] Hkeys. unfold all_members in *. split.
  - intros k Hk. apply Hkeys, Hmem in Hk.
    apply elem_of_concat in Hk as (l & Hkl & Hl).
    apply list_elem_of_lookup in Hl as [i Hi].
    rewrite list_lookup_fmap in Hi.
    destruct (clusters st !! i) as [c|] eqn:Hc; simplify_eq/=.
    exists i, c. split_and!; [done | done |].
    intros j c' Hj Hk'.
    eapply (concat_NoDup_unique _ j i); [exact Hnd | | | exact Hk' | exact Hkl].
    + by rewrite list_lookup_fmap, Hj.
    + by rewrite list_lookup_fmap, Hc.
  - intros i c Hc.
    assert (Hin : members c.2 ∈ map (fun c => members c.2) (clusters st)).
    { apply list_elem_of_lookup. exists i. by rewrite list_lookup_fmap, Hc. }
    split; [by eapply concat_NoDup_each|].
    intros k Hk. apply Hkeys, Hmem, elem_of_concat. eauto.
Qed.

Lemma all_members_snoc a cs c n cl :
  all_members {| assigned := a; clusters := cs ++ [(n, cl)]; cid := c |}
  = concat (map (fun c => members c.2) cs) ++ members cl.
Proof.
  unfold all_members. simpl. rewrite map_app, concat_app. simpl.
  by rewrite app_nil_r.
Qed.

Lemma assign_all_lookup c group a k :
  assign_all c group a !! k = if decide (k ∈ group) then Some c else a !! k.
Proof.
  unfold assign_all. revert a. induction group as [|g group IH]; intros a.
  - destruct (decide (k ∈ [])) as [H|_]; [by apply elem_of_nil in H | done].
  - cbn [foldl]. rewrite IH.
    destruct (decide (k ∈ group)) as [Hin|Hnin], (decide (k ∈ g :: group)) as [Hin'|Hnin'].
    + done.
    + exfalso. apply Hnin'. by right.
    + destruct (decide (k = g)) as [->|Hne]; [by rewrite lookup_insert_eq|].
      by apply elem_of_cons in Hin' as [?|?].
    + rewrite lookup_insert_ne; [done|]. intros ->. apply Hnin'. left.
Qed.

Lemma name_group_sublist colsets representative mems :
  (name_group colsets representative mems).1 `sublist_of` mems.
Proof.
  unfold name_group.
  enough (H : forall gu0,
    exists l, (foldl (name_group_step colsets representative) gu0 mems).1 = gu0.1 ++ l
      /\ l `sublist_of` mems).
  { destruct (H ([], [])) as (l & Heq & Hl). rewrite Heq. done. }
  induction mems as [|m mems IH]; intros gu0; simpl.
  - exists []. by rewrite app_nil_r.
  - destruct (IH (name_group_step colsets representative gu0 m)) as (l & Heq & Hl).
    rewrite Heq. unfold name_group_step.
    destruct (Qle_bool _ _ || set_eqb _ _); simpl.
    + exists (m :: l). rewrite <- app_assoc. split; [done | by apply sublist_skip].
    + exists l. split; [done | by apply sublist_cons].
Qed.

(** One pass of the name-affinity loop keeps the invariant, provided the
    sheets of the group are distinct and not yet assigned. *)
Lemma phaseA_step_inv colsets st g :
  cluster_inv st -> NoDup g.2 ->
  (forall k, k ∈ g.2 -> assigned st !! k = None) ->
  cluster_inv (phaseA_step colsets st g)
  /\ forall k, is_Some (assigned (phaseA_step colsets st g) !! k) ->
               is_Some (assigned st !! k) \/ k ∈ g.2.
Proof.
  intros [Hnd Hmem] Hg Hfresh. unfold phaseA_step.
  destruct (length g.2 <? 2)%nat; [split; [done | auto]|].
  destruct (is_empty_set _); [split; [done | auto]|].
  pose proof (name_group_sublist colsets
    (colset_of colsets (default [] (head g.2))) g.2) as Hsub.
  set (gu := name_group _ _ _) in *.
  destruct (2 <=? length gu.1)%nat; [|split; [done | auto]].
  assert (Hin : forall k, k ∈ gu.1 -> k ∈ g.2).
  { intros k Hk. by eapply elem_of_sublist. }
  split; [split|]; simpl.
  - rewrite all_members_snoc. apply NoDup_app. split_and!.
    + exact Hnd.
    + intros k Hk Hk'. apply Hmem in Hk as [v Hv].
      rewrite (Hfresh k (Hin k Hk')) in Hv. done.
    + by eapply sublist_NoDup.
  - intros k. rewrite all_members_snoc, elem_of_app. simpl.
    rewrite assign_all_lookup. fold (all_members st). rewrite Hmem.
    destruct (decide (k ∈ gu.1)); [split; [eauto | auto] | tauto].
  - intros k. rewrite assign_all_lookup.
    destruct (decide (k ∈ gu.1)); [right; auto | left; done].
Qed.

Lemma phaseA_inv colsets gs st :
  cluster_inv st -> NoDup (concat (map snd gs)) ->
  (forall k, k ∈ concat (map snd gs) -> assigned st !! k = None) ->
  cluster_inv (foldl (phaseA_step colsets) st gs)
  /\ forall k, is_Some (assigned (foldl (phaseA_step colsets) st gs) !! k) ->
               is_Some (assigned st !! k) \/ k ∈ concat (map snd gs).
Proof.
  revert st. induction gs as [|g gs IH]; intros st Hinv Hnd Hfresh; simpl.
  { split; [done | auto]. }
  simpl in Hnd. apply NoDup_app in Hnd as (Hg & Hdisj & Hrest).
  destruct (phaseA_step_inv colsets st g Hinv Hg) as [Hinv' Hdom].
  { intros k Hk. apply Hfresh. simpl. apply elem_of_app. by left. }
  destruct (IH (phaseA_step colsets st g) Hinv' Hrest) as [IH1 IH2].
  { intros k Hk. apply eq_None_not_Some. intros [His|Hin]%Hdom.
    - rewrite Hfresh in His; [by destruct His|]. simpl. apply elem_of_app. by right.
    - by apply (Hdisj k). }
  split; [done|]. intros k [His|Hin]%IH2.
  - apply Hdom in His as [?|?]; [by left | right; apply elem_of_app; by left].
  - right. apply elem_of_app. by right.
Qed.

(** Every sheet key is filed under exactly one sheet name. *)
Lemma group_append_perm (k x : pystr) (g : list (pystr * list pystr)) :
  concat (map snd (dict_append k x g)) ≡ₚ concat (map snd g) ++ [x].
Proof.
  unfold dict_append. induction g as [|[k0 v0] g IH]; simpl; [done|].
  destruct (decide (k = k0)) as [->|Hne]; simpl.
  - rewrite <- !app_assoc. f_equiv. apply Permutation_app_comm.
  - rewrite <- app_assoc. f_equiv. exact IH.
Qed.

Lemma sheet_name_groups_perm phase1 :
  concat (map snd (sheet_name_groups phase1)) ≡ₚ map rec_key phase1.
Proof.
  unfold sheet_name_groups.
  enough (H : forall g0,
    concat (map snd (foldl (fun g rec => dict_append (rec_sheet rec) (rec_key rec) g)
                           g0 phase1))
    ≡ₚ concat (map snd g0) ++ map rec_key phase1) by apply (H []).
  induction phase1 as [|r phase1 IH]; intros g0; simpl.
  - by rewrite app_nil_r.
  - rewrite IH, group_append_perm, <- app_assoc. done.
Qed.

Lemma sheet_colsets_keys merged phase1 k :
  k ∈ dict_keys (sheet_colsets merged phase1) <-> k ∈ map rec_key phase1.
Proof.
  unfold sheet_colsets.
  enough (H : forall d0,
    k ∈ dict_keys (foldl (fun d rec =>
        dict_set (rec_key rec)
          (to_set (map (canon merged)
             (filter (fun n => is_empty_str n = false) (rec_norm_cols rec)))) d) d0 phase1)
    <-> k ∈ dict_keys d0 \/ k ∈ map rec_key phase1).
  { rewrite H. simpl. rewrite elem_of_nil. tauto. }
  induction phase1 as [|r phase1 IH]; intros d0; simpl.
  - rewrite elem_of_nil. tauto.
  - rewrite IH, dict_keys_set_elem, elem_of_cons. tauto.
Qed.

Lemma sheet_colsets_v1_keys merged phase1 k :
  k ∈ dict_keys (sheet_colsets_v1 merged phase1) <-> k ∈ map rec_key phase1.
Proof.
  unfold sheet_colsets_v1.
  enough (H : forall d0,
    k ∈ dict_keys (foldl (fun d rec =>
        dict_set (rec_key rec) (to_set (map (canon merged) (rec_norm_cols rec))) d) d0 phase1)
    <-> k ∈ dict_keys d0 \/ k ∈ map rec_key phase1).
  { rewrite H. simpl. rewrite elem_of_nil. tauto. }
  induction phase1 as [|r phase1 IH]; intros d0; simpl.
  - rewrite elem_of_nil. tauto.
  - rewrite IH, dict_keys_set_elem, elem_of_cons. tauto.
Qed.

(** The residual loop. [jstate_inv st js] relates the local variables of
    one pass to the state the pass started from. *)
Lemma phaseB_step_j_inv colsets remaining c st js j :
  (NoDup (all_members st ++ j_members js)
   /\ (forall k, k ∈ all_members st ++ j_members js <-> is_Some (j_assigned js !! k))
   /\ (forall k, is_Some (j_assigned js !! k) ->
                 is_Some (assigned st !! k) \/ k ∈ remaining)) ->
  let js' := phaseB_step_j colsets remaining c js j in
  NoDup (all_members st ++ j_members js')
  /\ (forall k, k ∈ all_members st ++ j_members js' <-> is_Some (j_assigned js' !! k))
  /\ (forall k, is_Some (j_assigned js' !! k) ->
                is_Some (assigned st !! k) \/ k ∈ remaining).
Proof.
  intros (Hnd & Hmem & Hdom). unfold phaseB_step_j.
  destruct (remaining !! j) as [kj|] eqn:Hj; [|done].
  case_decide as Hin; [done|].
  destruct (Qle_bool _ _); [|done]. simpl. split_and!.
  - rewrite app_assoc. apply NoDup_app. split_and!; [done | | apply NoDup_singleton].
    intros k Hk ->%list_elem_of_singleton. by apply Hin, Hmem.
  - intros k. rewrite app_assoc, elem_of_app, Hmem, list_elem_of_singleton.
    destruct (decide (k = kj)) as [->|Hne].
    + rewrite lookup_insert_eq. split; [eauto | auto].
    + rewrite lookup_insert_ne by done. tauto.
  - intros k. destruct (decide (k = kj)) as [->|Hne].
    + intros _. right. apply list_elem_of_lookup. eauto.
    + rewrite lookup_insert_ne by done. apply Hdom.
Qed.

Lemma phaseB_step_i_inv colsets remaining st i :
  cluster_inv st ->
  let st' := phaseB_step_i colsets remaining st i in
  cluster_inv st'
  /\ (forall k, is_Some (assigned st !! k) -> is_Some (assigned st' !! k))
  /\ (forall k, remaining !! i = Some k -> is_Some (assigned st' !! k))
  /\ (forall k, is_Some (assigned st' !! k) ->
                is_Some (assigned st !! k) \/ k ∈ remaining).
Proof.
  intros [Hnd Hmem]. unfold phaseB_step_i.
  destruct (remaining !! i) as [k0|] eqn:Hi.
  2:{ split_and!; [done | auto | done | auto]. }
  case_decide as Hin.
  { split_and!; [done | auto | by intros k [= <-] | auto]. }
  set (c := S (cid st)).
  set (js0 := {| j_members := [k0]; j_ccols := to_set (colset_of colsets k0);
                 j_assigned := <[k0 := c]> (assigned st) |}).
  pose proof (foldl_range_inv
    (fun _ js =>
       (NoDup (all_members st ++ j_members js)
        /\ (forall k, k ∈ all_members st ++ j_members js <-> is_Some (j_assigned js !! k))
        /\ (forall k, is_Some (j_assigned js !! k) ->
                      is_Some (assigned st !! k) \/ k ∈ remaining))
       /\ (forall k, is_Some (assigned st !! k) -> is_Some (j_assigned js !! k))
       /\ is_Some (j_assigned js !! k0))
    (phaseB_step_j colsets remaining c) (S i) (length remaining - S i) js0) as H.
  destruct H as ((Hnd' & Hmem' & Hdom') & Hmono & Hk0).
  - simpl. split_and!.
    + apply NoDup_app. split_and!; [done | | apply NoDup_singleton].
      intros k Hk ->%list_elem_of_singleton. by apply Hin, Hmem.
    + intros k. rewrite elem_of_app, Hmem, list_elem_of_singleton.
      destruct (decide (k = k0)) as [->|Hne].
      * rewrite lookup_insert_eq. split; [eauto | auto].
      * rewrite lookup_insert_ne by done. tauto.
    + intros k. destruct (decide (k = k0)) as [->|Hne].
      * intros _. right. apply list_elem_of_lookup. eauto.
      * rewrite lookup_insert_ne by done. auto.
    + intros k Hk. destruct (decide (k = k0)) as [->|Hne]; [done|].
      by rewrite lookup_insert_ne.
    + by rewrite lookup_insert_eq.
  - intros j js Hj (Hjs & Hmono & Hk0).
    split; [by apply phaseB_step_j_inv | split].
    + intros k Hk%Hmono. unfold phaseB_step_j.
      destruct (remaining !! j) as [kj|]; [|done].
      case_decide; [done|]. destruct (Qle_bool _ _); [|done]. simpl.
      destruct (decide (k = kj)) as [->|Hne]; [by rewrite lookup_insert_eq|].
      by rewrite lookup_insert_ne.
    + unfold phaseB_step_j.
      destruct (remaining !! j) as [kj|]; [|done].
      case_decide; [done|]. destruct (Qle_bool _ _); [|done]. simpl.
      destruct (decide (k0 = kj)) as [->|Hne]; [by rewrite lookup_insert_eq|].
      by rewrite lookup_insert_ne.
  - split_and!.
    + split; simpl.
      * by rewrite all_members_snoc.
      * intros k. rewrite all_members_snoc. apply Hmem'.
    + done.
    + by intros k [= <-].
    + done.
Qed.

Lemma phaseB_inv colsets remaining st :
  cluster_inv st ->
  cluster_inv (phaseB colsets remaining st)
  /\ (forall k, is_Some (assigned st !! k) \/ k ∈ remaining <->
                is_Some (assigned (phaseB colsets remaining st) !! k)).
Proof.
  intros Hinv. unfold phaseB.
  pose proof (foldl_range_inv
    (fun i s =>
       cluster_inv s
       /\ (forall k, is_Some (assigned st !! k) -> is_Some (assigned s !! k))
       /\ (forall i' k, (i' < i)%nat -> remaining !! i' = Some k -> is_Some (assigned s !! k))
       /\ (forall k, is_Some (assigned s !! k) ->
                     is_Some (assigned st !! k) \/ k ∈ remaining))
    (phaseB_step_i colsets remaining) 0 (length remaining) st) as H.
  destruct H as (Hinv' & Hmono & Hcov & Hdom).
  - split_and!; [done | auto | intros; lia | auto].
  - intros i s Hi (Hs & Hmono & Hcov & Hdom).
    destruct (phaseB_step_i_inv colsets remaining s i Hs) as (H1 & H2 & H3 & H4).
    split_and!; [done | auto | | ].
    + intros i' k Hi' Hk. destruct (decide (i' = i)) as [->|Hne]; [by apply H3|].
      apply H2, (Hcov i'); [lia | done].
    + intros k [Hk|Hk]%H4; [by apply Hdom | by right].
  - split; [done|]. intros k. split; [|apply Hdom].
    intros [Hk|Hk]; [by apply Hmono|].
    apply list_elem_of_lookup in Hk as [i Hi].
    apply (Hcov i); [|done]. simpl. by eapply lookup_lt_Some.
Qed.

Lemma cstate0_inv : cluster_inv cstate0.
Proof.
  split; simpl.
  - apply NoDup_nil_2.
  - intros k. unfold all_members. simpl. rewrite elem_of_nil, lookup_empty.
    split; [done | by intros []].
Qed.

Lemma cluster_sheets_partition merged phase1 :
  NoDup (map rec_key phase1) ->
  strict_partition (map rec_key phase1) (cluster_sheets merged phase1).
Proof.
  intros Hnd. unfold cluster_sheets.
  set (colsets := sheet_colsets merged phase1).
  assert (HndG : NoDup (concat (map snd (sheet_name_groups phase1)))).
  { by rewrite sheet_name_groups_perm. }
  destruct (phaseA_inv colsets (sheet_name_groups phase1) cstate0 cstate0_inv HndG)
    as [HinvA HdomA].
  { intros k _. apply lookup_empty. }
  set (stA := foldl (phaseA_step colsets) cstate0 (sheet_name_groups phase1)) in *.
  set (remaining := filter _ _).
  destruct (phaseB_inv colsets remaining stA HinvA) as [HinvB HdomB].
  apply cluster_inv_partition; [done|].
  intros k. rewrite <- HdomB. unfold remaining.
  rewrite list_elem_of_filter. unfold colsets. rewrite sheet_colsets_keys. split.
  - intros [Hk | [_ Hk]]; [|done].
    apply HdomA in Hk as [Hk|Hk].
    { simpl in Hk. rewrite lookup_empty in Hk. by destruct Hk. }
    by rewrite sheet_name_groups_perm in Hk.
  - intros Hk. destruct (decide (is_Some (assigned stA !! k))); [by left | by right].
Qed.

Lemma cluster_sheets_v1_partition merged phase1 :
  strict_partition (map rec_key phase1) (cluster_sheets_v1 merged phase1).
Proof.
  unfold cluster_sheets_v1.
  destruct (phaseB_inv (sheet_colsets_v1 merged phase1)
              (dict_keys (sheet_colsets_v1 merged phase1)) cstate0 cstate0_inv)
    as [HinvB HdomB].
  apply cluster_inv_partition; [done|].
  intros k. rewrite <- HdomB, sheet_colsets_v1_keys. simpl. rewrite lookup_empty.
  split; [intros [[]|] | by right]; done.
Qed.

(** C1. Sheet clustering is a strict partition of the profiled sheets:
    after the name-affinity pass and the residual Jaccard pass every
    profiled sheet is a member of exactly one cluster, and no cluster lists a
    sheet twice or lists anything but a profiled sheet. Sheets are identified
    by their key "file|sheet", as in the code; the profiled sheets have
    pairwise distinct keys. The same holds for the single-pass clustering
    of the earlier analyzers. *)
Theorem clustering_strict_partition (merged : gmap pystr pystr) (phase1 : list sheet_rec) :
  NoDup (map rec_key phase1) ->
  strict_partition (map rec_key phase1) (cluster_sheets merged phase1)
  /\ strict_partition (map rec_key phase1) (cluster_sheets_v1 merged phase1).
Proof.
  intros Hnd. split.
  - by apply cluster_sheets_partition.
  - apply cluster_sheets_v1_partition.
Qed.

(** ** Ratios and rounding *)

Lemma Zpos_of_nat (b : nat) : (0 < b)%nat -> Z.pos (Pos.of_nat b) = Z.of_nat b.
Proof. intros Hb. rewrite <- positive_nat_Z, Nat2Pos.id by lia. done. Qed.

Lemma frac_bounds (a b : nat) : (a <= b)%nat -> (0 <= frac a b <= 1)%Q.
Proof.
  intros Hab. unfold frac, Qle. simpl.
  destruct (decide (b = 0%nat)) as [->|Hb].
  - assert (a = 0%nat) as -> by lia. simpl. lia.
  - rewrite Zpos_of_nat by lia. lia.
Qed.









(** ** Header detector *)





Lemma dict_get_elem {K V} `{EqDecision K} (d : list (K * V)) k v :
  dict_get k d = Some v -> (k, v) ∈ d.
Proof.
  induction d as [|[k0 v0] d IH]; simpl; [done|].
  destruct (decide (k = k0)) as [->|Hne]; [intros [= ->]; left | right; auto].
Qed.

Lemma dict_elem_get {K V} `{EqDecision K} (d : list (K * V)) k v :
  NoDup (dict_keys d) -> (k, v) ∈ d -> dict_get k d = Some v.
Proof.
  unfold dict_keys. induction d as [|[k0 v0] d IH]; simpl; intros Hnd Hin.
  - by apply elem_of_nil in Hin.
  - apply NoDup_cons in Hnd as [Hk0 Hnd].
    apply elem_of_cons in Hin as [[= -> ->]|Hin].
    + by rewrite decide_True.
    + rewrite decide_False; [auto|].
      intros ->. apply Hk0. apply list_elem_of_fmap. by exists (k0, v).
Qed.

(** ** Grouping into a dictionary of lists *)

Section GroupBy.
Context {A K V : Type} `{EqDecision K}.
Variable key : A -> K.
Variable val : A -> V.
Variable keep : A -> bool.

Local Abbreviation step := (group_step key val keep).
Local Abbreviation hits := (group_hits key val keep).

Lemma dict_get_append k x (d : list (K * list V)) k' :
  dict_get k' (dict_append k x d)
  = if decide (k' = k) then Some (default [] (dict_get k d) ++ [x]) else dict_get k' d.
Proof. unfold dict_append. apply dict_get_set. Qed.

Lemma group_fold_get l d0 k :
  dict_get k (foldl step d0 l)
  = match hits k l with
    | [] => dict_get k d0
    | vs => Some (default [] (dict_get k d0) ++ vs)
    end.
Proof.
  revert d0. induction l as [|a l IH]; intros d0; [done|].
  cbn [foldl]. rewrite IH. unfold hits, step. rewrite filter_cons.
  destruct (keep a) eqn:Hk.
  - rewrite dict_get_append. destruct (decide (k = key a)) as [->|Hne].
    + rewrite decide_True by done. rewrite fmap_cons. simpl.
      destruct (val <$> filter _ l); [done|].
      by rewrite <- app_assoc.
    + rewrite decide_False by (intros [_ ?]; congruence). done.
  - rewrite decide_False by (intros [? _]; congruence). done.
Qed.

Lemma group_fold_keys_NoDup l d0 :
  NoDup (dict_keys d0) -> NoDup (dict_keys (foldl step d0 l)).
Proof.
  intros H. apply (foldl_preserves (fun d => NoDup (dict_keys d))); [done|].
  intros d a _ Hd. unfold step. destruct (keep a); [|done].
  by apply dict_keys_set_NoDup.
Qed.

Lemma group_fold_item l k vs :
  (k, vs) ∈ foldl step [] l ->
  vs = hits k l /\ exists a, a ∈ l /\ keep a = true /\ key a = k.
Proof.
  intros Hin. apply dict_elem_get in Hin.
  2:{ apply group_fold_keys_NoDup, NoDup_nil_2. }
  rewrite group_fold_get in Hin. simpl in Hin.
  destruct (hits k l) as [|v0 vs0] eqn:E; [done|].
  injection Hin as <-. split; [done|].
  assert (Hv : v0 ∈ hits k l) by (rewrite E; left).
  unfold hits in Hv. apply list_elem_of_fmap in Hv as (a & _ & Ha).
  apply list_elem_of_filter in Ha as [[? ?] ?]. eauto.
Qed.

End GroupBy.

(** ** Relationship detection *)

Lemma foldl_pointwise {A B} (f g : A -> B -> A) (l : list B) (a : A) :
  (forall a x, f a x = g a x) -> foldl f a l = foldl g a l.
Proof.
  intros H. revert a. induction l as [|x l IH]; intros a; simpl; [done|].
  by rewrite H, IH.
Qed.

Lemma col_sheet_map_get ps nc :
  nc <> [] ->
  dict_get nc (col_sheet_map ps)
  = match locations nc ps with [] => None | ls => Some ls end.
Proof.
  intros Hnc. unfold col_sheet_map.
  rewrite (foldl_pointwise _
    (group_step p_norm_col loc_of (fun a => negb (is_empty_str (p_norm_col a))))).
  2:{ intros m q. unfold group_step. by destruct (is_empty_str _). }
  rewrite (group_fold_get p_norm_col loc_of). unfold group_hits, locations.
  assert (Hf : filter (fun a => negb (is_empty_str (p_norm_col a)) = true /\ p_norm_col a = nc) ps
               = filter (fun p => p_norm_col p = nc) ps).
  { apply list_filter_iff. intros q. split; [by intros [_ ?]|].
    intros ->. split; [|done]. by destruct nc. }
  rewrite Hf. by destruct (loc_of <$> _).
Qed.

Lemma col_sheet_map_NoDup ps : NoDup (dict_keys (col_sheet_map ps)).
Proof.
  unfold col_sheet_map.
  rewrite (foldl_pointwise _
    (group_step p_norm_col loc_of (fun a => negb (is_empty_str (p_norm_col a))))).
  2:{ intros m q. unfold group_step. by destruct (is_empty_str _). }
  apply (group_fold_keys_NoDup p_norm_col loc_of). apply NoDup_nil_2.
Qed.

Lemma clean_col_sheet_map_get rows nc :
  dict_get nc (clean_col_sheet_map rows)
  = match locations nc rows with [] => None | ls => Some ls end.
Proof.
  unfold clean_col_sheet_map.
  etrans; [apply (group_fold_get p_norm_col loc_of (fun _ => true))|].
  unfold group_hits, locations.
  assert (Hf : filter (fun a => true = true /\ p_norm_col a = nc) rows
               = filter (fun p => p_norm_col p = nc) rows).
  { apply list_filter_iff. intros q. tauto. }
  rewrite Hf. by destruct (loc_of <$> _).
Qed.

Lemma clean_col_sheet_map_NoDup rows : NoDup (dict_keys (clean_col_sheet_map rows)).
Proof.
  unfold clean_col_sheet_map.
  apply (group_fold_keys_NoDup p_norm_col loc_of (fun _ => true)). apply NoDup_nil_2.
Qed.

Lemma is_high_spec l : is_high l = true <-> (70 < l_uniq l)%Q.
Proof.
  unfold is_high. rewrite negb_true_iff.
  destruct (Qle_bool (l_uniq l) 70) eqn:E.
  - apply Qle_bool_iff in E. split; [done | intros H; lra].
  - split; [intros _ | done].
    apply Qnot_le_lt. intros H. apply Qle_bool_iff in H. congruence.
Qed.

Lemma is_low_spec l : is_low l = true <-> (l_uniq l <= 70)%Q.
Proof. apply Qle_bool_iff. Qed.

Lemma all_pairs_elem nc high low e :
  e ∈ all_pairs nc high low
  <-> exists h l, h ∈ high /\ l ∈ low /\ e = {| fk_column := nc; fk_pk := h; fk_fk := l |}.
Proof.
  unfold all_pairs. rewrite list_elem_of_bind. split.
  - intros (h & He & Hh). apply list_elem_of_fmap in He as (l & -> & Hl). eauto.
  - intros (h & l & Hh & Hl & ->). exists h. split; [|done].
    apply list_elem_of_fmap. eauto.
Qed.

Lemma relate_step_eq rel it :
  pk_candidates (relate_step rel it) = pk_candidates rel ++ pk_of few_locs it
  /\ fk_pairs (relate_step rel it) = fk_pairs rel ++ fk_of few_locs no_cut it.
Proof.
  unfold relate_step, pk_of, fk_of, few_locs, no_cut.
  destruct (length it.2 <? 2)%nat; simpl; [by rewrite !app_nil_r|].
  destruct (filter (fun l => is_high l = true) it.2) as [|h high];
    simpl; [by rewrite !app_nil_r|].
  split; [done|].
  destruct (filter (fun l => is_low l = true) it.2); simpl; [by rewrite app_nil_r | done].
Qed.

Lemma clean_relate_step_eq rel it :
  pk_candidates (clean_relate_step rel it) = pk_candidates rel ++ pk_of few_files it
  /\ fk_pairs (clean_relate_step rel it) = fk_pairs rel ++ fk_of few_files (take 3) it.
Proof.
  unfold clean_relate_step, pk_of, fk_of, few_files.
  destruct (length (to_set (map l_file it.2)) <? 2)%nat; simpl; [by rewrite !app_nil_r|].
  destruct (filter (fun l => is_high l = true) it.2) as [|h high];
    simpl; [by rewrite !app_nil_r|].
  split; [done|].
  destruct (filter (fun l => is_low l = true) it.2); simpl; [by rewrite app_nil_r | done].
Qed.

Lemma relate_fold items rel :
  pk_candidates (foldl relate_step rel items)
    = pk_candidates rel ++ concat (pk_of few_locs <$> items)
  /\ fk_pairs (foldl relate_step rel items)
    = fk_pairs rel ++ concat (fk_of few_locs no_cut <$> items).
Proof.
  revert rel. induction items as [|it items IH]; intros rel.
  { simpl. by rewrite !app_nil_r. }
  cbn [foldl]. destruct (IH (relate_step rel it)) as [-> ->].
  destruct (relate_step_eq rel it) as [-> ->].
  rewrite !fmap_cons. cbn [concat]. by rewrite <- !app_assoc.
Qed.

Lemma clean_relate_fold items rel :
  pk_candidates (foldl clean_relate_step rel items)
    = pk_candidates rel ++ concat (pk_of few_files <$> items)
  /\ fk_pairs (foldl clean_relate_step rel items)
    = fk_pairs rel ++ concat (fk_of few_files (take 3) <$> items).
Proof.
  revert rel. induction items as [|it items IH]; intros rel.
  { simpl. by rewrite !app_nil_r. }
  cbn [foldl]. destruct (IH (clean_relate_step rel it)) as [-> ->].
  destruct (clean_relate_step_eq rel it) as [-> ->].
  rewrite !fmap_cons. cbn [concat]. by rewrite <- !app_assoc.
Qed.

Lemma relate_eq ps :
  pk_candidates (relate ps) = concat (pk_of few_locs <$> col_sheet_map ps)
  /\ fk_pairs (relate ps) = concat (fk_of few_locs no_cut <$> col_sheet_map ps).
Proof. unfold relate. by destruct (relate_fold (col_sheet_map ps) (Build_relations [] [])). Qed.

Lemma clean_relate_eq rows :
  pk_candidates (clean_relate rows)
    = concat (pk_of few_files <$> clean_col_sheet_map (named_dd rows))
  /\ fk_pairs (clean_relate rows)
    = concat (fk_of few_files (take 3) <$> clean_col_sheet_map (named_dd rows)).
Proof.
  unfold clean_relate.
  by destruct (clean_relate_fold (clean_col_sheet_map (named_dd rows)) (Build_relations [] [])).
Qed.

Lemma pk_of_elem skip it nc high :
  (nc, high) ∈ pk_of skip it ->
  nc = it.1 /\ high = filter (fun l => is_high l = true) it.2
  /\ high <> [] /\ skip it.2 = false.
Proof.
  unfold pk_of. destruct (skip it.2) eqn:E; [by intros ?%elem_of_nil|].
  destruct (filter _ it.2) as [|h hs] eqn:F; [by intros ?%elem_of_nil|].
  intros [= -> ->]%list_elem_of_singleton. done.
Qed.

Lemma pk_of_intro skip nc locs l :
  skip locs = false -> l ∈ locs -> is_high l = true ->
  exists high, (nc, high) ∈ pk_of skip (nc, locs) /\ l ∈ high.
Proof.
  intros Hs Hl Hh. exists (filter (fun l => is_high l = true) locs).
  assert (Hin : l ∈ filter (fun l => is_high l = true) locs) by by apply list_elem_of_filter.
  split; [|done]. unfold pk_of. simpl. rewrite Hs.
  destruct (filter _ locs); [by apply elem_of_nil in Hin | left].
Qed.

Lemma fk_of_elem skip cut it e :
  e ∈ fk_of skip cut it ->
  skip it.2 = false
  /\ exists h l, h ∈ cut (filter (fun l => is_high l = true) it.2)
                 /\ l ∈ cut (filter (fun l => is_low l = true) it.2)
                 /\ e = {| fk_column := it.1; fk_pk := h; fk_fk := l |}.
Proof.
  unfold fk_of. destruct (skip it.2); [by intros ?%elem_of_nil|].
  cbv zeta. destruct (is_nil _ || is_nil _); [by intros ?%elem_of_nil|].
  intros He. split; [done|]. by apply all_pairs_elem.
Qed.

Lemma fk_of_intro skip cut nc locs h l :
  cut [] = [] -> skip locs = false ->
  h ∈ cut (filter (fun l => is_high l = true) locs) ->
  l ∈ cut (filter (fun l => is_low l = true) locs) ->
  {| fk_column := nc; fk_pk := h; fk_fk := l |} ∈ fk_of skip cut (nc, locs).
Proof.
  intros Hc Hs Hh Hl. unfold fk_of. simpl. rewrite Hs.
  destruct (filter (fun l => is_high l = true) locs) as [|h0 high] eqn:Eh.
  { rewrite Hc in Hh. by apply elem_of_nil in Hh. }
  destruct (filter (fun l => is_low l = true) locs) as [|l0 low] eqn:El.
  { rewrite Hc in Hl. by apply elem_of_nil in Hl. }
  simpl. apply all_pairs_elem. eauto.
Qed.

Lemma locations_elem nc ps p : p ∈ ps -> p_norm_col p = nc -> loc_of p ∈ locations nc ps.
Proof.
  intros Hp Hnc. apply list_elem_of_fmap. exists p. split; [done|].
  by apply list_elem_of_filter.
Qed.

Lemma col_sheet_map_item ps nc :
  nc <> [] -> locations nc ps <> [] -> (nc, locations nc ps) ∈ col_sheet_map ps.
Proof.
  intros Hnc Hl. apply dict_get_elem. rewrite col_sheet_map_get by done.
  by destruct (locations nc ps).
Qed.

Lemma col_sheet_map_item_inv ps nc locs :
  (nc, locs) ∈ col_sheet_map ps -> nc <> [] /\ locs = locations nc ps /\ locs <> [].
Proof.
  intros Hin.
  assert (Hnc : nc <> []).
  { unfold col_sheet_map in Hin.
    rewrite (foldl_pointwise _
      (group_step p_norm_col loc_of (fun a => negb (is_empty_str (p_norm_col a))))) in Hin.
    2:{ intros m q. unfold group_step. by destruct (is_empty_str _). }
    apply (group_fold_item p_norm_col loc_of) in Hin as (_ & a & _ & Hk & <-).
    by destruct (p_norm_col a). }
  split; [done|].
  apply dict_elem_get in Hin; [|apply col_sheet_map_NoDup].
  rewrite col_sheet_map_get in Hin by done.
  destruct (locations nc ps) eqn:E; [done|]. by injection Hin as <-.
Qed.

Lemma clean_col_sheet_map_item rows nc :
  locations nc rows <> [] -> (nc, locations nc rows) ∈ clean_col_sheet_map rows.
Proof.
  intros Hl. apply dict_get_elem. rewrite clean_col_sheet_map_get.
  by destruct (locations nc rows).
Qed.

Lemma clean_col_sheet_map_item_inv rows nc locs :
  (nc, locs) ∈ clean_col_sheet_map rows -> locs = locations nc rows /\ locs <> [].
Proof.
  intros Hin.
  apply dict_elem_get in Hin; [|apply clean_col_sheet_map_NoDup].
  rewrite clean_col_sheet_map_get in Hin.
  destruct (locations nc rows) eqn:E; [done|]. by injection Hin as <-.
Qed.

Lemma take3_nil : take 3 (@nil loc) = [].
Proof. reflexivity. Qed.

Lemma few_locs_false locs : few_locs locs = false <-> (2 <= length locs)%nat.
Proof. unfold few_locs. apply Nat.ltb_ge. Qed.

Lemma few_files_false locs :
  few_files locs = false <-> (2 <= length (to_set (map l_file locs)))%nat.
Proof. unfold few_files. apply Nat.ltb_ge. Qed.

(** *** Primary-key candidates *)

Lemma relate_pk_sound ps nc l :
  pk_emitted (relate ps) nc l -> (70 < l_uniq l)%Q.
Proof.
  intros (high & Hin & Hl). destruct (relate_eq ps) as [Hpk _]. rewrite Hpk in Hin.
  apply elem_of_concat in Hin as (cs & Hin & Hcs).
  apply list_elem_of_fmap in Hcs as (it & -> & _).
  apply pk_of_elem in Hin as (_ & -> & _).
  apply list_elem_of_filter in Hl as [Hl _]. by apply is_high_spec.
Qed.

Lemma clean_relate_pk_sound rows nc l :
  pk_emitted (clean_relate rows) nc l -> (70 < l_uniq l)%Q.
Proof.
  intros (high & Hin & Hl). destruct (clean_relate_eq rows) as [Hpk _]. rewrite Hpk in Hin.
  apply elem_of_concat in Hin as (cs & Hin & Hcs).
  apply list_elem_of_fmap in Hcs as (it & -> & _).
  apply pk_of_elem in Hin as (_ & -> & _).
  apply list_elem_of_filter in Hl as [Hl _]. by apply is_high_spec.
Qed.

Lemma relate_pk_complete ps p :
  p ∈ ps -> p_norm_col p <> [] ->
  (2 <= length (locations (p_norm_col p) ps))%nat ->
  (70 < p_uniqueness_pct p)%Q ->
  pk_emitted (relate ps) (p_norm_col p) (loc_of p).
Proof.
  intros Hp Hnc Hlen Hu.
  pose proof (locations_elem _ ps p Hp eq_refl) as Hloc.
  destruct (pk_of_intro few_locs (p_norm_col p) (locations (p_norm_col p) ps) (loc_of p))
    as (high & Hhigh & Hin); [by apply few_locs_false | done | by apply is_high_spec |].
  exists high. split; [|done].
  destruct (relate_eq ps) as [-> _]. apply elem_of_concat.
  exists (pk_of few_locs (p_norm_col p, locations (p_norm_col p) ps)). split; [done|].
  apply list_elem_of_fmap. eexists. split; [done|].
  apply col_sheet_map_item; [done|]. intros E. rewrite E in Hloc. by apply elem_of_nil in Hloc.
Qed.

Lemma clean_relate_pk_complete rows p :
  p ∈ named_dd rows ->
  (2 <= length (to_set (map l_file (locations (p_norm_col p) (named_dd rows)))))%nat ->
  (70 < p_uniqueness_pct p)%Q ->
  pk_emitted (clean_relate rows) (p_norm_col p) (loc_of p).
Proof.
  intros Hp Hlen Hu.
  pose proof (locations_elem _ (named_dd rows) p Hp eq_refl) as Hloc.
  destruct (pk_of_intro few_files (p_norm_col p)
              (locations (p_norm_col p) (named_dd rows)) (loc_of p))
    as (high & Hhigh & Hin); [by apply few_files_false | done | by apply is_high_spec |].
  exists high. split; [|done].
  destruct (clean_relate_eq rows) as [-> _]. apply elem_of_concat.
  exists (pk_of few_files (p_norm_col p, locations (p_norm_col p) (named_dd rows))).
  split; [done|].
  apply list_elem_of_fmap. eexists. split; [done|].
  apply clean_col_sheet_map_item. intros E. rewrite E in Hloc. by apply elem_of_nil in Hloc.
Qed.

(** C5, as the code has it. In both scripts a location is emitted as a
    primary-key candidate only if its uniqueness is strictly above 70 (per
    cent), so a location at exactly 70 is never emitted. The analyzer emits
    every location above 70 of a non-empty normalized column name that has
    at least two locations; the report post-processor emits every location
    above 70 of a named column that occurs in at least two distinct
    files. *)
Theorem pk_candidates_strictly_above_70 (ps : list profile) :
  (forall nc l, pk_emitted (relate ps) nc l -> (70 < l_uniq l)%Q)
  /\ (forall p, p ∈ ps -> p_norm_col p <> [] ->
        (2 <= length (locations (p_norm_col p) ps))%nat ->
        (70 < p_uniqueness_pct p)%Q ->
        pk_emitted (relate ps) (p_norm_col p) (loc_of p))
  /\ (forall nc l, pk_emitted (clean_relate ps) nc l -> (70 < l_uniq l)%Q)
  /\ (forall p, p ∈ named_dd ps ->
        (2 <= length (to_set (map l_file (locations (p_norm_col p) (named_dd ps)))))%nat ->
        (70 < p_uniqueness_pct p)%Q ->
        pk_emitted (clean_relate ps) (p_norm_col p) (loc_of p)).
Proof.
  split_and!.
  - apply relate_pk_sound.
  - apply relate_pk_complete.
  - apply clean_relate_pk_sound.
  - apply clean_relate_pk_complete.
Qed.

(** A location at exactly 70 is left out by both scripts. *)
Corollary pk_boundary_excluded (ps : list profile) (nc : pystr) (l : loc) :
  (l_uniq l == 70)%Q ->
  ~ pk_emitted (relate ps) nc l /\ ~ pk_emitted (clean_relate ps) nc l.
Proof.
  intros Hu. split; intros H.
  - apply relate_pk_sound in H. lra.
  - apply clean_relate_pk_sound in H. lra.
Qed.

(** C5 fails on the report post-processor: a column with two locations in
    one workbook, one of them fully unique, yields no candidate. *)
Lemma pk_same_file_not_emitted :
  let p := Samples.mk_profile "a.xlsx" "S1" "sku" 100 in
  p ∈ Samples.same_file_rows
  /\ length (locations (p_norm_col p) Samples.same_file_rows) = 2%nat
  /\ (70 < p_uniqueness_pct p)%Q
  /\ pk_candidates (clean_relate Samples.same_file_rows) = []
  /\ ~ pk_emitted (clean_relate Samples.same_file_rows) (p_norm_col p) (loc_of p).
Proof.
  assert (H : pk_candidates (clean_relate Samples.same_file_rows) = [])
    by (vm_compute; reflexivity).
  split_and!.
  - left.
  - vm_compute. reflexivity.
  - reflexivity.
  - exact H.
  - intros (high & Hin & _). rewrite H in Hin. by apply elem_of_nil in Hin.
Qed.

(** *** Foreign-key candidates *)

Lemma two_elems_length {A} (l : list A) (x y : A) :
  x ∈ l -> y ∈ l -> x <> y -> (2 <= length l)%nat.
Proof.
  intros Hx Hy Hne. destruct l as [|a [|b l]]; simpl; [|..|lia].
  - by apply elem_of_nil in Hx.
  - apply list_elem_of_singleton in Hx, Hy. congruence.
Qed.

Lemma high_low_distinct h l : is_high h = true -> is_low l = true -> h <> l.
Proof. intros Hh%is_high_spec Hl%is_low_spec ->. lra. Qed.

Lemma relate_fk_complete ps nc h l :
  nc <> [] -> h ∈ locations nc ps -> l ∈ locations nc ps ->
  (70 < l_uniq h)%Q -> (l_uniq l <= 70)%Q ->
  {| fk_column := nc; fk_pk := h; fk_fk := l |} ∈ fk_pairs (relate ps).
Proof.
  intros Hnc Hh Hl Hhu%is_high_spec Hlu%is_low_spec.
  destruct (relate_eq ps) as [_ ->]. apply elem_of_concat.
  exists (fk_of few_locs no_cut (nc, locations nc ps)). split.
  - apply fk_of_intro; [done | | by apply list_elem_of_filter..].
    apply few_locs_false. eapply two_elems_length; [exact Hh | exact Hl |].
    by apply high_low_distinct.
  - apply list_elem_of_fmap. eexists. split; [done|].
    apply col_sheet_map_item; [done|]. intros E. rewrite E in Hh. by apply elem_of_nil in Hh.
Qed.

Lemma relate_fk_sound ps e :
  e ∈ fk_pairs (relate ps) ->
  fk_pk e ∈ locations (fk_column e) ps /\ (70 < l_uniq (fk_pk e))%Q
  /\ fk_fk e ∈ locations (fk_column e) ps /\ (l_uniq (fk_fk e) <= 70)%Q.
Proof.
  destruct (relate_eq ps) as [_ ->]. intros He.
  apply elem_of_concat in He as (es & He & Hes).
  apply list_elem_of_fmap in Hes as ([nc locs] & -> & Hit).
  apply col_sheet_map_item_inv in Hit as (_ & -> & _).
  apply fk_of_elem in He as (_ & h & l & Hh & Hl & ->). simpl in *.
  unfold no_cut in *.
  apply list_elem_of_filter in Hh as [Hh1 Hh2], Hl as [Hl1 Hl2].
  split_and!; [done | by apply is_high_spec | done | by apply is_low_spec].
Qed.

Lemma clean_relate_fk_sound rows e :
  e ∈ fk_pairs (clean_relate rows) ->
  let locs := locations (fk_column e) (named_dd rows) in
  fk_pk e ∈ take 3 (filter (fun l => is_high l = true) locs)
  /\ fk_fk e ∈ take 3 (filter (fun l => is_low l = true) locs)
  /\ (2 <= length (to_set (map l_file locs)))%nat.
Proof.
  destruct (clean_relate_eq rows) as [_ ->]. intros He.
  apply elem_of_concat in He as (es & He & Hes).
  apply list_elem_of_fmap in Hes as ([nc locs] & -> & Hit).
  apply clean_col_sheet_map_item_inv in Hit as (-> & _).
  apply fk_of_elem in He as (Hs & h & l & Hh & Hl & ->). simpl in *.
  split_and!; [done | done | by apply few_files_false].
Qed.

Lemma clean_relate_fk_complete rows nc h l :
  let locs := locations nc (named_dd rows) in
  (2 <= length (to_set (map l_file locs)))%nat ->
  h ∈ take 3 (filter (fun l => is_high l = true) locs) ->
  l ∈ take 3 (filter (fun l => is_low l = true) locs) ->
  {| fk_column := nc; fk_pk := h; fk_fk := l |} ∈ fk_pairs (clean_relate rows).
Proof.
  intros locs Hfiles Hh Hl.
  destruct (clean_relate_eq rows) as [_ ->]. apply elem_of_concat.
  exists (fk_of few_files (take 3) (nc, locs)). split.
  - apply fk_of_intro; [done | by apply few_files_false | done | done].
  - apply list_elem_of_fmap. eexists. split; [done|].
    apply clean_col_sheet_map_item. fold locs. intros E. rewrite E in Hh.
    by apply elem_of_nil in Hh.
Qed.

(** C6, as the code has it. The analyzer emits an edge for every pair of a
    location above 70 and a location at or below 70 of a non-empty
    normalized column name, all pairs, and emits nothing else. The report
    post-processor forms its edges from the first three locations above 70
    and the first three at or below 70 only, and only for a column present
    in at least two distinct files. *)
Theorem fk_pairs_all_high_low (ps : list profile) :
  (forall nc h l, nc <> [] -> h ∈ locations nc ps -> l ∈ locations nc ps ->
     (70 < l_uniq h)%Q -> (l_uniq l <= 70)%Q ->
     {| fk_column := nc; fk_pk := h; fk_fk := l |} ∈ fk_pairs (relate ps))
  /\ (forall e, e ∈ fk_pairs (relate ps) ->
        fk_pk e ∈ locations (fk_column e) ps /\ (70 < l_uniq (fk_pk e))%Q
        /\ fk_fk e ∈ locations (fk_column e) ps /\ (l_uniq (fk_fk e) <= 70)%Q)
  /\ (forall e, e ∈ fk_pairs (clean_relate ps) <->
        let locs := locations (fk_column e) (named_dd ps) in
        fk_pk e ∈ take 3 (filter (fun l => is_high l = true) locs)
        /\ fk_fk e ∈ take 3 (filter (fun l => is_low l = true) locs)
        /\ (2 <= length (to_set (map l_file locs)))%nat).
Proof.
  split_and!.
  - apply relate_fk_complete.
  - apply relate_fk_sound.
  - intros e. split; [apply clean_relate_fk_sound|].
    intros (Hh & Hl & Hf). destruct e as [nc h l]. by apply clean_relate_fk_complete.
Qed.

(** C6 fails on the report post-processor: of four locations above 70 and
    one below, the fourth pair is not emitted, while the analyzer emits all
    four. *)
Lemma fk_fourth_pair_truncated :
  let h4 := Samples.mk_loc "d.xlsx" "S" 85 in
  let l1 := Samples.mk_loc "e.xlsx" "S" 40 in
  let e4 := {| fk_column := Samples.sku; fk_pk := h4; fk_fk := l1 |} in
  h4 ∈ locations Samples.sku Samples.four_high_rows
  /\ l1 ∈ locations Samples.sku Samples.four_high_rows
  /\ (70 < l_uniq h4)%Q /\ (l_uniq l1 <= 70)%Q
  /\ e4 ∈ fk_pairs (relate Samples.four_high_rows)
  /\ length (fk_pairs (relate Samples.four_high_rows)) = 4%nat
  /\ length (fk_pairs (clean_relate Samples.four_high_rows)) = 3%nat
  /\ e4 ∉ fk_pairs (clean_relate Samples.four_high_rows).
Proof.
  cbv zeta.
  assert (Hh : Samples.mk_loc "d.xlsx" "S" 85 ∈ locations Samples.sku Samples.four_high_rows).
  { do 3 right. left. }
  assert (Hl : Samples.mk_loc "e.xlsx" "S" 40 ∈ locations Samples.sku Samples.four_high_rows).
  { do 4 right. left. }
  split_and!; [done | done | reflexivity | | | reflexivity | reflexivity |].
  - unfold Qle. simpl. lia.
  - apply relate_fk_complete; [done | done | done | reflexivity |].
    unfold Qle. simpl. lia.
  - intros Hin. apply clean_relate_fk_sound in Hin as (Hin & _).
    vm_compute in Hin.
    repeat (apply elem_of_cons in Hin as [Hin|Hin]; [discriminate Hin|]).
    by apply elem_of_nil in Hin.
Qed.

(** ** Uniqueness ratio *)






Lemma round4_one : (round4 1 == 1)%Q.
Proof. vm_compute. reflexivity. Qed.










(** Cells that differ only by surrounding blanks count once in
    [analyze_spreadsheets.py]. *)
Example unique_ratio_trims :
  NoDup (dropna Samples.column_with_blank)
  /\ unique_ratio Samples.column_with_blank = (5000 # 10000)%Q.
Proof.
  split; [decide_by_compute | vm_compute; reflexivity].
Qed.

(** ** Header detector: the samples *)


(** Only the first eight rows are candidates: the ninth row of this preview
    has the greatest confidence, and row 0 is returned. *)
Example header_ninth_row_ignored :
  detect_header_row Samples.preview_nine_rows = (0%nat, (4250 # 10000)%Q)
  /\ header_confidence Samples.preview_nine_rows 8 = (8000 # 10000)%Q
  /\ (spec_detect_header_row Samples.preview_nine_rows).1 = 8%nat.
Proof. split_and!; vm_compute; reflexivity. Qed.

(** A row without a non-empty cell has confidence 0, whatever lies below. *)
Example header_empty_row_scores_zero :
  header_confidence Samples.preview_empty_first 0 = 0%Q
  /\ (header_score Samples.preview_empty_first 0 == 20 # 100)%Q
  /\ detect_header_row Samples.preview_empty_first = (1%nat, (1125 # 10000)%Q).
Proof. split_and!; vm_compute; reflexivity. Qed.

(** ** Incrementing ids *)

Section IdIncrementalFacts.

Variable to_numeric : pystr -> option Q.


End IdIncrementalFacts.



(** ** Clustering: the samples *)

Example jaccard_scenario_B :
  jaccard (of_string <$> ["a"; "b"; "c"]%string) (of_string <$> ["a"; "b"; "c"; "d"]%string)
  = (3 # 4)%Q.
Proof. vm_compute. reflexivity. Qed.

Example jaccard_empty : jaccard [] [] = 0%Q /\ jaccard_legacy [] [] = 1%Q.
Proof. split; reflexivity. Qed.

Example cluster_three_sheets :
  (fun c => (c.1, members c.2, via c.2)) <$> clusters (cluster_sheets ∅ Samples.three_sheets)
  = [(1%nat, [of_string "a.xlsx|S"; of_string "c.xlsx|S"], ViaSheetName);
     (2%nat, [of_string "b.xlsx|T"], ViaJaccard)].
Proof. vm_compute. reflexivity. Qed.

Example cluster_three_sheets_v1 :
  (fun c => (c.1, members c.2)) <$> clusters (cluster_sheets_v1 ∅ Samples.three_sheets)
  = [(1%nat, [of_string "a.xlsx|S"; of_string "b.xlsx|T"; of_string "c.xlsx|S"])].
Proof. vm_compute. reflexivity. Qed.

Lemma clustering_strict_partition_witness :
  strict_partition (map rec_key Samples.three_sheets)
                   (cluster_sheets ∅ Samples.three_sheets)
  /\ strict_partition (map rec_key Samples.three_sheets)
                      (cluster_sheets_v1 ∅ Samples.three_sheets).
Proof.
  apply (clustering_strict_partition ∅ Samples.three_sheets).
  decide_by_compute.
Defined.

(** ** Structural fingerprints *)

#[global] Instance str_le_total : Total str_le.
Proof.
  intros a. unfold str_le. induction a as [|x a IH]; intros [|y b]; simpl; auto.
  destruct (N.ltb_spec x y), (N.ltb_spec y x); auto; try lia.
Qed.

#[global] Instance str_le_trans : Transitive str_le.
Proof.
  intros a. unfold str_le. induction a as [|x a IH]; intros [|y b] [|z c]; simpl; auto;
    try discriminate.
  destruct (N.ltb_spec x y), (N.ltb_spec y x), (N.ltb_spec y z), (N.ltb_spec z y),
    (N.ltb_spec x z), (N.ltb_spec z x); auto; try discriminate; try lia.
  apply IH.
Qed.

#[global] Instance str_le_antisymm : AntiSymm (=) str_le.
Proof.
  intros a. unfold str_le. induction a as [|x a IH]; intros [|y b]; simpl; auto;
    try discriminate.
  destruct (N.ltb_spec x y), (N.ltb_spec y x); try discriminate; try lia.
  intros H1 H2. assert (x = y) as -> by lia. f_equal. by apply IH.
Qed.

Lemma py_sorted_perm l : py_sorted l ≡ₚ l.
Proof. apply merge_sort_Permutation. Qed.




Lemma join_cons sep x l :
  join sep (x :: l) = x ++ match l with [] => [] | _ => sep ++ join sep l end.
Proof. destruct l; simpl; [by rewrite app_nil_r | done]. Qed.

Lemma split_at_bar (x y s t : pystr) :
  bar ∉ x -> bar ∉ y ->
  (s = [] \/ exists s', s = bar :: s') -> (t = [] \/ exists t', t = bar :: t') ->
  x ++ s = y ++ t -> x = y /\ s = t.
Proof.
  revert y. induction x as [|c x IH]; intros [|d y] Hx Hy Hs Ht Heq; simpl in *.
  - done.
  - exfalso. destruct Hs as [->|[s' ->]]; [done|].
    injection Heq as <- _. apply Hy. left.
  - exfalso. destruct Ht as [->|[t' ->]]; [done|].
    injection Heq as -> _. apply Hx. left.
  - injection Heq as -> Heq.
    apply not_elem_of_cons in Hx as [_ Hx], Hy as [_ Hy].
    destruct (IH y Hx Hy Hs Ht Heq) as [-> ->]. done.
Qed.





Lemma filter_two {A} (P : A -> Prop) `{forall x, Decision (P x)} (l : list A) i j x y :
  l !! i = Some x -> l !! j = Some y -> i <> j -> P x -> P y ->
  (2 <= length (filter P l))%nat.
Proof.
  revert i j. induction l as [|a l IH]; intros i j Hi Hj Hne Px Py; [done|].
  assert (Hone : forall k z, l !! k = Some z -> P z -> (1 <= length (filter P l))%nat).
  { intros k z Hk Pz.
    assert (Hz : z ∈ filter P l).
    { apply list_elem_of_filter. split; [done|]. apply list_elem_of_lookup. eauto. }
    destruct (filter P l); [by apply elem_of_nil in Hz | simpl; lia]. }
  rewrite filter_cons. destruct i as [|i], j as [|j]; simpl in *; simplify_eq.
  - rewrite decide_True by done. simpl. pose proof (Hone j y Hj Py). lia.
  - rewrite decide_True by done. simpl. pose proof (Hone i x Hi Px). lia.
  - assert (Hij : i <> j) by congruence.
    pose proof (IH i j Hi Hj Hij Px Py). destruct (decide (P a)); simpl; lia.
Qed.

Section FingerprintFacts.

Variable md5 : pystr -> pystr.






End FingerprintFacts.

(** ** Sheet keys *)

(** A key determines the file and the sheet when file names have no bar. *)
Lemma rec_key_inj r1 r2 :
  bar ∉ rec_file r1 -> bar ∉ rec_file r2 -> rec_key r1 = rec_key r2 ->
  rec_file r1 = rec_file r2 /\ rec_sheet r1 = rec_sheet r2.
Proof.
  unfold rec_key. intros H1 H2 Heq.
  apply split_at_bar in Heq as [-> Heq]; [|done|done|right; eauto..].
  simpl in Heq. by injection Heq as ->.
Qed.

(** Sheets of distinct (file, sheet) pairs have distinct keys then. *)
Lemma rec_keys_NoDup phase1 :
  Forall (fun r => bar ∉ rec_file r) phase1 ->
  NoDup ((fun r => (rec_file r, rec_sheet r)) <$> phase1) ->
  NoDup (map rec_key phase1).
Proof.
  intros Hbar Hnd.
  induction phase1 as [|r phase1 IH]; [apply NoDup_nil_2|].
  apply Forall_cons in Hbar as [Hr Hbar].
  rewrite fmap_cons in Hnd. apply NoDup_cons in Hnd as [Hnin Hnd].
  simpl. apply NoDup_cons. split; [|by apply IH].
  intros Hin. apply Hnin.
  apply list_elem_of_fmap in Hin as (r' & Hk & Hr').
  apply list_elem_of_fmap. exists r'. split; [|done].
  rewrite Forall_forall in Hbar.
  destruct (rec_key_inj r r' Hr (Hbar r' Hr') Hk) as [-> ->]. done.
Qed.




(** The fingerprint is taken from the normalized names, before aliases are
    merged: two sheets with one canonical column set can have different
    signatures. *)
Example merged_map_ids :
  merged_map Samples.ratio_ids [Samples.sheet_id; Samples.sheet_ids] = Samples.merged_ids.
Proof. vm_compute. reflexivity. Qed.

Example redundancy_before_merge :
  canonical_set Samples.merged_ids Samples.sheet_id
  = canonical_set Samples.merged_ids Samples.sheet_ids
  /\ sheet_sig Samples.sheet_id <> sheet_sig Samples.sheet_ids.
Proof. split; [vm_compute; reflexivity | vm_compute; discriminate]. Qed.

(** The earlier analyzers sign the first 20 names as they come, duplicates
    included: two sheets with one set of names can have different
    signatures there. *)
Example redundancy_v1_counts_duplicates :
  name_set Samples.sheet_ab = name_set Samples.sheet_aab
  /\ sheet_sig_v1 Samples.sheet_ab <> sheet_sig_v1 Samples.sheet_aab.
Proof. split; [vm_compute; reflexivity | vm_compute; discriminate]. Qed.

(** ** Deep profiling *)

Section DeepProfileFacts.

Variable lower : pystr -> pystr.
Variable infer_dtype : series -> result pystr.
Variable detect_patterns : series -> result (list (pystr * Q)).
Variable read_frame : sheet_rec -> result frame.
Variable assigned_ids : gmap pystr nat.

Local Abbreviation pcol := (profile_column lower infer_dtype detect_patterns assigned_ids).
Local Abbreviation pof := (profile_of lower infer_dtype detect_patterns assigned_ids).
Local Abbreviation step := (profile_step lower infer_dtype detect_patterns assigned_ids).
Local Abbreviation step2 := (profile_step_v2 lower infer_dtype detect_patterns assigned_ids).










End DeepProfileFacts.


(** * Further properties of the code *)

(** ** Jaccard similarity *)

Lemma to_set_NoDup (a : list pystr) : NoDup (to_set a).
Proof. apply NoDup_remove_dups. Qed.

Lemma to_set_elem (a : list pystr) x : x ∈ to_set a <-> x ∈ a.
Proof. apply elem_of_remove_dups. Qed.

Lemma to_set_nil (a : list pystr) : to_set a = [] <-> a = [].
Proof.
  split; [|by intros ->].
  intros H. destruct a as [|x a]; [done|].
  assert (Hx : x ∈ to_set (x :: a)) by (apply to_set_elem; left).
  rewrite H in Hx. by apply elem_of_nil in Hx.
Qed.

Lemma inter_length_sym (sa sb : list pystr) :
  NoDup sa -> NoDup sb ->
  length (list_intersection sa sb) = length (list_intersection sb sa).
Proof.
  intros Ha Hb. apply Permutation_length, NoDup_Permutation.
  - by apply NoDup_list_intersection.
  - by apply NoDup_list_intersection.
  - intros x. rewrite !list_elem_of_intersection. tauto.
Qed.

Lemma union_length_sym (sa sb : list pystr) :
  NoDup sa -> NoDup sb ->
  length (list_union sa sb) = length (list_union sb sa).
Proof.
  intros Ha Hb. apply Permutation_length, NoDup_Permutation.
  - by apply NoDup_list_union.
  - by apply NoDup_list_union.
  - intros x. rewrite !list_elem_of_union. tauto.
Qed.

Lemma inter_le_union (sa sb : list pystr) :
  NoDup sa -> (length (list_intersection sa sb) <= length (list_union sa sb))%nat.
Proof.
  intros Ha. apply submseteq_length, NoDup_submseteq.
  - by apply NoDup_list_intersection.
  - intros x. rewrite list_elem_of_intersection, list_elem_of_union. tauto.
Qed.

Lemma union_nonempty (sa sb : list pystr) :
  sa <> [] \/ sb <> [] -> (0 < length (list_union sa sb))%nat.
Proof.
  intros H.
  assert (Hx : exists x, x ∈ list_union sa sb).
  { destruct H as [H|H].
    - destruct sa as [|x sa]; [done|]. exists x. apply list_elem_of_union. left. left.
    - destruct sb as [|x sb]; [done|]. exists x. apply list_elem_of_union. right. left. }
  destruct Hx as [x Hx]. destruct (list_union sa sb); [by apply elem_of_nil in Hx|].
  simpl. lia.
Qed.

(** The quotient of the two counts, as both versions compute it when one
    of the sets is not empty. *)
Lemma jaccard_quotient (a b : list pystr) :
  to_set a <> [] \/ to_set b <> [] ->
  jaccard a b = frac (length (list_intersection (to_set a) (to_set b)))
                     (length (list_union (to_set a) (to_set b)))
  /\ jaccard_legacy a b = jaccard a b.
Proof.
  intros H. unfold jaccard, jaccard_legacy, frac.
  pose proof (union_nonempty _ _ H) as Hu.
  rewrite Nat.max_r by lia.
  destruct (to_set a), (to_set b); try done. by destruct H.
Qed.

Lemma jaccard_sym (a b : list pystr) : jaccard a b = jaccard b a.
Proof.
  unfold jaccard.
  rewrite (inter_length_sym (to_set a) (to_set b)) by apply to_set_NoDup.
  rewrite (union_length_sym (to_set a) (to_set b)) by apply to_set_NoDup.
  by destruct (to_set a), (to_set b).
Qed.

Lemma jaccard_legacy_sym (a b : list pystr) : jaccard_legacy a b = jaccard_legacy b a.
Proof.
  unfold jaccard_legacy.
  rewrite (inter_length_sym (to_set a) (to_set b)) by apply to_set_NoDup.
  rewrite (union_length_sym (to_set a) (to_set b)) by apply to_set_NoDup.
  by destruct (to_set a), (to_set b).
Qed.

Lemma jaccard_bounds (a b : list pystr) : (0 <= jaccard a b <= 1)%Q.
Proof.
  destruct (decide (to_set a = [] /\ to_set b = [])) as [[Ha Hb]|Hne].
  - unfold jaccard. rewrite Ha, Hb. split; [apply Qle_refl | discriminate].
  - destruct (jaccard_quotient a b) as [-> _].
    { destruct (decide (to_set a = [])); [right | left]; tauto. }
    apply frac_bounds, inter_le_union, to_set_NoDup.
Qed.

Lemma jaccard_legacy_bounds (a b : list pystr) : (0 <= jaccard_legacy a b <= 1)%Q.
Proof.
  destruct (decide (to_set a = [] /\ to_set b = [])) as [[Ha Hb]|Hne].
  - unfold jaccard_legacy. rewrite Ha, Hb. split; [discriminate | apply Qle_refl].
  - destruct (jaccard_quotient a b) as [_ ->]; [|apply jaccard_bounds].
    destruct (decide (to_set a = [])); [right | left]; tauto.
Qed.

(** X1. The Jaccard similarity of two collections of names does not depend
    on the order of its arguments and lies between 0 and 1, in the phased
    analyzers (which give 0 to two empty sets) and in
    [analyze_spreadsheets.py] (which gives 1 to them); the two versions
    agree as soon as one of the sets is not empty. *)
Theorem jaccard_symmetric_bounded (a b : list pystr) :
  jaccard a b = jaccard b a
  /\ (0 <= jaccard a b <= 1)%Q
  /\ jaccard_legacy a b = jaccard_legacy b a
  /\ (0 <= jaccard_legacy a b <= 1)%Q
  /\ (a <> [] \/ b <> [] -> jaccard_legacy a b = jaccard a b).
Proof.
  split; [|split; [|split; [|split]]].
  - apply jaccard_sym.
  - apply jaccard_bounds.
  - apply jaccard_legacy_sym.
  - apply jaccard_legacy_bounds.
  - intros H. apply jaccard_quotient. rewrite !to_set_nil. done.
Qed.

Lemma frac_eq_one (n d : nat) : (0 < d)%nat -> (frac n d == 1)%Q <-> n = d.
Proof.
  intros Hd. unfold frac, Qeq. simpl. rewrite Zpos_of_nat by done. lia.
Qed.

Lemma frac_eq_zero (n d : nat) : (frac n d == 0)%Q <-> n = 0%nat.
Proof. unfold frac, Qeq. simpl. lia. Qed.

Lemma jaccard_one (a b : list pystr) :
  (jaccard a b == 1)%Q <-> a <> [] /\ forall x, x ∈ a <-> x ∈ b.
Proof.
  destruct (decide (to_set a = [] /\ to_set b = [])) as [[Ha Hb]|Hne].
  { unfold jaccard. rewrite Ha, Hb. apply (proj1 (to_set_nil a)) in Ha. split; [intros H; by vm_compute in H | by intros [? _]]. }
  assert (Hor : to_set a <> [] \/ to_set b <> []).
  { destruct (decide (to_set a = [])); [right | left]; tauto. }
  destruct (jaccard_quotient a b Hor) as [-> _].
  rewrite frac_eq_one by by apply union_nonempty.
  pose proof (to_set_NoDup a) as Hna. pose proof (to_set_NoDup b) as Hnb.
  split.
  - intros Hlen.
    assert (Hperm : list_intersection (to_set a) (to_set b)
                    ≡ₚ list_union (to_set a) (to_set b)).
    { apply submseteq_length_Permutation; [|lia].
      apply NoDup_submseteq; [by apply NoDup_list_intersection|].
      intros x. rewrite list_elem_of_intersection, list_elem_of_union. tauto. }
    assert (Hall : forall x, x ∈ a <-> x ∈ b).
    { intros x. split; intros Hx.
      - assert (Hu : x ∈ list_union (to_set a) (to_set b)).
        { apply list_elem_of_union. left. by apply to_set_elem. }
        rewrite <- Hperm in Hu. apply list_elem_of_intersection in Hu as [_ Hu].
        by apply to_set_elem.
      - assert (Hu : x ∈ list_union (to_set a) (to_set b)).
        { apply list_elem_of_union. right. by apply to_set_elem. }
        rewrite <- Hperm in Hu. apply list_elem_of_intersection in Hu as [Hu _].
        by apply to_set_elem. }
    split; [|done]. intros ->.
    destruct Hor as [H|H]; [done|]. apply H, to_set_nil.
    destruct b as [|x b]; [done|]. exfalso.
    assert (Hx : x ∈ []) by (apply Hall; left). by apply elem_of_nil in Hx.
  - intros [_ Hall]. apply Permutation_length, NoDup_Permutation.
    + by apply NoDup_list_intersection.
    + by apply NoDup_list_union.
    + intros x. rewrite list_elem_of_intersection, list_elem_of_union, !to_set_elem.
      specialize (Hall x). tauto.
Qed.

Lemma jaccard_zero (a b : list pystr) :
  (jaccard a b == 0)%Q <-> forall x, x ∈ a -> x ∉ b.
Proof.
  assert (Hinter : list_intersection (to_set a) (to_set b) = []
                   <-> forall x, x ∈ a -> x ∉ b).
  { split.
    - intros H x Ha Hb.
      assert (Hx : x ∈ list_intersection (to_set a) (to_set b)).
      { apply list_elem_of_intersection. by rewrite !to_set_elem. }
      rewrite H in Hx. by apply elem_of_nil in Hx.
    - intros H. destruct (list_intersection _ _) as [|x l] eqn:E; [done|]. exfalso.
      assert (Hx : x ∈ list_intersection (to_set a) (to_set b)) by (rewrite E; left).
      apply list_elem_of_intersection in Hx as [Hx1 Hx2].
      rewrite to_set_elem in Hx1, Hx2. by apply (H x). }
  destruct (decide (to_set a = [] /\ to_set b = [])) as [[Ha Hb]|Hne].
  { unfold jaccard. rewrite Ha, Hb. apply (proj1 (to_set_nil a)) in Ha. subst a.
    split; [|done]. intros _ x Hx. by apply elem_of_nil in Hx. }
  assert (Hor : to_set a <> [] \/ to_set b <> []).
  { destruct (decide (to_set a = [])); [right | left]; tauto. }
  destruct (jaccard_quotient a b Hor) as [-> _].
  rewrite frac_eq_zero, <- Hinter. by destruct (list_intersection _ _).
Qed.

Lemma set_eqb_spec (sa sb : list pystr) : set_eqb sa sb = true <-> forall x, x ∈ sa <-> x ∈ sb.
Proof.
  unfold set_eqb. rewrite andb_true_iff, !bool_decide_eq_true. split.
  - intros [H1 H2] x. split; [apply H1 | apply H2].
  - intros H. split; intros x Hx; by apply H.
Qed.

(** X2. In the phased analyzers the Jaccard similarity is 1 exactly for
    two equal non-empty sets of names and 0 exactly for two sets without a
    common name (two empty sets among them); in [analyze_spreadsheets.py]
    it is 1 exactly for two equal sets. The test [ms == representative] of
    the name-affinity pass therefore never admits a sheet that the Jaccard
    test of that pass refuses. *)
Theorem jaccard_extremes (a b : list pystr) :
  ((jaccard a b == 1)%Q <-> a <> [] /\ forall x, x ∈ a <-> x ∈ b)
  /\ ((jaccard a b == 0)%Q <-> forall x, x ∈ a -> x ∉ b)
  /\ ((jaccard_legacy a b == 1)%Q <-> forall x, x ∈ a <-> x ∈ b)
  /\ (is_empty_set a = false ->
      Qle_bool NAME_GROUP_OVERLAP (jaccard a b) || set_eqb b a
      = Qle_bool NAME_GROUP_OVERLAP (jaccard a b)).
Proof.
  split; [|split; [|split]].
  - apply jaccard_one.
  - apply jaccard_zero.
  - destruct (decide (a = [] /\ b = [])) as [[-> ->]|Hne].
    + split; [done | intros _; reflexivity].
    + assert (Hor : a <> [] \/ b <> []).
      { destruct (decide (a = [])); [right | left]; tauto. }
      destruct (jaccard_quotient a b) as [_ ->]; [by rewrite !to_set_nil|].
      rewrite jaccard_one. split; [tauto|]. intros Hall. split; [|done].
      intros ->. destruct Hor as [?|Hb]; [done|].
      destruct b as [|x b]; [done|].
      assert (Hx : x ∈ []) by (apply Hall; left). by apply elem_of_nil in Hx.
  - intros Ha. destruct (set_eqb b a) eqn:E; [|by rewrite orb_false_r].
    rewrite orb_true_r. symmetry. apply Qle_bool_iff.
    assert (H1 : (jaccard a b == 1)%Q).
    { apply jaccard_one. split; [by destruct a|].
      intros x. rewrite set_eqb_spec in E. by rewrite E. }
    rewrite H1. unfold NAME_GROUP_OVERLAP. discriminate.
Qed.


(** ** Phase 2: frequencies *)

Lemma counter_incr_get k cf k' :
  default 0%nat (dict_get k' (counter_incr k cf))
  = (default 0%nat (dict_get k' cf) + if decide (k' = k) then 1 else 0)%nat.
Proof.
  unfold counter_incr. rewrite dict_get_set.
  destruct (decide (k' = k)) as [->|]; simpl; lia.
Qed.

Lemma dict_set_sum k (v : nat) (cf : list (pystr * nat)) :
  (sum_list (dict_set k v cf).*2 + default 0 (dict_get k cf)
   = sum_list cf.*2 + v)%nat.
Proof.
  induction cf as [|[k0 v0] cf IH]; [simpl; lia|].
  cbn [dict_set dict_get]. destruct (decide (k = k0)) as [->|Hne].
  - rewrite !fmap_cons. simpl. lia.
  - rewrite !fmap_cons. simpl sum_list. simpl snd. lia.
Qed.


Lemma occurrences_app k l1 l2 :
  occurrences k (l1 ++ l2) = (occurrences k l1 + occurrences k l2)%nat.
Proof. unfold occurrences. by rewrite filter_app, length_app. Qed.

Lemma occurrences_cons k n l :
  occurrences k (n :: l) = ((if decide (k = n) then 1 else 0) + occurrences k l)%nat.
Proof.
  unfold occurrences. rewrite filter_cons.
  destruct (decide (n = k)) as [->|Hne].
  - by rewrite decide_True.
  - by rewrite decide_False by done.
Qed.

(** The inner loop of Phase 2 on the columns of one sheet. *)
Lemma col_freq_row_get (skip_empty : bool) cf (row : list (pystr * pystr)) k :
  default 0%nat (dict_get k
    (foldl (fun cf rn => if skip_empty && is_empty_str rn.2 then cf
                         else counter_incr rn.2 cf) cf row))
  = (default 0%nat (dict_get k cf)
     + if skip_empty && is_empty_str k then 0 else occurrences k row.*2)%nat.
Proof.
  revert cf. induction row as [|[raw n] row IH]; intros cf.
  { unfold occurrences. simpl. destruct (_ && _); lia. }
  cbn [foldl]. rewrite IH. rewrite fmap_cons. cbn [snd]. rewrite occurrences_cons.
  destruct skip_empty; cbn [andb].
  - destruct (is_empty_str n) eqn:En.
    + destruct n; [|done]. destruct (is_empty_str k) eqn:Ek; [lia|].
      destruct (decide (k = [])) as [->|]; [done | lia].
    + rewrite counter_incr_get. destruct (is_empty_str k) eqn:Ek.
      * destruct k; [|done]. destruct (decide ([] = n)) as [<-|]; [done | lia].
      * destruct (decide (k = n)); lia.
  - rewrite counter_incr_get. destruct (decide (k = n)); lia.
Qed.

Lemma col_freq_row_sum (skip_empty : bool) cf (row : list (pystr * pystr)) :
  sum_list (foldl (fun cf rn => if skip_empty && is_empty_str rn.2 then cf
                                else counter_incr rn.2 cf) cf row).*2
  = (sum_list cf.*2
     + length (filter (fun n => skip_empty && is_empty_str n = false) row.*2))%nat.
Proof.
  revert cf. induction row as [|[raw n] row IH]; intros cf; [simpl; lia|].
  cbn [foldl]. rewrite IH, fmap_cons, filter_cons. cbn [snd].
  destruct (skip_empty && is_empty_str n) eqn:E.
  - rewrite decide_False by done. lia.
  - rewrite decide_True by done. cbn [length].
    pose proof (dict_set_sum n (S (default 0%nat (dict_get n cf))) cf) as H.
    unfold counter_incr. lia.
Qed.

Lemma norm_occurrences_cons rec phase1 :
  norm_occurrences (rec :: phase1)
  = (zip (rec_columns rec) (rec_norm_cols rec)).*2 ++ norm_occurrences phase1.
Proof. reflexivity. Qed.

Lemma col_freq_gen_get (skip_empty : bool) phase1 cf k :
  default 0%nat (dict_get k
    (foldl (fun cf rec =>
              foldl (fun cf rn => if skip_empty && is_empty_str rn.2 then cf
                                  else counter_incr rn.2 cf)
                    cf (zip (rec_columns rec) (rec_norm_cols rec))) cf phase1))
  = (default 0%nat (dict_get k cf)
     + if skip_empty && is_empty_str k then 0
       else occurrences k (norm_occurrences phase1))%nat.
Proof.
  revert cf. induction phase1 as [|rec phase1 IH]; intros cf.
  { unfold occurrences. simpl. destruct (_ && _); lia. }
  cbn [foldl]. rewrite IH, col_freq_row_get, norm_occurrences_cons, occurrences_app.
  destruct (skip_empty && is_empty_str k); lia.
Qed.

Lemma col_freq_gen_sum (skip_empty : bool) phase1 cf :
  sum_list (foldl (fun cf rec =>
              foldl (fun cf rn => if skip_empty && is_empty_str rn.2 then cf
                                  else counter_incr rn.2 cf)
                    cf (zip (rec_columns rec) (rec_norm_cols rec))) cf phase1).*2
  = (sum_list cf.*2
     + length (filter (fun n => skip_empty && is_empty_str n = false)
                      (norm_occurrences phase1)))%nat.
Proof.
  revert cf. induction phase1 as [|rec phase1 IH]; intros cf; [simpl; lia|].
  cbn [foldl]. rewrite IH, col_freq_row_sum, norm_occurrences_cons, filter_app, length_app.
  lia.
Qed.

Lemma col_freq_unfold phase1 :
  col_freq phase1
  = foldl (fun cf rec =>
             foldl (fun cf rn => if true && is_empty_str rn.2 then cf
                                 else counter_incr rn.2 cf)
                   cf (zip (rec_columns rec) (rec_norm_cols rec))) [] phase1.
Proof. reflexivity. Qed.

Lemma col_freq_v1_unfold phase1 :
  col_freq_v1 phase1
  = foldl (fun cf rec =>
             foldl (fun cf rn => if false && is_empty_str rn.2 then cf
                                 else counter_incr rn.2 cf)
                   cf (zip (rec_columns rec) (rec_norm_cols rec))) [] phase1.
Proof. reflexivity. Qed.

Lemma col_freq_get phase1 k :
  default 0%nat (dict_get k (col_freq phase1))
  = if is_empty_str k then 0%nat else occurrences k (norm_occurrences phase1).
Proof. rewrite col_freq_unfold, col_freq_gen_get. simpl. done. Qed.

Lemma col_freq_v1_get phase1 k :
  default 0%nat (dict_get k (col_freq_v1 phase1)) = occurrences k (norm_occurrences phase1).
Proof. rewrite col_freq_v1_unfold, col_freq_gen_get. simpl. done. Qed.

(** A counter never holds a zero: a key is present when it was counted. *)
Lemma col_freq_gen_pos (skip_empty : bool) phase1 :
  Forall (fun kv => (0 < kv.2)%nat)
    (foldl (fun cf rec =>
              foldl (fun cf rn => if skip_empty && is_empty_str rn.2 then cf
                                  else counter_incr rn.2 cf)
                    cf (zip (rec_columns rec) (rec_norm_cols rec))) [] phase1).
Proof.
  apply (foldl_preserves (fun cf => Forall (fun kv => (0 < kv.2)%nat) cf)); [done|].
  intros cf rec _ Hcf.
  apply (foldl_preserves (fun cf => Forall (fun kv => (0 < kv.2)%nat) cf)); [done|].
  intros cf' rn _ H. destruct (_ && _); [done|].
  unfold counter_incr. generalize (S (default 0%nat (dict_get rn.2 cf'))) (Nat.lt_0_succ (default 0%nat (dict_get rn.2 cf'))).
  intros v Hv. induction H as [|[k0 v0] d Hk Hd IH]; simpl.
  - by constructor.
  - destruct (decide (rn.2 = k0)); constructor; auto.
Qed.

Lemma dict_get_pos_key (cf : list (pystr * nat)) k :
  Forall (fun kv => (0 < kv.2)%nat) cf ->
  k ∈ dict_keys cf <-> (0 < default 0%nat (dict_get k cf))%nat.
Proof.
  intros Hpos. split.
  - intros Hk. destruct (dict_get k cf) as [v|] eqn:E.
    + simpl. apply dict_get_elem in E. rewrite Forall_forall in Hpos.
      apply (Hpos _ E).
    + apply dict_get_None in E. done.
  - intros Hk. destruct (dict_get k cf) as [v|] eqn:E; [|simpl in Hk; lia].
    destruct (decide (k ∈ dict_keys cf)) as [|Hn]; [done|].
    apply dict_get_None in Hn. congruence.
Qed.

Lemma col_freq_key_nonempty (phase1 : list sheet_rec) (k : pystr) :
  k ∈ dict_keys (col_freq phase1) -> k <> [].
Proof.
  intros Hk.
  rewrite dict_get_pos_key in Hk by (rewrite col_freq_unfold; apply col_freq_gen_pos).
  rewrite col_freq_get in Hk. destruct k; simpl in Hk; [lia | done].
Qed.

(** X3. Phase 2 counts columns, not sheets: the frequency of a normalized
    name is the number of columns of that name over all sheets, so that a
    sheet with the name on two columns counts twice. The analyzers v2 and
    v3 leave the empty name out; the first analyzer counts it like any
    other. A name is a key of the counter exactly when it occurs, and the
    frequencies add up to the number of columns counted. *)
Theorem col_freq_counts_columns (phase1 : list sheet_rec) (k : pystr) :
  default 0%nat (dict_get k (col_freq phase1))
  = (if is_empty_str k then 0%nat else occurrences k (norm_occurrences phase1))
  /\ default 0%nat (dict_get k (col_freq_v1 phase1))
     = occurrences k (norm_occurrences phase1)
  /\ (k ∈ dict_keys (col_freq phase1) <-> k <> [] /\ k ∈ norm_occurrences phase1)
  /\ (k ∈ dict_keys (col_freq_v1 phase1) <-> k ∈ norm_occurrences phase1)
  /\ sum_list (col_freq phase1).*2
     = length (filter (fun n => is_empty_str n = false) (norm_occurrences phase1))
  /\ sum_list (col_freq_v1 phase1).*2 = length (norm_occurrences phase1).
Proof.
  assert (Hocc : forall l, (0 < occurrences k l)%nat <-> k ∈ l).
  { intros l. unfold occurrences. split.
    - intros H. destruct (filter _ l) as [|x l'] eqn:E; [simpl in H; lia|].
      assert (Hx : x ∈ filter (fun n => n = k) l) by (rewrite E; left).
      apply list_elem_of_filter in Hx as [-> Hx]. done.
    - intros H. assert (Hk : k ∈ filter (fun n => n = k) l) by by apply list_elem_of_filter.
      destruct (filter _ l); [by apply elem_of_nil in Hk | simpl; lia]. }
  split_and!.
  - apply col_freq_get.
  - apply col_freq_v1_get.
  - rewrite dict_get_pos_key by (rewrite col_freq_unfold; apply col_freq_gen_pos).
    rewrite col_freq_get. destruct k; simpl.
    + split; [lia | by intros [? _]].
    + rewrite Hocc. split; [by split | by intros [_ ?]].
  - rewrite dict_get_pos_key by (rewrite col_freq_v1_unfold; apply col_freq_gen_pos).
    rewrite col_freq_v1_get. apply Hocc.
  - rewrite col_freq_unfold, col_freq_gen_sum. simpl. done.
  - rewrite col_freq_v1_unfold, col_freq_gen_sum. cbn [sum_list fmap list_fmap andb].
    induction (norm_occurrences phase1) as [|n l IH]; [done|].
    rewrite filter_cons, decide_True by done. simpl in *. lia.
Qed.


(** ** Phase 2: canonical names *)

Lemma filter_split_length {A} (P : A -> Prop) `{forall x, Decision (P x)} (l : list A) :
  (length (filter P l) + length (filter (fun x => ~ P x) l) = length l)%nat.
Proof.
  induction l as [|x l IH]; [done|]. rewrite !filter_cons.
  destruct (decide (P x)).
  - rewrite decide_False by tauto. simpl. lia.
  - rewrite decide_True by done. simpl. lia.
Qed.

Lemma same_elements_length {A} (l k : list A) :
  NoDup l -> NoDup k -> (forall x, x ∈ l <-> x ∈ k) -> length l = length k.
Proof. intros Hl Hk H. by apply Permutation_length, NoDup_Permutation. Qed.

Lemma counter_add_keys k v cf x :
  x ∈ dict_keys (counter_add k v cf) <-> x = k \/ x ∈ dict_keys cf.
Proof. apply dict_keys_set_elem. Qed.

Lemma counter_add_get k v cf k' :
  default 0%nat (dict_get k' (counter_add k v cf))
  = (default 0%nat (dict_get k' cf) + if decide (k' = k) then v else 0)%nat.
Proof.
  unfold counter_add. rewrite dict_get_set.
  destruct (decide (k' = k)) as [->|]; simpl; lia.
Qed.

Lemma counter_add_sum k v cf :
  sum_list (counter_add k v cf).*2 = (sum_list cf.*2 + v)%nat.
Proof.
  unfold counter_add.
  pose proof (dict_set_sum k (default 0%nat (dict_get k cf) + v)%nat cf). lia.
Qed.

Section CanonicalFreq.

Variable merged : gmap pystr pystr.

Local Abbreviation step := (fun acc (kv : pystr * nat) => counter_add (canon merged kv.1) kv.2 acc).

Lemma canonical_fold_keys cf acc c :
  c ∈ dict_keys (foldl step acc cf)
  <-> c ∈ dict_keys acc \/ exists k, k ∈ dict_keys cf /\ canon merged k = c.
Proof.
  revert acc. induction cf as [|[k v] cf IH]; intros acc.
  - simpl. split; [by left|]. intros [?|(k & Hk & _)]; [done|].
    by apply elem_of_nil in Hk.
  - cbn [foldl]. rewrite IH, counter_add_keys. unfold dict_keys. cbn [map fst].
    split.
    + intros [[->|?]|(k' & Hk' & Hc)].
      * right. exists k. split; [left | done].
      * by left.
      * right. exists k'. split; [by right | done].
    + intros [?|(k' & [->|Hk']%elem_of_cons & Hc)].
      * left. by right.
      * left. left. done.
      * right. eauto.
Qed.

Lemma canonical_fold_NoDup cf acc :
  NoDup (dict_keys acc) -> NoDup (dict_keys (foldl step acc cf)).
Proof.
  intros H. apply (foldl_preserves (fun a => NoDup (dict_keys a))); [done|].
  intros a kv _ Ha. by apply dict_keys_set_NoDup.
Qed.

Lemma canonical_fold_get cf acc c :
  default 0%nat (dict_get c (foldl step acc cf))
  = (default 0%nat (dict_get c acc)
     + sum_list (filter (fun kv => canon merged kv.1 = c) cf).*2)%nat.
Proof.
  revert acc. induction cf as [|[k v] cf IH]; intros acc; [simpl; lia|].
  cbn [foldl]. rewrite IH, counter_add_get, filter_cons. cbn [fst snd].
  destruct (decide (c = canon merged k)) as [->|Hne].
  - rewrite decide_True by done. rewrite fmap_cons. simpl. lia.
  - rewrite decide_False by done. lia.
Qed.

Lemma canonical_fold_sum cf acc :
  sum_list (foldl step acc cf).*2 = (sum_list acc.*2 + sum_list cf.*2)%nat.
Proof.
  revert acc. induction cf as [|[k v] cf IH]; intros acc; [simpl; lia|].
  cbn [foldl]. rewrite IH, counter_add_sum, fmap_cons. simpl. lia.
Qed.

End CanonicalFreq.

Section AliasFacts.

Variable ratio : pystr -> pystr -> Q.

(** Every alias is one of the names that were compared. *)
Lemma merge_names_dom keys a c : merge_names ratio keys !! a = Some c -> a ∈ keys.
Proof.
  unfold merge_names. revert a c.
  apply (foldl_preserves (fun m => forall a c, m !! a = Some c -> a ∈ keys)).
  { intros a c. by rewrite lookup_empty. }
  intros m i _ Hm. unfold merge_step_i. destruct (keys !! i) as [ki|] eqn:Hi; [|done].
  case_decide; [done|].
  apply (foldl_preserves (fun m => forall a c, m !! a = Some c -> a ∈ keys)); [done|].
  intros m' j _ Hm'. unfold merge_step_j. rewrite Hi.
  destruct (keys !! j) as [kj|] eqn:Hj; [|done].
  case_decide; [done|]. destruct (similar _ _ _); [|done].
  intros a c. destruct (decide (a = kj)) as [->|Hne].
  - intros _. apply list_elem_of_lookup. eauto.
  - rewrite lookup_insert_ne by done. apply Hm'.
Qed.

Lemma merge_names_range keys a c :
  NoDup keys -> merge_names ratio keys !! a = Some c -> c ∈ keys.
Proof.
  intros Hnd H. destruct (merge_names_inv ratio keys Hnd a c H) as [(ic & _ & Hc) _].
  apply list_elem_of_lookup. eauto.
Qed.

(** The canonical frequencies over a counter [cf] whose keys were merged. *)
Lemma canonical_freq_spec (cf : list (pystr * nat)) :
  NoDup (dict_keys cf) ->
  let merged := merge_names ratio (dict_keys cf) in
  let canonical := canonical_freq merged cf in
  (forall c, c ∈ dict_keys canonical <-> c ∈ dict_keys cf /\ merged !! c = None)
  /\ (length canonical + size merged = length cf)%nat
  /\ (forall c, default 0%nat (dict_get c canonical)
                = sum_list (filter (fun kv => canon merged kv.1 = c) cf).*2)
  /\ sum_list canonical.*2 = sum_list cf.*2.
Proof.
  intros Hnd merged canonical.
  assert (Hkeys : forall c, c ∈ dict_keys canonical
                            <-> c ∈ dict_keys cf /\ merged !! c = None).
  { intros c. unfold canonical, canonical_freq. rewrite canonical_fold_keys. split.
    - intros [Hc|(k & Hk & Hc)]; [by apply elem_of_nil in Hc|].
      unfold canon in Hc. destruct (merged !! k) as [c'|] eqn:E; simpl in Hc; subst.
      + split; [by eapply merge_names_range | by eapply merge_names_no_chain].
      + done.
    - intros [Hc Hn]. right. exists c. split; [done|]. unfold canon. by rewrite Hn. }
  split; [done|]. split; [|split].
  - assert (H1 : length canonical
                 = length (filter (fun k => ~ is_Some (merged !! k)) (dict_keys cf))).
    { unfold canonical at 1. rewrite <- (length_fmap fst).
      apply same_elements_length.
      - apply (canonical_fold_NoDup merged cf []), NoDup_nil_2.
      - by apply NoDup_filter.
      - intros c. fold (dict_keys (canonical_freq merged cf)). fold canonical.
        rewrite Hkeys, list_elem_of_filter, eq_None_not_Some. tauto. }
    assert (H2 : size merged
                 = length (filter (fun k => is_Some (merged !! k)) (dict_keys cf))).
    { rewrite <- length_map_to_list, <- (length_fmap fst).
      apply same_elements_length.
      - apply NoDup_fst_map_to_list.
      - by apply NoDup_filter.
      - intros a. rewrite list_elem_of_filter, list_elem_of_fmap. split.
        + intros ([a' c] & -> & Hac%elem_of_map_to_list). simpl.
          split; [eauto | by eapply merge_names_dom].
        + intros [[c Hc] _]. exists (a, c). split; [done|].
          by apply elem_of_map_to_list. }
    rewrite H1, H2.
    pose proof (filter_split_length (fun k => is_Some (merged !! k)) (dict_keys cf)) as H3.
    unfold dict_keys in H3 at 3. rewrite length_map in H3. lia.
  - intros c. unfold canonical, canonical_freq. by rewrite canonical_fold_get.
  - unfold canonical, canonical_freq. by rewrite canonical_fold_sum.
Qed.

End AliasFacts.

Lemma col_freq_no_empty phase1 : norm_keys phase1 = dict_keys (col_freq phase1).
Proof.
  unfold norm_keys.
  assert (H : Forall (fun k => is_empty_str k = false) (dict_keys (col_freq phase1))).
  { apply Forall_forall. intros k Hk.
    apply col_freq_key_nonempty in Hk. by destruct k. }
  induction H as [|k l Hk Hl IH]; [done|].
  rewrite filter_cons, decide_True by done. by f_equal.
Qed.

(** X4. Merging the frequencies of aliases into their canonical names: the
    canonical counter has exactly the names that are not aliases, so its
    size is the number of distinct names less the number of aliases; the
    canonical frequency of a name is the sum of the frequencies of the names
    that resolve to it; and the total of the frequencies is unchanged. This
    holds for the counter of the analyzers v2 and v3 and for the one of the
    first analyzer, whatever the similarity ratio is. *)
Theorem canonical_freq_merges_aliases (ratio : pystr -> pystr -> Q) (phase1 : list sheet_rec) :
  (let merged := merged_map ratio phase1 in
   let cf := col_freq phase1 in
   let canonical := canonical_freq merged cf in
   (forall c, c ∈ dict_keys canonical <-> c ∈ dict_keys cf /\ merged !! c = None)
   /\ (length canonical + size merged = length cf)%nat
   /\ (forall c, default 0%nat (dict_get c canonical)
                 = sum_list (filter (fun kv => canon merged kv.1 = c) cf).*2)
   /\ sum_list canonical.*2 = sum_list cf.*2)
  /\ (let merged := merged_map_v1 ratio phase1 in
      let cf := col_freq_v1 phase1 in
      let canonical := canonical_freq merged cf in
      (forall c, c ∈ dict_keys canonical <-> c ∈ dict_keys cf /\ merged !! c = None)
      /\ (length canonical + size merged = length cf)%nat
      /\ (forall c, default 0%nat (dict_get c canonical)
                    = sum_list (filter (fun kv => canon merged kv.1 = c) cf).*2)
      /\ sum_list canonical.*2 = sum_list cf.*2).
Proof.
  split.
  - unfold merged_map. rewrite col_freq_no_empty.
    apply canonical_freq_spec, col_freq_NoDup.
  - unfold merged_map_v1, norm_keys_v1.
    apply canonical_freq_spec, col_freq_v1_NoDup.
Qed.

(** ** Canonical column sets *)

Lemma dict_set_elem {K V} `{EqDecision K} (k : K) (v : V) d x :
  x ∈ dict_set k v d -> x = (k, v) \/ x ∈ d.
Proof.
  induction d as [|[k0 v0] d IH]; simpl.
  - intros ->%list_elem_of_singleton. by left.
  - destruct (decide (k = k0)) as [->|Hne].
    + intros [->|?]%elem_of_cons; [by left | right; by right].
    + intros [->|H]%elem_of_cons; [right; left|].
      destruct (IH H) as [?|?]; [by left | right; by right].
Qed.

(** The column set stored for a key is the canonical set of a sheet of
    that key. *)
Lemma sheet_colsets_entry merged phase1 key cols :
  (key, cols) ∈ sheet_colsets merged phase1 ->
  exists rec, rec ∈ phase1 /\ key = rec_key rec /\ cols = canonical_set merged rec.
Proof.
  unfold sheet_colsets. revert key cols.
  apply (foldl_preserves (fun d => forall key cols, (key, cols) ∈ d ->
           exists rec, rec ∈ phase1 /\ key = rec_key rec /\ cols = canonical_set merged rec)).
  { intros key cols H. by apply elem_of_nil in H. }
  intros d rec Hrec Hd key cols [[= -> ->]|H]%dict_set_elem; [|by apply Hd].
  exists rec. done.
Qed.

Lemma canonical_set_elem merged rec n :
  n ∈ canonical_set merged rec
  <-> exists m, m ∈ rec_norm_cols rec /\ m <> [] /\ n = canon merged m.
Proof.
  unfold canonical_set. rewrite to_set_elem.
  change (map (canon merged)) with (fmap (M:=list) (canon merged)).
  rewrite list_elem_of_fmap.
  split.
  - intros (m & -> & [Hm Hin]%list_elem_of_filter). exists m. by destruct m.
  - intros (m & Hin & Hm & ->). exists m. split; [done|].
    apply list_elem_of_filter. by destruct m.
Qed.

(** X5. After the alias map is applied, no alias and no empty name is left
    in the column set of any sheet: every name of a column set resolves to
    itself. This holds for the column sets of the analyzers v2 and v3 with
    the alias map built from the same sheets. *)
Theorem colsets_hold_canonical_names (ratio : pystr -> pystr -> Q) (phase1 : list sheet_rec) :
  Forall (fun kc =>
            Forall (fun n => merged_map ratio phase1 !! n = None /\ n <> []
                             /\ canon (merged_map ratio phase1) n = n) kc.2)
         (sheet_colsets (merged_map ratio phase1) phase1).
Proof.
  apply Forall_forall. intros [key cols] Hin. apply Forall_forall. intros n Hn. simpl in Hn.
  apply sheet_colsets_entry in Hin as (rec & _ & _ & ->).
  apply canonical_set_elem in Hn as (m & Hm & Hne & ->).
  assert (Hnd : NoDup (norm_keys phase1)) by apply norm_keys_NoDup.
  assert (H : merged_map ratio phase1 !! canon (merged_map ratio phase1) m = None
              /\ canon (merged_map ratio phase1) m <> []).
  { unfold canon, merged_map.
    destruct (merge_names ratio (norm_keys phase1) !! m) as [c|] eqn:E; simpl.
    - split; [by eapply merge_names_no_chain|].
      apply merge_names_range in E; [|done].
      unfold norm_keys in E. apply list_elem_of_filter in E as [E _]. by destruct c.
    - done. }
  destruct H as [H1 H2]. split; [done|]. split; [done|].
  unfold canon at 1. by rewrite H1.
Qed.


(** ** Clustering: the bookkeeping *)

Lemma jaccard_common (t : Q) (a b : list pystr) :
  (0 < t)%Q -> Qle_bool t (jaccard a b) = true -> exists x, x ∈ a /\ x ∈ b.
Proof.
  intros Ht H. apply Qle_bool_iff in H.
  destruct (list_intersection a b) as [|x l] eqn:E.
  - exfalso. assert (H0 : (jaccard a b == 0)%Q).
    { apply jaccard_zero. intros x Ha Hb.
      assert (Hx : x ∈ list_intersection a b) by by apply list_elem_of_intersection.
      rewrite E in Hx. by apply elem_of_nil in Hx. }
    rewrite H0 in H. lra.
  - exists x. apply list_elem_of_intersection. rewrite E. left.
Qed.

Lemma name_group_facts colsets representative mems :
  representative <> [] ->
  (forall x, x ∈ (name_group colsets representative mems).2
             <-> exists m, m ∈ (name_group colsets representative mems).1
                           /\ x ∈ colset_of colsets m)
  /\ (forall m, m ∈ (name_group colsets representative mems).1 ->
                colset_of colsets m <> []).
Proof.
  intros Hrep. unfold name_group.
  apply (foldl_preserves (fun gu =>
    (forall x, x ∈ gu.2 <-> exists m, m ∈ gu.1 /\ x ∈ colset_of colsets m)
    /\ (forall m, m ∈ gu.1 -> colset_of colsets m <> []))).
  { simpl. split.
    - intros x. split; [by intros ?%elem_of_nil | by intros (m & ?%elem_of_nil & _)].
    - intros m ?%elem_of_nil. done. }
  intros gu m _ [Hu Hne]. unfold name_group_step.
  destruct (Qle_bool _ _ || set_eqb _ _) eqn:Hc; [|done]. simpl. split.
  - intros x. rewrite list_elem_of_union, Hu. split.
    + intros [(m' & Hm' & Hx)|Hx].
      * exists m'. split; [apply elem_of_app; by left | done].
      * exists m. split; [apply elem_of_app; right; left | done].
    + intros (m' & [Hm'| ->%list_elem_of_singleton]%elem_of_app & Hx);
        [left; eauto | by right].
  - intros m' [Hm'| ->%list_elem_of_singleton]%elem_of_app; [by apply Hne|].
    apply orb_true_iff in Hc as [Hc|Hc].
    + apply (jaccard_common NAME_GROUP_OVERLAP) in Hc as (x & _ & Hx); [|done].
      intros E. rewrite E in Hx. by apply elem_of_nil in Hx.
    + rewrite set_eqb_spec in Hc. intros E. rewrite E in Hc.
      destruct representative as [|x r]; [done|].
      assert (Hx : x ∈ []) by (apply Hc; left). by apply elem_of_nil in Hx.
Qed.

Lemma seq_snoc_one n : seq 1 n ++ [S n] = seq 1 (S n).
Proof. by rewrite seq_S. Qed.

(** Appending a cluster with the next id. *)
Lemma cstate_wf_snoc colsets gs st a cl :
  cstate_wf colsets gs st ->
  cluster_ok colsets gs cl ->
  (forall k c, a !! k = Some c ->
     (k ∈ members cl /\ c = S (cid st)) \/ assigned st !! k = Some c) ->
  cstate_wf colsets gs
    {| assigned := a; clusters := clusters st ++ [(S (cid st), cl)]; cid := S (cid st) |}.
Proof.
  intros (Hids & Has & Hok) Hcl Ha. split; [|split]; cbn [assigned clusters cid].
  - rewrite map_app, Hids. apply seq_snoc_one.
  - intros k c [[Hk ->]|Hk]%Ha.
    + exists cl. split; [apply elem_of_app; right; left | done].
    + destruct (Has k c Hk) as (cl' & Hin & Hm). exists cl'.
      split; [apply elem_of_app; by left | done].
  - apply Forall_app. split; [done|]. by constructor.
Qed.

Lemma phaseA_step_wf colsets gs st g :
  g ∈ gs -> cstate_wf colsets gs st -> cstate_wf colsets gs (phaseA_step colsets st g).
Proof.
  intros Hg Hwf. unfold phaseA_step.
  destruct (length g.2 <? 2)%nat; [done|].
  destruct (is_empty_set _) eqn:Hrep; [done|].
  set (rep := colset_of colsets (default [] (head g.2))) in *.
  assert (Hne : rep <> []) by (by destruct rep).
  destruct (name_group_facts colsets rep g.2 Hne) as [Hu Hnamed].
  pose proof (name_group_sublist colsets rep g.2) as Hsub.
  set (gu := name_group colsets rep g.2) in *.
  destruct (2 <=? length gu.1)%nat eqn:Hlen; [|done].
  apply cstate_wf_snoc; [done | |].
  - split; [|split]; simpl.
    + exact Hu.
    + intros m Hm Hc. by destruct (Hnamed m Hm).
    + intros _. split; [by apply Nat.leb_le in Hlen|].
      exists g. split; [done|]. intros m Hm. by eapply elem_of_sublist.
  - intros k c. rewrite assign_all_lookup. simpl.
    destruct (decide (k ∈ gu.1)); [intros [= <-]; by left | by right].
Qed.

Lemma phaseA_wf colsets gs st l :
  (forall g, g ∈ l -> g ∈ gs) ->
  cstate_wf colsets gs st -> cstate_wf colsets gs (foldl (phaseA_step colsets) st l).
Proof.
  intros Hl Hwf. apply (foldl_preserves (cstate_wf colsets gs)); [done|].
  intros s g Hg Hs. apply phaseA_step_wf; auto.
Qed.

Lemma phaseB_step_j_wf colsets remaining c a0 k js j :
  jstate_wf colsets c a0 k js ->
  jstate_wf colsets c a0 k (phaseB_step_j colsets remaining c js j).
Proof.
  intros Hjs. unfold phaseB_step_j.
  destruct (remaining !! j) as [kj|] eqn:Hj; [|done].
  case_decide as Hin; [done|].
  destruct (Qle_bool _ _) eqn:Hsim; [|done].
  destruct Hjs as ((rest & Hm) & Hu & Hnamed & Has & Hmono & Hk).
  apply (jaccard_common CLUSTER_OVERLAP) in Hsim as (x & Hx1 & Hx2); [|done].
  split; [|split; [|split; [|split; [|split]]]]; simpl.
  - exists (rest ++ [kj]). by rewrite Hm.
  - intros y. rewrite list_elem_of_union, Hu. split.
    + intros [(m' & Hm' & Hy)|Hy].
      * exists m'. split; [apply elem_of_app; by left | done].
      * exists kj. split; [apply elem_of_app; right; left | done].
    + intros (m' & [Hm'| ->%list_elem_of_singleton]%elem_of_app & Hy);
        [left; eauto | by right].
  - intros m [Hin'| ->%list_elem_of_singleton]%elem_of_app Hc.
    + exfalso. pose proof (Hnamed m Hin' Hc) as Hone.
      apply Hu in Hx1 as (m' & Hm' & Hx1). rewrite Hone in Hm'.
      apply list_elem_of_singleton in Hm' as ->. rewrite Hc in Hx1.
      by apply elem_of_nil in Hx1.
    + rewrite Hc in Hx2. by apply elem_of_nil in Hx2.
  - intros key c'. destruct (decide (key = kj)) as [->|Hne].
    + rewrite lookup_insert_eq. intros [= <-]. left.
      split; [apply elem_of_app; right; left | done].
    + rewrite lookup_insert_ne by done. intros [[? ?]|?]%Has; [left | by right].
      split; [apply elem_of_app; by left | done].
  - intros key Hkey%Hmono. destruct (decide (key = kj)) as [->|Hne].
    + by rewrite lookup_insert_eq.
    + by rewrite lookup_insert_ne.
  - destruct (decide (k = kj)) as [->|Hne].
    + by rewrite lookup_insert_eq.
    + by rewrite lookup_insert_ne.
Qed.

Lemma jstate_wf_seed colsets c a0 k :
  jstate_wf colsets c a0 k
    {| j_members := [k]; j_ccols := to_set (colset_of colsets k);
       j_assigned := <[k := c]> a0 |}.
Proof.
  split; [|split; [|split; [|split; [|split]]]]; simpl.
  - by exists [].
  - intros x. rewrite to_set_elem. split.
    + intros Hx. exists k. split; [left | done].
    + by intros (m & ->%list_elem_of_singleton & Hx).
  - by intros m ->%list_elem_of_singleton _.
  - intros key c'. destruct (decide (key = k)) as [->|Hne].
    + rewrite lookup_insert_eq. intros [= <-]. left. split; [left | done].
    + rewrite lookup_insert_ne by done. by right.
  - intros key Hkey. destruct (decide (key = k)) as [->|Hne].
    + by rewrite lookup_insert_eq.
    + by rewrite lookup_insert_ne.
  - by rewrite lookup_insert_eq.
Qed.

Lemma phaseB_step_i_wf colsets gs remaining st i :
  cstate_wf colsets gs st ->
  cstate_wf colsets gs (phaseB_step_i colsets remaining st i)
  /\ (forall key, is_Some (assigned st !! key) ->
                  is_Some (assigned (phaseB_step_i colsets remaining st i) !! key))
  /\ (forall k, remaining !! i = Some k ->
                is_Some (assigned (phaseB_step_i colsets remaining st i) !! k)).
Proof.
  intros Hwf. unfold phaseB_step_i.
  destruct (remaining !! i) as [k|] eqn:Hi; [|by split_and!].
  case_decide as Hin; [split_and!; [done | auto | by intros k' [= <-]]|].
  set (c := S (cid st)).
  set (js0 := {| j_members := [k]; j_ccols := to_set (colset_of colsets k);
                 j_assigned := <[k := c]> (assigned st) |}).
  assert (Hjs : jstate_wf colsets c (assigned st) k
                  (foldl (phaseB_step_j colsets remaining c) js0
                         (seq (S i) (length remaining - S i)))).
  { apply (foldl_preserves (jstate_wf colsets c (assigned st) k)).
    - apply jstate_wf_seed.
    - intros js j _ Hjs. by apply phaseB_step_j_wf. }
  set (js := foldl _ js0 _) in *.
  destruct Hjs as ((rest & Hm) & Hu & Hnamed & Has & Hmono & Hk).
  split; [|split]; simpl.
  - apply cstate_wf_snoc; [done | | done].
    split; [|split]; simpl; [done | done | done].
  - exact Hmono.
  - by intros k' [= <-].
Qed.

Lemma phaseB_wf colsets gs remaining st :
  cstate_wf colsets gs st ->
  cstate_wf colsets gs (phaseB colsets remaining st)
  /\ (forall key, is_Some (assigned st !! key) \/ key ∈ remaining ->
                  is_Some (assigned (phaseB colsets remaining st) !! key)).
Proof.
  intros Hwf. unfold phaseB.
  pose proof (foldl_range_inv
    (fun i s =>
       cstate_wf colsets gs s
       /\ (forall key, is_Some (assigned st !! key) -> is_Some (assigned s !! key))
       /\ (forall i' k, (i' < i)%nat -> remaining !! i' = Some k ->
                        is_Some (assigned s !! k)))
    (phaseB_step_i colsets remaining) 0 (length remaining) st) as H.
  destruct H as (Hwf' & Hmono & Hcov).
  - split_and!; [done | auto | intros; lia].
  - intros i s Hi (Hs & Hmono & Hcov).
    destruct (phaseB_step_i_wf colsets gs remaining s i Hs) as (H1 & H2 & H3).
    split_and!; [done | auto |].
    intros i' k Hi' Hk. destruct (decide (i' = i)) as [->|Hne]; [by apply H3|].
    apply H2, (Hcov i'); [lia | done].
  - split; [done|]. intros key [Hk|Hk]; [by apply Hmono|].
    apply list_elem_of_lookup in Hk as [i Hi].
    apply (Hcov i); [|done]. simpl. by eapply lookup_lt_Some.
Qed.

Lemma cstate0_wf colsets gs : cstate_wf colsets gs cstate0.
Proof.
  split; [|split]; simpl; [done | | constructor].
  intros k c. by rewrite lookup_empty.
Qed.

Lemma cluster_sheets_wf merged phase1 :
  cstate_wf (sheet_colsets merged phase1) (sheet_name_groups phase1)
            (cluster_sheets merged phase1)
  /\ forall rec, rec ∈ phase1 ->
       is_Some (assigned (cluster_sheets merged phase1) !! rec_key rec).
Proof.
  unfold cluster_sheets.
  set (colsets := sheet_colsets merged phase1).
  set (gs := sheet_name_groups phase1).
  assert (HA : cstate_wf colsets gs (foldl (phaseA_step colsets) cstate0 gs)).
  { apply phaseA_wf; [done | apply cstate0_wf]. }
  set (stA := foldl (phaseA_step colsets) cstate0 gs) in *.
  destruct (phaseB_wf colsets gs
              (filter (fun k => ~ is_Some (assigned stA !! k)) (dict_keys colsets))
              stA HA) as [HB Hcov].
  split; [done|]. intros rec Hrec. apply Hcov.
  destruct (decide (is_Some (assigned stA !! rec_key rec))) as [|Hn]; [by left|].
  right. apply list_elem_of_filter. split; [done|].
  unfold colsets. apply sheet_colsets_keys.
  change (map rec_key phase1) with (rec_key <$> phase1). by apply list_elem_of_fmap_2.
Qed.

Lemma cluster_sheets_v1_wf merged phase1 :
  cstate_wf (sheet_colsets_v1 merged phase1) []
            (cluster_sheets_v1 merged phase1)
  /\ forall rec, rec ∈ phase1 ->
       is_Some (assigned (cluster_sheets_v1 merged phase1) !! rec_key rec).
Proof.
  unfold cluster_sheets_v1.
  destruct (phaseB_wf (sheet_colsets_v1 merged phase1) []
              (dict_keys (sheet_colsets_v1 merged phase1)) cstate0
              (cstate0_wf _ _)) as [HB Hcov].
  split; [done|]. intros rec Hrec. apply Hcov. right.
  apply sheet_colsets_v1_keys.
  change (map rec_key phase1) with (rec_key <$> phase1). by apply list_elem_of_fmap_2.
Qed.

Lemma seq_1_NoDup n : NoDup (seq 1 n).
Proof. apply NoDup_seq. Qed.

(** What the bookkeeping gives for the lookup of the master index. *)
Lemma cstate_wf_lookup colsets gs st key :
  cstate_wf colsets gs st -> is_Some (assigned st !! key) ->
  exists c cl, assigned st !! key = Some c /\ (1 <= c <= length (clusters st))%nat
               /\ cluster_of st key = Some cl /\ key ∈ members cl.
Proof.
  intros (Hids & Has & _) [c Hc].
  destruct (Has key c Hc) as (cl & Hin & Hm).
  exists c, cl. split; [done|].
  assert (Hcin : c ∈ seq 1 (cid st)).
  { rewrite <- Hids. change (map fst (clusters st)) with ((clusters st).*1).
    apply list_elem_of_fmap. by exists (c, cl). }
  apply elem_of_seq in Hcin.
  assert (Hlen : length (clusters st) = cid st).
  { rewrite <- (length_map fst), Hids. apply length_seq. }
  split; [lia|]. split; [|done].
  unfold cluster_of. rewrite Hc. simpl. apply dict_elem_get; [|done].
  unfold dict_keys. rewrite Hids. apply seq_1_NoDup.
Qed.

(** X6. The two records of the clustering agree: cluster ids are
    1, 2, ... in the order in which the clusters are formed, and [assigned]
    sends every profiled sheet to the id of a cluster that lists the sheet.
    So the lookup [clusters.get(assigned.get(key, 0), {})] of the master
    index never falls back on its defaults: it finds, for every sheet, a
    cluster of which the sheet is a member. This holds for the clustering
    of v3 and for the single-pass clustering of the earlier analyzers,
    whatever the sheets are. *)
Theorem master_index_finds_cluster (merged : gmap pystr pystr) (phase1 : list sheet_rec) :
  (let st := cluster_sheets merged phase1 in
   map fst (clusters st) = seq 1 (length (clusters st))
   /\ cid st = length (clusters st)
   /\ Forall (fun rec =>
        exists c cl, assigned st !! rec_key rec = Some c
                     /\ (1 <= c <= length (clusters st))%nat
                     /\ cluster_of st (rec_key rec) = Some cl
                     /\ rec_key rec ∈ members cl) phase1)
  /\ (let st := cluster_sheets_v1 merged phase1 in
      map fst (clusters st) = seq 1 (length (clusters st))
      /\ cid st = length (clusters st)
      /\ Forall (fun rec =>
           exists c cl, assigned st !! rec_key rec = Some c
                        /\ (1 <= c <= length (clusters st))%nat
                        /\ cluster_of st (rec_key rec) = Some cl
                        /\ rec_key rec ∈ members cl) phase1).
Proof.
  assert (Hgen : forall colsets gs st,
    cstate_wf colsets gs st ->
    (forall rec, rec ∈ phase1 -> is_Some (assigned st !! rec_key rec)) ->
    map fst (clusters st) = seq 1 (length (clusters st))
    /\ cid st = length (clusters st)
    /\ Forall (fun rec =>
         exists c cl, assigned st !! rec_key rec = Some c
                      /\ (1 <= c <= length (clusters st))%nat
                      /\ cluster_of st (rec_key rec) = Some cl
                      /\ rec_key rec ∈ members cl) phase1).
  { intros colsets gs st Hwf Hcov.
    assert (Hlen : length (clusters st) = cid st).
    { destruct Hwf as (Hids & _). rewrite <- (length_map fst), Hids. apply length_seq. }
    split; [|split].
    - rewrite Hlen. apply Hwf.
    - done.
    - apply Forall_forall. intros rec Hrec.
      by apply (cstate_wf_lookup colsets gs), Hcov. }
  split.
  - destruct (cluster_sheets_wf merged phase1) as [Hwf Hcov]. by eapply Hgen.
  - destruct (cluster_sheets_v1_wf merged phase1) as [Hwf Hcov]. by eapply Hgen.
Qed.

(** X7. The column set recorded for a cluster, from which the cluster is
    classified, is the union of the column sets of its members: it holds
    every name of every member and no other name. This holds for the
    clusters formed by sheet name and for those of the residual pass, in v3
    and in the earlier analyzers. *)
Theorem cluster_union_cols (merged : gmap pystr pystr) (phase1 : list sheet_rec) :
  Forall (fun c => forall x,
            x ∈ union_cols c.2
            <-> exists m, m ∈ members c.2
                          /\ x ∈ colset_of (sheet_colsets merged phase1) m)
         (clusters (cluster_sheets merged phase1))
  /\ Forall (fun c => forall x,
               x ∈ union_cols c.2
               <-> exists m, m ∈ members c.2
                             /\ x ∈ colset_of (sheet_colsets_v1 merged phase1) m)
            (clusters (cluster_sheets_v1 merged phase1)).
Proof.
  split.
  - destruct (cluster_sheets_wf merged phase1) as [(_ & _ & Hok) _].
    eapply Forall_impl; [exact Hok|]. intros c (H & _). exact H.
  - destruct (cluster_sheets_v1_wf merged phase1) as [(_ & _ & Hok) _].
    eapply Forall_impl; [exact Hok|]. intros c (H & _). exact H.
Qed.

Lemma sheet_name_groups_item phase1 g :
  g ∈ sheet_name_groups phase1 ->
  forall m, m ∈ g.2 -> exists rec, rec ∈ phase1 /\ rec_key rec = m /\ rec_sheet rec = g.1.
Proof.
  destruct g as [sname ks]. intros Hin m Hm. simpl in *.
  apply (group_fold_item rec_sheet rec_key (fun _ => true)) in Hin as [-> _].
  unfold group_hits in Hm. apply list_elem_of_fmap in Hm as (rec & -> & Hrec).
  apply list_elem_of_filter in Hrec as [[_ Hs] Hrec]. eauto.
Qed.

(** X8. A cluster that v3 forms by sheet name has at least two members,
    and its members are sheets of one and the same sheet name. The earlier
    analyzers form no cluster by sheet name. *)
Theorem name_clusters_share_sheet_name (merged : gmap pystr pystr) (phase1 : list sheet_rec) :
  Forall (fun c =>
            via c.2 = ViaSheetName ->
            (2 <= length (members c.2))%nat
            /\ exists sname, forall m, m ∈ members c.2 ->
                 exists rec, rec ∈ phase1 /\ rec_key rec = m /\ rec_sheet rec = sname)
         (clusters (cluster_sheets merged phase1))
  /\ Forall (fun c => via c.2 = ViaJaccard) (clusters (cluster_sheets_v1 merged phase1)).
Proof.
  split.
  - destruct (cluster_sheets_wf merged phase1) as [(_ & _ & Hok) _].
    eapply Forall_impl; [exact Hok|]. intros c (_ & _ & H) Hvia.
    destruct (H Hvia) as (Hlen & g & Hg & Hmem). split; [done|].
    exists g.1. intros m Hm. by apply (sheet_name_groups_item phase1 g), Hmem.
  - destruct (cluster_sheets_v1_wf merged phase1) as [(_ & _ & Hok) _].
    eapply Forall_impl; [exact Hok|]. intros c (_ & _ & H).
    destruct (via c.2) eqn:E; [|done].
    destruct (H eq_refl) as (_ & g & Hg & _). by apply elem_of_nil in Hg.
Qed.

(** X9. A sheet without a named column is never clustered with another
    sheet: if the column set of a member of a cluster is empty, the
    cluster has this one member. (The Jaccard similarity of the phased
    analyzers is 0 as soon as one of the two sets is empty, two empty sets
    included.) *)
Theorem unnamed_sheets_stay_alone (merged : gmap pystr pystr) (phase1 : list sheet_rec) :
  Forall (fun c => forall m,
            m ∈ members c.2 -> colset_of (sheet_colsets merged phase1) m = [] ->
            members c.2 = [m])
         (clusters (cluster_sheets merged phase1))
  /\ Forall (fun c => forall m,
               m ∈ members c.2 -> colset_of (sheet_colsets_v1 merged phase1) m = [] ->
               members c.2 = [m])
            (clusters (cluster_sheets_v1 merged phase1)).
Proof.
  split.
  - destruct (cluster_sheets_wf merged phase1) as [(_ & _ & Hok) _].
    eapply Forall_impl; [exact Hok|]. intros c (_ & H & _). exact H.
  - destruct (cluster_sheets_v1_wf merged phase1) as [(_ & _ & Hok) _].
    eapply Forall_impl; [exact Hok|]. intros c (_ & H & _). exact H.
Qed.


(** ** Classification of a cluster *)

(** [max] with a key returns the first element of greatest key. *)
Lemma py_max_by_first {A} (key : A -> nat) (x : A) (rest : list A) :
  exists s1 s2, x :: rest = s1 ++ py_max_by key x rest :: s2
    /\ (forall y, y ∈ s1 -> (key y < key (py_max_by key x rest))%nat)
    /\ (forall y, y ∈ s2 -> (key y <= key (py_max_by key x rest))%nat).
Proof.
  enough (H : forall pre best post,
    (forall y, y ∈ pre -> (key y < key best)%nat) ->
    (forall y, y ∈ post -> (key y <= key best)%nat) ->
    exists s1 s2, pre ++ best :: post ++ rest = s1 ++ py_max_by key best rest :: s2
      /\ (forall y, y ∈ s1 -> (key y < key (py_max_by key best rest))%nat)
      /\ (forall y, y ∈ s2 -> (key y <= key (py_max_by key best rest))%nat)).
  { apply (H [] x []); intros y Hy; by apply elem_of_nil in Hy. }
  induction rest as [|z rest IH]; intros pre best post Hpre Hpost.
  - exists pre, post. rewrite app_nil_r. done.
  - cbn [py_max_by]. destruct (key best <? key z)%nat eqn:E.
    + apply Nat.ltb_lt in E.
      destruct (IH (pre ++ best :: post) z []) as (s1 & s2 & Heq & H1 & H2).
      * intros y [Hy|[->|Hy]%elem_of_cons]%elem_of_app.
        -- pose proof (Hpre y Hy). lia.
        -- done.
        -- pose proof (Hpost y Hy). lia.
      * intros y Hy. by apply elem_of_nil in Hy.
      * exists s1, s2. split; [|done]. rewrite <- Heq. by rewrite <- app_assoc.
    + apply Nat.ltb_ge in E.
      destruct (IH pre best (post ++ [z])) as (s1 & s2 & Heq & H1 & H2).
      * done.
      * intros y [Hy| ->%list_elem_of_singleton]%elem_of_app; [by apply Hpost | done].
      * exists s1, s2. split; [|done]. rewrite <- Heq. by rewrite <- app_assoc.
Qed.

Lemma omap_split {A B} (f : A -> option B) (l : list A) s1 b s2 :
  omap f l = s1 ++ b :: s2 ->
  exists l1 a l2, l = l1 ++ a :: l2 /\ f a = Some b /\ omap f l1 = s1 /\ omap f l2 = s2.
Proof.
  revert s1. induction l as [|x l IH]; intros s1 H; [by destruct s1|].
  cbn [omap list_omap] in H. destruct (f x) as [y|] eqn:E.
  - destruct s1 as [|y' s1]; simpl in H.
    + injection H as -> H. exists [], x, l. done.
    + injection H as -> H. destruct (IH s1 H) as (l1 & a & l2 & -> & Ha & H1 & H2).
      exists (x :: l1), a, l2. split; [done|]. split; [done|]. split; [|done].
      cbn [omap list_omap]. by rewrite E, H1.
  - destruct (IH s1 H) as (l1 & a & l2 & -> & Ha & H1 & H2).
    exists (x :: l1), a, l2. split; [done|]. split; [done|]. split; [|done].
    cbn [omap list_omap]. by rewrite E, H1.
Qed.

Lemma max_sig_value : max_sig = 23%nat.
Proof. vm_compute. reflexivity. Qed.

(** The labels of [SIGNALS] are pairwise distinct, as the keys of a
    dictionary are, and none is the label of the unclassified. *)
Lemma SIGNALS_labels : NoDup SIGNALS.*1 /\ Forall (fun ls => ls.1 <> unknown_label) SIGNALS.
Proof. split; decide_by_compute. Qed.

Lemma signal_hits_spec cols ls :
  signal_hits cols ls
  = if is_nil (list_intersection cols (to_set ls.2)) then None
    else Some (ls.1, list_intersection cols (to_set ls.2)).
Proof. reflexivity. Qed.

Lemma confidence_value (h : nat) :
  Qfloor (frac h max_sig * 100) = (100 * Z.of_nat h / 23)%Z.
Proof.
  rewrite max_sig_value. unfold frac, Qmult, Qfloor. simpl Qnum. simpl Qden.
  f_equal. lia.
Qed.

(** X10. The verdict of [classify_cluster] in v3. If no name of the
    cluster is in any signal set, the cluster is labelled as unknown with
    confidence 20. Otherwise the label is the one of a signal set that the
    cluster hits, with the greatest number of hits among all signal sets
    and, among those of that number, the first of [SIGNALS]; the
    confidence is 40 plus the integer part of 100 * hits / 23, capped at
    95, so it lies between 44 and 95; and the label is not the one of the
    unclassified. *)
Theorem classify_cluster_verdict (lower : pystr -> pystr) (union_cols : list pystr) :
  let v := classify_cluster lower union_cols in
  let hits := fun sig : list pystr =>
                list_intersection (to_set (lower <$> union_cols)) (to_set sig) in
  ((forall ls, ls ∈ SIGNALS -> hits ls.2 = [])
   /\ v_label v = unknown_label /\ v_conf v = 20%Z /\ v_evidence v = [NoStrongMatch])
  \/ (exists before sig after,
        SIGNALS = before ++ (v_label v, sig) :: after
        /\ hits sig <> []
        /\ (forall ls, ls ∈ before -> (length (hits ls.2) < length (hits sig))%nat)
        /\ (forall ls, ls ∈ after -> (length (hits ls.2) <= length (hits sig))%nat)
        /\ v_conf v = Z.min 95 (100 * Z.of_nat (length (hits sig)) / 23 + 40)
        /\ (44 <= v_conf v <= 95)%Z
        /\ v_label v <> unknown_label).
Proof.
  intros v hits. unfold v, classify_cluster.
  set (cols := to_set (lower <$> union_cols)).
  destruct (omap (signal_hits cols) SIGNALS) as [|s rest] eqn:E.
  - left. split; [|done]. intros ls Hls.
    destruct (hits ls.2) as [|x l] eqn:Eh; [done|]. exfalso.
    assert (Hin : (ls.1, hits ls.2) ∈ omap (signal_hits cols) SIGNALS).
    { apply list_elem_of_omap. exists ls. split; [done|].
      rewrite signal_hits_spec.
      change (list_intersection cols (to_set ls.2)) with (hits ls.2).
      by rewrite Eh. }
    rewrite E in Hin. by apply elem_of_nil in Hin.
  - right. cbn [v_label v_conf].
    destruct (py_max_by_first (fun s : pystr * list pystr => length s.2) s rest)
      as (s1 & s2 & Heq & H1 & H2).
    set (best := py_max_by _ s rest) in *.
    rewrite <- E in Heq.
    apply omap_split in Heq as (l1 & a & l2 & HS & Ha & Hl1 & Hl2).
    rewrite signal_hits_spec in Ha.
    change (list_intersection cols (to_set a.2)) with (hits a.2) in Ha.
    destruct (hits a.2) as [|x0 h0] eqn:Eh; [done|]. simpl in Ha. injection Ha as Ha.
    assert (Hb1 : best.1 = a.1) by (by rewrite <- Ha).
    assert (Hb2 : best.2 = hits a.2) by (by rewrite <- Ha, Eh).
    assert (Hside : forall (side : list (pystr * list pystr)) sc,
      (forall y : pystr * list pystr, y ∈ omap (signal_hits cols) side ->
                 (length y.2 < length best.2 + sc)%nat) ->
      (0 < length best.2 + sc)%nat ->
      forall ls, ls ∈ side -> (length (hits ls.2) < length best.2 + sc)%nat).
    { intros side sc Hy Hpos ls Hls.
      destruct (hits ls.2) as [|x l] eqn:Ehl; [simpl; lia|].
      rewrite <- Ehl. apply (Hy (ls.1, hits ls.2)).
      apply list_elem_of_omap. exists ls. split; [done|].
      rewrite signal_hits_spec.
      change (list_intersection cols (to_set ls.2)) with (hits ls.2).
      by rewrite Ehl. }
    assert (Hpos : (0 < length best.2)%nat) by (rewrite Hb2, Eh; simpl; lia).
    exists l1, a.2, l2. rewrite Hb1, Hb2 in *.
    split; [by destruct a|]. split; [by rewrite Eh|].
    split; [|split; [|split; [|split]]].
    + intros ls Hls. pose proof (Hside l1 0%nat) as H. rewrite Nat.add_0_r in H.
      apply H; [|done|done]. rewrite Hl1. exact H1.
    + intros ls Hls. pose proof (Hside l2 1%nat) as H.
      enough (length (hits ls.2) < length (hits a.2) + 1)%nat by lia.
      apply H; [|lia|done]. rewrite Hl2. intros y Hy. pose proof (H2 y Hy). lia.
    + by rewrite confidence_value.
    + rewrite confidence_value.
      assert (4 <= 100 * Z.of_nat (length (hits a.2)) / 23)%Z.
      { apply Z.div_le_lower_bound; lia. }
      lia.
    + destruct SIGNALS_labels as [_ Hl]. rewrite Forall_forall in Hl.
      apply (Hl a). rewrite HS. apply elem_of_app. right. left.
Qed.


(** ** Counters *)

(** A [Counter] filled by counting the elements of a list one by one. *)
Lemma tally_get (l : list pystr) acc k :
  default 0%nat (dict_get k (foldl (fun cf t => counter_incr t cf) acc l))
  = (default 0%nat (dict_get k acc) + occurrences k l)%nat.
Proof.
  revert acc. induction l as [|t l IH]; intros acc.
  { unfold occurrences. simpl. lia. }
  cbn [foldl]. rewrite IH, counter_incr_get, occurrences_cons.
  destruct (decide (k = t)); lia.
Qed.

Lemma tally_sum (l : list pystr) acc :
  sum_list (foldl (fun cf t => counter_incr t cf) acc l).*2
  = (sum_list acc.*2 + length l)%nat.
Proof.
  revert acc. induction l as [|t l IH]; intros acc; [simpl; lia|].
  cbn [foldl]. rewrite IH. cbn [length].
  pose proof (dict_set_sum t (S (default 0%nat (dict_get t acc))) acc) as H.
  unfold counter_incr. lia.
Qed.

Lemma counter_incr_pos t (cf : list (pystr * nat)) :
  Forall (fun kv => (0 < kv.2)%nat) cf ->
  Forall (fun kv => (0 < kv.2)%nat) (counter_incr t cf).
Proof.
  unfold counter_incr.
  generalize (S (default 0%nat (dict_get t cf))) (Nat.lt_0_succ (default 0%nat (dict_get t cf))).
  intros v Hv H. induction H as [|[k0 v0] d Hk Hd IH]; simpl.
  - by constructor.
  - destruct (decide (t = k0)); constructor; auto.
Qed.

Lemma tally_pos (l : list pystr) acc :
  Forall (fun kv => (0 < kv.2)%nat) acc ->
  Forall (fun kv => (0 < kv.2)%nat) (foldl (fun cf t => counter_incr t cf) acc l).
Proof.
  intros H. apply (foldl_preserves (Forall (fun kv => (0 < kv.2)%nat))); [done|].
  intros cf t _ Hcf. by apply counter_incr_pos.
Qed.

Lemma tally_NoDup (l : list pystr) acc :
  NoDup (dict_keys acc) -> NoDup (dict_keys (foldl (fun cf t => counter_incr t cf) acc l)).
Proof.
  intros H. apply (foldl_preserves (fun cf => NoDup (dict_keys cf))); [done|].
  intros cf t _ Hcf. by apply dict_keys_set_NoDup.
Qed.

Lemma occurrences_pos k (l : list pystr) : (0 < occurrences k l)%nat <-> k ∈ l.
Proof.
  unfold occurrences. split.
  - intros H. destruct (filter _ l) as [|x l'] eqn:E; [simpl in H; lia|].
    assert (Hx : x ∈ filter (fun n => n = k) l) by (rewrite E; left).
    apply list_elem_of_filter in Hx as [-> Hx]. done.
  - intros H. assert (Hk : k ∈ filter (fun n => n = k) l) by by apply list_elem_of_filter.
    destruct (filter _ l); [by apply elem_of_nil in Hk | simpl; lia].
Qed.

Lemma occurrences_two k k' (l : list pystr) :
  k <> k' -> (occurrences k l + occurrences k' l <= length l)%nat.
Proof.
  intros Hne. induction l as [|x l IH]; [done|].
  rewrite !occurrences_cons. cbn [length].
  destruct (decide (k = x)), (decide (k' = x)); subst; try done; lia.
Qed.

Lemma occurrences_le k (l : list pystr) : (occurrences k l <= length l)%nat.
Proof. apply length_filter. Qed.

(** Membership in a list that is written out. *)
Ltac in_list := repeat first [apply list_elem_of_here | apply list_elem_of_further].

(** ** Type inference of a column *)

Section InferDtypeFacts.

Variables rx_integer rx_decimal rx_boolean rx_date rx_currency : pystr -> bool.

Local Abbreviation vt := (value_type rx_integer rx_decimal rx_boolean rx_date rx_currency).
Local Abbreviation counts_of :=
  (type_counts rx_integer rx_decimal rx_boolean rx_date rx_currency).

Lemma value_type_range v :
  vt v ∈ [t_integer; t_decimal; t_boolean; t_date; t_currency; t_string].
Proof.
  unfold value_type.
  destruct (rx_integer v); [in_list|]. destruct (rx_decimal v); [in_list|].
  destruct (rx_boolean v); [in_list|]. destruct (rx_date v); [in_list|].
  destruct (rx_currency v); in_list.
Qed.

Lemma value_type_proper v : vt v <> t_empty /\ vt v <> mixed.
Proof.
  pose proof (value_type_range v) as H.
  assert (Hall : Forall (fun t => t <> t_empty /\ t <> mixed)
                   [t_integer; t_decimal; t_boolean; t_date; t_currency; t_string]).
  { repeat constructor; discriminate. }
  rewrite Forall_forall in Hall. by apply Hall.
Qed.

Lemma type_counts_tally (sample : list pystr) :
  counts_of sample
  = foldl (fun cf t => counter_incr t cf) []
      (vt <$> filter (fun v => is_empty_str v = false) (strip <$> sample)).
Proof.
  unfold type_counts. generalize (@nil (pystr * nat)).
  induction sample as [|v sample IH]; intros acc; [done|].
  cbn [foldl]. rewrite IH, fmap_cons, filter_cons.
  destruct (is_empty_str (strip v)) eqn:E.
  - by rewrite decide_False by done.
  - by rewrite decide_True by done.
Qed.

(** X11. What [infer_dtype] answers, in terms of the values it counts
    (the first 200 non-missing cells, stripped, the empty ones left out).
    It answers "empty" exactly when there is no such value. A type that
    holds at least 60 per cent of the values is the answer. The answer
    "mixed" means that no type reaches 60 per cent and that two types at
    least are present. Any other answer is a type that is present and that
    no type outnumbers. The patterns that tell the types apart are
    parameters, so this holds for all three phased analyzers. *)
Theorem infer_dtype_dominant_type (ser : series) :
  let sample := typed_sample ser in
  let count := fun t => occurrences t (vt <$> sample) in
  let r := infer_dtype rx_integer rx_decimal rx_boolean rx_date rx_currency ser in
  (r = t_empty <-> sample = [])
  /\ (forall t, sample <> [] -> (6 * length sample <= 10 * count t)%nat -> r = t)
  /\ (r = mixed ->
      (forall t, (10 * count t < 6 * length sample)%nat)
      /\ exists t t', t <> t' /\ (0 < count t)%nat /\ (0 < count t')%nat)
  /\ (r <> t_empty -> r <> mixed ->
      (0 < count r)%nat /\ forall t, (count t <= count r)%nat)
  /\ r ∈ [t_empty; mixed; t_integer; t_decimal; t_boolean; t_date; t_currency; t_string].
Proof.
  intros sample count r.
  unfold r, infer_dtype.
  destruct (length (dropna ser) =? 0)%nat eqn:Elen.
  { apply Nat.eqb_eq in Elen.
    assert (Hs : sample = []).
    { unfold sample, typed_sample. destruct (dropna ser); [|done]. done. }
    split; [done|]. split; [by intros t Hne|]. split; [done|].
    split; [done | in_list]. }
  rewrite type_counts_tally. fold (typed_sample ser). fold sample.
  remember (foldl (fun cf t => counter_incr t cf) [] (vt <$> sample)) as counts eqn:Ecounts0.
  assert (Hget : forall t, default 0%nat (dict_get t counts) = count t).
  { intros t. rewrite Ecounts0, tally_get. simpl. done. }
  assert (Hsum : sum_list counts.*2 = length sample).
  { rewrite Ecounts0, tally_sum, length_fmap. simpl. done. }
  assert (Hpos : Forall (fun kv => (0 < kv.2)%nat) counts).
  { rewrite Ecounts0. apply tally_pos. constructor. }
  assert (Hnd : NoDup (dict_keys counts)).
  { rewrite Ecounts0. apply tally_NoDup, NoDup_nil_2. }
  assert (Hentry : forall kv, kv ∈ counts -> kv.2 = count kv.1 /\ (0 < count kv.1)%nat).
  { intros [t c] Hin. simpl. rewrite <- Hget.
    rewrite (dict_elem_get counts t c Hnd Hin). simpl.
    rewrite Forall_forall in Hpos. split; [done | apply (Hpos _ Hin)]. }
  assert (Hkey : forall t, (0 < count t)%nat -> exists c, (t, c) ∈ counts).
  { intros t Ht. rewrite <- Hget in Ht.
    destruct (dict_get t counts) as [c|] eqn:E; [|simpl in Ht; lia].
    exists c. by apply dict_get_elem. }
  clear Ecounts0. destruct counts as [|c0 rest].
  { assert (Hs : sample = []).
    { destruct sample; [done|]. simpl in Hsum. lia. }
    split; [done|]. split; [by intros t Hne|]. split; [done|].
    split; [done | in_list]. }
  destruct (py_max_by_first (@snd pystr nat) c0 rest) as (s1 & s2 & Heq & H1 & H2).
  set (top := py_max_by snd c0 rest) in *.
  assert (Htop : top ∈ c0 :: rest).
  { rewrite Heq. apply elem_of_app. right. left. }
  destruct (Hentry top Htop) as [Htc Htpos].
  assert (Hmax : forall t, (count t <= count top.1)%nat).
  { intros t. destruct (decide (0 < count t)%nat) as [Ht|]; [|lia].
    destruct (Hkey t Ht) as [c Hc]. destruct (Hentry _ Hc) as [Hcc _]. simpl in Hcc.
    rewrite <- Htc, <- Hcc. rewrite Heq in Hc.
    apply elem_of_app in Hc as [Hc|[<-|Hc]%elem_of_cons].
    - pose proof (H1 _ Hc). simpl in *. lia.
    - done.
    - apply (H2 _ Hc). }
  assert (Hlen : (0 < length sample)%nat).
  { rewrite <- Hsum. rewrite Forall_forall in Hpos.
    pose proof (Hpos c0 ltac:(left)). rewrite fmap_cons. simpl. lia. }
  assert (Hsne : sample <> []) by (intros E; rewrite E in Hlen; simpl in Hlen; lia).
  rewrite Hget, Hsum.
  assert (Hthr : Qle_bool (6 # 10) (frac (count top.1) (length sample))
                 = bool_decide (6 * length sample <= 10 * count top.1)%nat).
  { apply eq_true_iff_eq. rewrite Qle_bool_iff, bool_decide_eq_true.
    unfold frac, Qle. simpl. rewrite Zpos_of_nat by done. lia. }
  rewrite Hthr. clear Hthr.
  assert (Htype : top.1 <> t_empty /\ top.1 <> mixed
                  /\ top.1 ∈ [t_integer; t_decimal; t_boolean; t_date; t_currency; t_string]).
  { apply occurrences_pos in Htpos. apply list_elem_of_fmap in Htpos as (v & -> & _).
    destruct (value_type_proper v). split; [done|]. split; [done|].
    apply value_type_range. }
  destruct Htype as (Hte & Htm & Htr).
  assert (Hin : top.1 ∈ [t_empty; mixed; t_integer; t_decimal; t_boolean; t_date;
                         t_currency; t_string]) by (by do 2 apply list_elem_of_further).
  assert (Hproper : (0 < count top.1)%nat /\ forall t, (count t <= count top.1)%nat) by done.
  assert (Hdom : (6 * length sample <= 10 * count top.1)%nat ->
                 forall t, (6 * length sample <= 10 * count t)%nat -> top.1 = t).
  { intros Eq t Ht. destruct (decide (top.1 = t)) as [|Hne]; [done|]. exfalso.
    pose proof (occurrences_two top.1 t (vt <$> sample) Hne) as H.
    rewrite length_fmap in H. fold (count top.1) in H. fold (count t) in H. lia. }
  case_bool_decide as Eq; cbn [negb andb].
  - (* the first type of greatest count holds 60 per cent *)
    split; [by split|]. split; [|done].
    intros t _ Ht. by apply Hdom.
  - destruct (1 <? length (c0 :: rest))%nat eqn:Etwo.
    + (* mixed *)
      split; [by split|]. split; [|split; [|split; [done|in_list]]].
      * intros t _ Ht. pose proof (Hmax t). lia.
      * intros _. split; [intros t; pose proof (Hmax t); lia|].
        apply Nat.ltb_lt in Etwo.
        destruct rest as [|c1 rest']; [simpl in Etwo; lia|].
        exists c0.1, c1.1.
        split; [|split; [apply Hentry; left | apply Hentry; right; left]].
        unfold dict_keys in Hnd. simpl in Hnd.
        apply NoDup_cons in Hnd as [Hnin _]. intros E. apply Hnin. rewrite E. left.
    + split; [by split|]. split; [|done].
      intros t _ Ht. pose proof (Hmax t). lia.
Qed.

End InferDtypeFacts.


(** ** Pattern detection of a column *)



Section DetectPatternsFacts.

Variable prx : pystr -> pystr -> bool.

(** The names that one value adds to the counter, in order. *)
Local Abbreviation matched := (fun v : pystr => filter (fun p => prx p (strip v) = true) PATTERN_NAMES).








End DetectPatternsFacts.


(** ** Quality flags *)

Lemma Qle_bool_false x y : Qle_bool x y = false <-> (y < x)%Q.
Proof.
  split.
  - intros H. apply Qnot_le_lt. intros Hle%Qle_bool_iff. congruence.
  - intros H. apply not_true_is_false. intros Hle%Qle_bool_iff. lra.
Qed.

Ltac qle_reflect :=
  repeat match goal with
  | H : Qle_bool _ _ = true |- _ => apply (proj1 (Qle_bool_iff _ _)) in H
  | H : Qle_bool _ _ = false |- _ => apply (proj1 (Qle_bool_false _ _)) in H
  end.

Lemma quality_flags_length (p : profile) : (length (quality_flags p) <= 1)%nat.
Proof.
  unfold quality_flags.
  destruct (Qle_bool (p_missing_pct p) 70) eqn:E70;
    destruct (Qle_bool 100 (p_missing_pct p)) eqn:E100;
    destruct (Qle_bool 50 (p_missing_pct p)) eqn:E50;
    qle_reflect; try (exfalso; lra);
    case_bool_decide as Em; cbn [negb andb app length]; lia.
Qed.

(** X13. In v3 a column gets at most one quality issue, since the
    null-heavy flag asks for more than 70 per cent of missing cells and the
    mixed-type flag for less than 50, and a column that is missing
    altogether (100 per cent) gets none. The issues of v3 are among those
    that v2 raises for the same profile, in the same order; v2 can raise
    both for one column. *)
Theorem quality_flags_one_per_column (p : profile) :
  (length (quality_flags p) <= 1)%nat
  /\ ((100 <= p_missing_pct p)%Q -> quality_flags p = [])
  /\ quality_flags p `sublist_of` quality_flags_v2 p
  /\ (p_inferred_type p = mixed -> (70 < p_missing_pct p)%Q ->
      length (quality_flags_v2 p) = 2%nat).
Proof.
  unfold quality_flags, quality_flags_v2.
  destruct (Qle_bool (p_missing_pct p) 70) eqn:E70;
    destruct (Qle_bool 100 (p_missing_pct p)) eqn:E100;
    destruct (Qle_bool 50 (p_missing_pct p)) eqn:E50;
    qle_reflect; try (exfalso; lra);
    case_bool_decide as Em; cbn [negb andb app length];
    (split; [lia|]);
    (split; [first [done | intros; exfalso; lra]|]);
    (split; [by repeat first [apply sublist_nil | apply sublist_skip | apply sublist_cons]|]);
    first [done | intros; exfalso; lra].
Qed.

Example sample_mixed_null_heavy_column :
  let p := {| p_file := of_string "a.xlsx"; p_sheet := of_string "S";
              p_column := of_string "notes"; p_norm_col := of_string "notes";
              p_inferred_type := mixed; p_missing_pct := 80;
              p_unique_values := 3; p_uniqueness_pct := 15; p_patterns := [];
              p_cluster_id := 1 |} in
  length (quality_flags p) = 1%nat /\ length (quality_flags_v2 p) = 2%nat.
Proof. split; reflexivity. Qed.

(** ** Quality lists of the report post-processor *)

Lemma clean_quality_fold rows q :
  foldl clean_quality_step q rows
  = (q.1 ++ filter (fun i => is_null_heavy i = true) (concat (quality_flags <$> rows)),
     q.2 ++ filter (fun i => is_null_heavy i = false) (concat (quality_flags <$> rows))).
Proof.
  revert q. induction rows as [|r rows IH]; intros [qn qm].
  { simpl. by rewrite !app_nil_r. }
  cbn [foldl]. rewrite IH. rewrite fmap_cons. cbn [concat]. rewrite !filter_app.
  unfold clean_quality_step, quality_flags. cbn [fst snd].
  destruct (negb (Qle_bool (p_missing_pct r) 70) && negb (Qle_bool 100 (p_missing_pct r)));
    destruct (bool_decide (p_inferred_type r = mixed) && negb (Qle_bool 50 (p_missing_pct r)));
    cbn [app]; rewrite ?filter_cons, ?filter_nil; cbn [is_null_heavy];
    rewrite ?decide_True by done; rewrite ?decide_False by done;
    rewrite ?filter_nil; cbn [app]; by rewrite <- ?app_assoc.
Qed.

(** X14. The report post-processor recomputes the quality issues with
    the thresholds of v3: its list of null-heavy columns and its list of
    mixed-type columns are the issues that v3 raises for the rows of the
    data dictionary whose normalized name does not start with "unnamed_",
    sorted by kind and otherwise in the order of the rows. *)
Theorem clean_quality_matches_v3 (dd_rows : list profile) :
  let issues := concat (quality_flags <$> named_dd dd_rows) in
  (clean_quality dd_rows).1 = filter (fun i => is_null_heavy i = true) issues
  /\ (clean_quality dd_rows).2 = filter (fun i => is_null_heavy i = false) issues
  /\ (length (clean_quality dd_rows).1 + length (clean_quality dd_rows).2
      = length issues)%nat
  /\ (length issues <= length (named_dd dd_rows))%nat.
Proof.
  intros issues. unfold clean_quality. rewrite clean_quality_fold. cbn [fst snd app].
  fold issues. split; [done|]. split; [done|]. split.
  - pose proof (filter_split_length (fun i => is_null_heavy i = true) issues) as H.
    rewrite <- H. f_equal. f_equal. apply list_filter_iff. intros i.
    destruct (is_null_heavy i); split; done.
  - unfold issues. clear issues. induction (named_dd dd_rows) as [|r l IH]; [done|].
    rewrite fmap_cons. cbn [concat]. rewrite length_app. cbn [length].
    pose proof (quality_flags_length r) as H. lia.
Qed.

(** ** The cap on the columns profiled *)

#[global] Instance more_populated_total : Total more_populated.
Proof. intros c d. unfold more_populated. lia. Qed.

#[global] Instance more_populated_trans : Transitive more_populated.
Proof. intros c d e. unfold more_populated. lia. Qed.

(** X15. The columns that v3 profiles of a sheet. They are columns of the
    sheet, each taken once. For a sheet flagged as wide they are at most
    200: the sheet's columns when there are no more than 200, and otherwise
    200 columns none of which has fewer non-missing cells than a column
    left out. For a sheet not flagged as wide they are all the columns, in
    their order. *)
Theorem cols_to_profile_cap (rec : sheet_rec) (df : frame) :
  let cols := cols_to_profile rec df in
  (exists rest, df ≡ₚ cols ++ rest
     /\ forall c d, c ∈ cols -> d ∈ rest -> (non_null_count d <= non_null_count c)%nat)
  /\ length cols
     = (if rec_is_wide rec then Nat.min MAX_PROFILE_COLS (length df) else length df)
  /\ (rec_is_wide rec = false \/ (length df <= MAX_PROFILE_COLS)%nat -> cols = df).
Proof.
  intros cols. unfold cols, cols_to_profile.
  destruct (rec_is_wide rec); cbn [andb].
  - destruct (MAX_PROFILE_COLS <? length df)%nat eqn:E.
    + apply Nat.ltb_lt in E. split; [|split].
      * exists (drop MAX_PROFILE_COLS (merge_sort more_populated df)).
        rewrite take_drop. split; [by rewrite merge_sort_Permutation|].
        intros c d Hc Hd.
        pose proof (StronglySorted_merge_sort more_populated df) as Hs.
        rewrite <- (take_drop MAX_PROFILE_COLS) in Hs.
        apply (StronglySorted_app_1_elem_of _ _ _ _ _ Hs Hc Hd).
      * rewrite length_take, merge_sort_Permutation. done.
      * intros [?|?]; [done | lia].
    + apply Nat.ltb_ge in E. split; [|split].
      * exists []. rewrite app_nil_r. split; [done|]. intros c d _ Hd.
        by apply elem_of_nil in Hd.
      * lia.
      * done.
  - split; [|split].
    + exists []. rewrite app_nil_r. split; [done|]. intros c d _ Hd.
      by apply elem_of_nil in Hd.
    + done.
    + done.
Qed.

(** ** Deep profiling: what is recorded *)

Section DeepProfileAccounts.

Variable lower : pystr -> pystr.
Variable infer_dtype : series -> result pystr.
Variable detect_patterns : series -> result (list (pystr * Q)).
Variable read_frame : sheet_rec -> result frame.
Variable assigned_ids : gmap pystr nat.

Local Abbreviation pcol := (profile_column lower infer_dtype detect_patterns assigned_ids).
Local Abbreviation pof := (profile_of lower infer_dtype detect_patterns assigned_ids).
Local Abbreviation step := (profile_step lower infer_dtype detect_patterns assigned_ids).
Local Abbreviation step2 := (profile_step_v2 lower infer_dtype detect_patterns assigned_ids).
Local Abbreviation sheet3 :=
  (profile_sheet lower infer_dtype detect_patterns read_frame assigned_ids).
Local Abbreviation sheet2 :=
  (profile_sheet_v2 lower infer_dtype detect_patterns read_frame assigned_ids).

(** The log entry of a column of [rec] that raises. *)
Local Abbreviation col_error := (fun (rec : sheet_rec) (c : pystr * series) =>
  match pcol rec c with
  | Ok _ => None
  | Raise e => Some (ColumnError (rec_file rec) (rec_sheet rec) c.1 e)
  end).

Lemma profile_loop_state rec cols st :
  foldl (step rec) st cols
  = {| deep_profiles := deep_profiles st ++ omap (pof rec) cols;
       quality_issues := quality_issues st
                         ++ concat (quality_flags <$> omap (pof rec) cols);
       errors_log := errors_log st |}.
Proof.
  revert st. induction cols as [|c cols IH]; intros st.
  { simpl. rewrite !app_nil_r. by destruct st. }
  cbn [foldl]. rewrite IH. unfold profile_step, profile_of. cbn [omap list_omap].
  destruct (profile_column _ _ _ _ rec c); simpl; [|done].
  by rewrite <- !app_assoc.
Qed.

Lemma profile_loop_v2_state rec cols st :
  foldl (step2 rec) st cols
  = {| deep_profiles := deep_profiles st ++ omap (pof rec) cols;
       quality_issues := quality_issues st
                         ++ concat (quality_flags_v2 <$> omap (pof rec) cols);
       errors_log := errors_log st ++ omap (col_error rec) cols |}.
Proof.
  revert st. induction cols as [|c cols IH]; intros st.
  { simpl. rewrite !app_nil_r. by destruct st. }
  cbn [foldl]. rewrite IH. unfold profile_step_v2, profile_of. cbn [omap list_omap].
  destruct (profile_column _ _ _ _ rec c); simpl.
  - by rewrite <- !app_assoc.
  - by rewrite <- !app_assoc.
Qed.

(** What one sheet adds to the three lists, in v3 and in v2. *)
Local Abbreviation sheet_profiles := (fun (rec : sheet_rec) =>
  match read_frame rec with
  | Ok df => omap (pof rec) (cols_to_profile rec df)
  | Raise _ => []
  end).

Local Abbreviation sheet_profiles_v2 := (fun (rec : sheet_rec) =>
  match read_frame rec with
  | Ok df => omap (pof rec) df
  | Raise _ => []
  end).

Local Abbreviation sheet_errors := (fun (rec : sheet_rec) =>
  match read_frame rec with
  | Ok df => []
  | Raise e => [DeepReadError (rec_file rec) (rec_sheet rec) e]
  end).

Local Abbreviation sheet_errors_v2 := (fun (rec : sheet_rec) =>
  match read_frame rec with
  | Ok df => omap (col_error rec) df
  | Raise e => [DeepReadError (rec_file rec) (rec_sheet rec) e]
  end).

Lemma deep_profile_state phase1 st :
  foldl sheet3 st phase1
  = {| deep_profiles := deep_profiles st ++ (rec ← phase1; sheet_profiles rec);
       quality_issues := quality_issues st
         ++ concat (quality_flags <$> (rec ← phase1; sheet_profiles rec));
       errors_log := errors_log st ++ (rec ← phase1; sheet_errors rec) |}.
Proof.
  revert st. induction phase1 as [|rec phase1 IH]; intros st.
  { simpl. rewrite !app_nil_r. by destruct st. }
  cbn [foldl]. rewrite IH. unfold profile_sheet. cbn [mbind list_bind].
  destruct (read_frame rec) as [df|e]; simpl.
  - rewrite profile_loop_state. simpl.
    by rewrite fmap_app, concat_app, <- !app_assoc.
  - by rewrite <- !app_assoc.
Qed.

Lemma deep_profile_v2_state phase1 st :
  foldl sheet2 st phase1
  = {| deep_profiles := deep_profiles st ++ (rec ← phase1; sheet_profiles_v2 rec);
       quality_issues := quality_issues st
         ++ concat (quality_flags_v2 <$> (rec ← phase1; sheet_profiles_v2 rec));
       errors_log := errors_log st ++ (rec ← phase1; sheet_errors_v2 rec) |}.
Proof.
  revert st. induction phase1 as [|rec phase1 IH]; intros st.
  { simpl. rewrite !app_nil_r. by destruct st. }
  cbn [foldl]. rewrite IH. unfold profile_sheet_v2. cbn [mbind list_bind].
  destruct (read_frame rec) as [df|e]; simpl.
  - rewrite profile_loop_v2_state. simpl.
    by rewrite fmap_app, concat_app, <- !app_assoc.
  - by rewrite <- !app_assoc.
Qed.

Lemma filter_all {A} (P : A -> Prop) `{forall x, Decision (P x)} (l : list A) :
  Forall P l -> filter P l = l.
Proof.
  induction 1 as [|x l Hx Hl IH]; [done|].
  rewrite filter_cons, decide_True by done. by f_equal.
Qed.

Lemma omap_split_length {A B C} (f : A -> option B) (g : A -> option C) (l : list A) :
  (forall a, is_Some (f a) <-> g a = None) ->
  (length (omap f l) + length (omap g l) = length l)%nat.
Proof.
  intros H. induction l as [|a l IH]; [done|].
  cbn [omap list_omap]. specialize (H a).
  destruct (f a), (g a); simpl; try lia.
  - destruct H as [H _]. by specialize (H ltac:(eauto)).
  - destruct H as [_ H]. by destruct (H eq_refl).
Qed.

(** X16. What Phase 4 records, sheet by sheet. In v3 the profiles are
    those of the columns chosen for profiling that do not raise, for the
    sheets that can be read, in order; the quality issues are the flags of
    these profiles; and the error log holds one entry for each sheet that
    cannot be read and nothing for a column that raises. In v2 all columns
    of a readable sheet are gone through, and each of them leaves either a
    profile or an entry of the error log, so that none is lost without a
    trace. *)
Theorem deep_profile_accounts (phase1 : list sheet_rec) :
  let st3 := deep_profile lower infer_dtype detect_patterns read_frame assigned_ids
               phase1 dstate0 in
  let st2 := deep_profile_v2 lower infer_dtype detect_patterns read_frame assigned_ids
               phase1 dstate0 in
  deep_profiles st3 = (rec ← phase1; sheet_profiles rec)
  /\ quality_issues st3 = concat (quality_flags <$> deep_profiles st3)
  /\ errors_log st3 = (rec ← phase1; sheet_errors rec)
  /\ Forall (fun e => is_column_error e = false) (errors_log st3)
  /\ deep_profiles st2 = (rec ← phase1; sheet_profiles_v2 rec)
  /\ quality_issues st2 = concat (quality_flags_v2 <$> deep_profiles st2)
  /\ errors_log st2 = (rec ← phase1; sheet_errors_v2 rec)
  /\ (length (deep_profiles st2)
      + length (filter (fun e => is_column_error e = true) (errors_log st2))
      = sum_list ((fun rec => match read_frame rec with
                              | Ok df => length df
                              | Raise _ => 0%nat
                              end) <$> phase1))%nat.
Proof.
  intros st3 st2. unfold st3, st2, deep_profile, deep_profile_v2.
  rewrite deep_profile_state, deep_profile_v2_state. simpl.
  split; [done|]. split; [done|]. split; [done|]. split.
  { apply Forall_forall. intros e (rec & He & _)%list_elem_of_bind.
    destruct (read_frame rec); [by apply elem_of_nil in He|].
    by apply list_elem_of_singleton in He as ->. }
  split; [done|]. split; [done|]. split; [done|].
  induction phase1 as [|rec phase1 IH]; [done|].
  cbn [mbind list_bind]. rewrite fmap_cons, filter_app, !length_app. simpl sum_list.
  assert (Hrec : (length (sheet_profiles_v2 rec)
                  + length (filter (fun e => is_column_error e = true) (sheet_errors_v2 rec))
                  = match read_frame rec with Ok df => length df | Raise _ => 0 end)%nat).
  { destruct (read_frame rec) as [df|e]; [|done].
    rewrite <- (omap_split_length (pof rec) (col_error rec) df).
    - f_equal. f_equal. apply filter_all, Forall_forall. intros x Hx.
      apply list_elem_of_omap in Hx as (c & _ & Hc).
      destruct (pcol rec c); [done|]. by injection Hc as <-.
    - intros c. unfold profile_of. destruct (pcol rec c); split; try done.
      all: first [by intros [] | eauto]. }
  simpl in *. lia.
Qed.

End DeepProfileAccounts.


(** ** Join columns *)

Lemma dict_set_absent {K V} `{EqDecision K} (k : K) (v : V) d :
  k ∉ dict_keys d -> dict_set k v d = d ++ [(k, v)].
Proof.
  unfold dict_keys. induction d as [|[k0 v0] d IH]; intros Hk; [done|].
  simpl in *. apply not_elem_of_cons in Hk as [Hne Hk].
  rewrite decide_False by done. by rewrite IH.
Qed.

Lemma dict_set_last {K V} `{EqDecision K} (k : K) (v v0 : V) d :
  k ∉ dict_keys d -> dict_set k v (d ++ [(k, v0)]) = d ++ [(k, v)].
Proof.
  unfold dict_keys. induction d as [|[k1 v1] d IH]; intros Hk; simpl in *.
  - by rewrite decide_True.
  - apply not_elem_of_cons in Hk as [Hne Hk].
    rewrite decide_False by done. by rewrite IH.
Qed.

Lemma dict_get_last {K V} `{EqDecision K} (k : K) (v0 : V) d :
  k ∉ dict_keys d -> dict_get k (d ++ [(k, v0)]) = Some v0.
Proof.
  unfold dict_keys. induction d as [|[k1 v1] d IH]; intros Hk; simpl in *.
  - by rewrite decide_True.
  - apply not_elem_of_cons in Hk as [Hne Hk].
    rewrite decide_False by done. by apply IH.
Qed.

Lemma set_add_elem x s y : y ∈ set_add x s <-> y = x \/ y ∈ s.
Proof.
  unfold set_add. destruct (decide (x ∈ s)).
  - split; [by right | by intros [->|?]].
  - rewrite elem_of_app, list_elem_of_singleton. tauto.
Qed.

Lemma set_add_NoDup x s : NoDup s -> NoDup (set_add x s).
Proof.
  intros H. unfold set_add. destruct (decide (x ∈ s)); [done|].
  apply NoDup_app. split; [done|]. split; [|apply NoDup_singleton].
  by intros y Hy ->%list_elem_of_singleton.
Qed.

Lemma files_fold_spec (locs : list loc) s :
  NoDup s ->
  NoDup (foldl (fun s l => set_add (l_file l) s) s locs)
  /\ forall f, f ∈ foldl (fun s l => set_add (l_file l) s) s locs
               <-> f ∈ s \/ exists l, l ∈ locs /\ l_file l = f.
Proof.
  revert s. induction locs as [|l locs IH]; intros s Hs.
  - simpl. split; [done|]. intros f. split; [by left|].
    intros [?|(l & Hl & _)]; [done | by apply elem_of_nil in Hl].
  - cbn [foldl]. destruct (IH (set_add (l_file l) s)) as [H1 H2].
    { by apply set_add_NoDup. }
    split; [done|]. intros f. rewrite H2, set_add_elem. split.
    + intros [[->|?]|(l' & Hl' & Hf)].
      * right. exists l. split; [left | done].
      * by left.
      * right. exists l'. split; [by right | done].
    + intros [?|(l' & [->|Hl']%elem_of_cons & Hf)].
      * left. by right.
      * left. by left.
      * right. eauto.
Qed.

Lemma files_of_spec (locs : list loc) :
  NoDup (files_of locs) /\ forall f, f ∈ files_of locs <-> exists l, l ∈ locs /\ l_file l = f.
Proof.
  destruct (files_fold_spec locs [] (NoDup_nil_2)) as [H1 H2].
  split; [done|]. intros f. rewrite H2. split; [|by right].
  intros [H|H]; [by apply elem_of_nil in H | done].
Qed.

(** The inner loop of [join_clusters] on a column that is not yet a key. *)
Lemma join_inner nc (locs : list loc) jc :
  nc ∉ dict_keys jc -> locs <> [] ->
  foldl (fun jc l => dict_add nc (l_file l) jc) jc locs = jc ++ [(nc, files_of locs)].
Proof.
  intros Hnc Hlocs. destruct locs as [|l0 locs]; [done|]. clear Hlocs.
  unfold files_of. cbn [foldl]. unfold dict_add at 2.
  rewrite (proj2 (dict_get_None nc jc) Hnc). cbn [default].
  rewrite dict_set_absent by done.
  generalize (set_add (l_file l0) []). intros s. revert s.
  induction locs as [|l locs IH]; intros s; [done|].
  cbn [foldl]. unfold dict_add at 2. rewrite dict_get_last by done. cbn [default].
  rewrite dict_set_last by done. apply IH.
Qed.

Lemma join_clusters_fold (csm : list (pystr * list loc)) jc :
  NoDup (dict_keys jc ++ dict_keys csm) ->
  foldl (fun jc item =>
           if (2 <=? length item.2)%nat
           then foldl (fun jc l => dict_add item.1 (l_file l) jc) jc item.2
           else jc) jc csm
  = jc ++ omap (fun item => if (2 <=? length item.2)%nat
                            then Some (item.1, files_of item.2) else None) csm.
Proof.
  revert jc. induction csm as [|[nc locs] csm IH]; intros jc Hnd.
  { simpl. by rewrite app_nil_r. }
  cbn [foldl omap list_omap fst snd].
  unfold dict_keys in Hnd. simpl in Hnd.
  apply NoDup_app in Hnd as (Hjc & Hdisj & Hcsm).
  apply NoDup_cons in Hcsm as [Hnc Hcsm].
  destruct (2 <=? length locs)%nat eqn:E.
  - rewrite join_inner.
    + rewrite IH; [by rewrite <- app_assoc|].
      unfold dict_keys. rewrite map_app. simpl. rewrite <- app_assoc. simpl.
      apply NoDup_app. split; [done|]. split; [|by apply NoDup_cons].
      intros x Hx. by apply Hdisj.
    + intros Hin. apply (Hdisj nc Hin). left.
    + apply Nat.leb_le in E. intros ->. simpl in E. lia.
  - apply IH. apply NoDup_app. split; [done|]. split; [|done].
    intros x Hx Hx'. apply (Hdisj x Hx). by right.
Qed.

Lemma join_clusters_eq (csm : list (pystr * list loc)) :
  NoDup (dict_keys csm) ->
  join_clusters csm
  = omap (fun item => if (2 <=? length item.2)%nat
                      then Some (item.1, files_of item.2) else None) csm.
Proof. intros H. unfold join_clusters. by rewrite join_clusters_fold. Qed.

Lemma join_cols_fold (csm : list (pystr * list loc)) jc :
  NoDup (dict_keys jc ++ dict_keys csm) ->
  foldl (fun jc item =>
           let files_set := to_set (map l_file item.2) in
           if (length files_set <? 2)%nat then jc else dict_set item.1 files_set jc) jc csm
  = jc ++ omap (fun item => if (length (to_set (map l_file item.2)) <? 2)%nat
                            then None
                            else Some (item.1, to_set (map l_file item.2))) csm.
Proof.
  revert jc. induction csm as [|[nc locs] csm IH]; intros jc Hnd.
  { simpl. by rewrite app_nil_r. }
  cbn [foldl omap list_omap fst snd].
  unfold dict_keys in Hnd. simpl in Hnd.
  apply NoDup_app in Hnd as (Hjc & Hdisj & Hcsm).
  apply NoDup_cons in Hcsm as [Hnc Hcsm].
  destruct (length (to_set (map l_file locs)) <? 2)%nat eqn:E.
  - apply IH. apply NoDup_app. split; [done|]. split; [|done].
    intros x Hx Hx'. apply (Hdisj x Hx). by right.
  - rewrite dict_set_absent.
    + rewrite IH; [by rewrite <- app_assoc|].
      unfold dict_keys. rewrite map_app. simpl. rewrite <- app_assoc. simpl.
      apply NoDup_app. split; [done|]. split; [|by apply NoDup_cons].
      intros x Hx. by apply Hdisj.
    + intros Hin. apply (Hdisj nc Hin). left.
Qed.

Lemma join_cols_eq (csm : list (pystr * list loc)) :
  NoDup (dict_keys csm) ->
  join_cols csm
  = omap (fun item => if (length (to_set (map l_file item.2)) <? 2)%nat
                      then None
                      else Some (item.1, to_set (map l_file item.2))) csm.
Proof. intros H. unfold join_cols. by rewrite join_cols_fold. Qed.

Lemma omap_keys_sublist {V W} (f : pystr * V -> option (pystr * W)) (d : list (pystr * V)) :
  (forall kv kw, f kv = Some kw -> kw.1 = kv.1) ->
  (omap f d).*1 `sublist_of` d.*1.
Proof.
  intros Hf. induction d as [|kv d IH]; [done|].
  cbn [omap list_omap]. destruct (f kv) as [kw|] eqn:E.
  - rewrite !fmap_cons, (Hf kv kw E). by apply sublist_skip.
  - rewrite fmap_cons. by apply sublist_cons.
Qed.

(** X17. The join columns. In the analyzer a normalized name is a join
    column exactly when it is not empty and has at least two locations,
    be they in one file, and its entry is the set of the files of its
    locations. In the report post-processor a name is a join column exactly
    when its locations, among the named rows, lie in at least two
    different files. In both scripts every primary-key candidate and every
    foreign-key pair is on a join column. *)
Theorem join_columns_cover_candidates (ps : list profile) :
  (let jc := join_clusters (col_sheet_map ps) in
   NoDup (dict_keys jc)
   /\ (forall nc, nc ∈ dict_keys jc
                  <-> nc <> [] /\ (2 <= length (locations nc ps))%nat)
   /\ Forall (fun e => NoDup e.2
                /\ forall f, f ∈ e.2 <-> exists l, l ∈ locations e.1 ps /\ l_file l = f) jc
   /\ Forall (fun pk => pk.1 ∈ dict_keys jc) (pk_candidates (relate ps))
   /\ Forall (fun fk => fk_column fk ∈ dict_keys jc) (fk_pairs (relate ps)))
  /\ (let rows := named_dd ps in
      let jc := join_cols (clean_col_sheet_map rows) in
      NoDup (dict_keys jc)
      /\ (forall nc, nc ∈ dict_keys jc
                     <-> (2 <= length (to_set (map l_file (locations nc rows))))%nat)
      /\ Forall (fun e => (2 <= length e.2)%nat /\ NoDup e.2
                   /\ forall f, f ∈ e.2
                                <-> exists l, l ∈ locations e.1 rows /\ l_file l = f) jc
      /\ Forall (fun pk => pk.1 ∈ dict_keys jc) (pk_candidates (clean_relate ps))
      /\ Forall (fun fk => fk_column fk ∈ dict_keys jc) (fk_pairs (clean_relate ps))).
Proof.
  split.
  - intros jc. unfold jc. rewrite join_clusters_eq by apply col_sheet_map_NoDup.
    set (f := fun item : pystr * list loc =>
                if (2 <=? length item.2)%nat then Some (item.1, files_of item.2) else None).
    assert (Hkeys : forall nc, nc ∈ dict_keys (omap f (col_sheet_map ps))
                               <-> nc <> [] /\ (2 <= length (locations nc ps))%nat).
    { intros nc. unfold dict_keys.
      change (map fst (omap f (col_sheet_map ps))) with ((omap f (col_sheet_map ps)).*1).
      rewrite list_elem_of_fmap. split.
      - intros ([nc' fs] & -> & Hin). apply list_elem_of_omap in Hin as ([nc2 locs] & Hin & Hf).
        unfold f in Hf. cbn [fst snd] in Hf. destruct (2 <=? length locs)%nat eqn:E; [|done].
        injection Hf as <- <-. simpl.
        apply col_sheet_map_item_inv in Hin as (Hnc & -> & _).
        split; [done | by apply Nat.leb_le].
      - intros [Hnc Hlen]. exists (nc, files_of (locations nc ps)). split; [done|].
        apply list_elem_of_omap. exists (nc, locations nc ps). split.
        + apply col_sheet_map_item; [done|].
          intros E. rewrite E in Hlen. simpl in Hlen. lia.
        + unfold f. cbn [fst snd]. by rewrite (proj2 (Nat.leb_le _ _) Hlen). }
    split; [|split; [done|split; [|split]]].
    + eapply sublist_NoDup; [apply col_sheet_map_NoDup|].
      apply omap_keys_sublist. intros kv kw. unfold f.
      destruct (_ <=? _)%nat; [by intros [= <-] | done].
    + apply Forall_forall. intros [nc fs] Hin.
      apply list_elem_of_omap in Hin as ([nc2 locs] & Hin & Hf).
      unfold f in Hf. cbn [fst snd] in Hf. destruct (2 <=? length locs)%nat; [|done].
      injection Hf as <- <-. simpl.
      apply col_sheet_map_item_inv in Hin as (_ & -> & _). apply files_of_spec.
    + apply Forall_forall. intros [nc high] Hin. simpl. apply Hkeys.
      destruct (relate_eq ps) as [Hpk _]. rewrite Hpk in Hin.
      apply elem_of_concat in Hin as (l & Hin & Hl).
      apply list_elem_of_fmap in Hl as (it & -> & Hit).
      apply pk_of_elem in Hin as (-> & _ & _ & Hskip).
      destruct it as [nc locs]. simpl in *.
      apply col_sheet_map_item_inv in Hit as (Hnc & -> & _).
      split; [done | by apply few_locs_false].
    + apply Forall_forall. intros e Hin. apply Hkeys.
      destruct (relate_eq ps) as [_ Hfk]. rewrite Hfk in Hin.
      apply elem_of_concat in Hin as (l & Hin & Hl).
      apply list_elem_of_fmap in Hl as (it & -> & Hit).
      apply fk_of_elem in Hin as (Hskip & h & lo & _ & _ & ->). simpl.
      destruct it as [nc locs]. simpl in *.
      apply col_sheet_map_item_inv in Hit as (Hnc & -> & _).
      split; [done | by apply few_locs_false].
  - intros rows jc. unfold jc. rewrite join_cols_eq by apply clean_col_sheet_map_NoDup.
    set (f := fun item : pystr * list loc =>
                if (length (to_set (map l_file item.2)) <? 2)%nat then None
                else Some (item.1, to_set (map l_file item.2))).
    assert (Hkeys : forall nc, nc ∈ dict_keys (omap f (clean_col_sheet_map rows))
                 <-> (2 <= length (to_set (map l_file (locations nc rows))))%nat).
    { intros nc. unfold dict_keys.
      change (map fst (omap f (clean_col_sheet_map rows)))
        with ((omap f (clean_col_sheet_map rows)).*1).
      rewrite list_elem_of_fmap. split.
      - intros ([nc' fs] & -> & Hin). apply list_elem_of_omap in Hin as ([nc2 locs] & Hin & Hf).
        unfold f in Hf. cbn [fst snd] in Hf.
        destruct (length (to_set (map l_file locs)) <? 2)%nat eqn:E; [done|].
        injection Hf as <- <-. simpl.
        apply clean_col_sheet_map_item_inv in Hin as (-> & _).
        by apply Nat.ltb_ge.
      - intros Hlen. exists (nc, to_set (map l_file (locations nc rows))). split; [done|].
        apply list_elem_of_omap. exists (nc, locations nc rows). split.
        + apply clean_col_sheet_map_item.
          intros E. rewrite E in Hlen. simpl in Hlen. lia.
        + unfold f. cbn [fst snd]. by rewrite (proj2 (Nat.ltb_ge _ _) Hlen). }
    split; [|split; [done|split; [|split]]].
    + eapply sublist_NoDup; [apply clean_col_sheet_map_NoDup|].
      apply omap_keys_sublist. intros kv kw. unfold f.
      destruct (_ <? _)%nat; [done | by intros [= <-]].
    + apply Forall_forall. intros [nc fs] Hin.
      apply list_elem_of_omap in Hin as ([nc2 locs] & Hin & Hf).
      unfold f in Hf. cbn [fst snd] in Hf.
      destruct (length (to_set (map l_file locs)) <? 2)%nat eqn:E; [done|].
      injection Hf as <- <-. simpl.
      apply clean_col_sheet_map_item_inv in Hin as (-> & _).
      split; [by apply Nat.ltb_ge|]. split; [apply to_set_NoDup|].
      intros f0. rewrite to_set_elem.
      change (map l_file (locations nc2 rows)) with (l_file <$> locations nc2 rows).
      rewrite list_elem_of_fmap. split; intros (l & H1 & H2); eauto.
    + apply Forall_forall. intros [nc high] Hin. simpl. apply Hkeys.
      destruct (clean_relate_eq ps) as [Hpk _]. rewrite Hpk in Hin.
      apply elem_of_concat in Hin as (l & Hin & Hl).
      apply list_elem_of_fmap in Hl as (it & -> & Hit).
      apply pk_of_elem in Hin as (-> & _ & _ & Hskip).
      destruct it as [nc locs]. simpl in *.
      apply clean_col_sheet_map_item_inv in Hit as (-> & _).
      by apply few_files_false.
    + apply Forall_forall. intros e Hin. apply Hkeys.
      destruct (clean_relate_eq ps) as [_ Hfk]. rewrite Hfk in Hin.
      apply elem_of_concat in Hin as (l & Hin & Hl).
      apply list_elem_of_fmap in Hl as (it & -> & Hit).
      apply fk_of_elem in Hin as (Hskip & h & lo & _ & _ & ->). simpl.
      destruct it as [nc locs]. simpl in *.
      apply clean_col_sheet_map_item_inv in Hit as (-> & _).
      by apply few_files_false.
Qed.

(** In the analyzer a join column can lie in one file only. *)
Example join_column_in_one_file :
  join_clusters (col_sheet_map Samples.same_file_rows)
  = [(Samples.sku, [of_string "a.xlsx"])]
  /\ join_cols (clean_col_sheet_map (named_dd Samples.same_file_rows)) = [].
Proof. split; vm_compute; reflexivity. Qed.


(** ** The named candidates of the report post-processor *)

Lemma named_dd_elem rows p :
  p ∈ named_dd rows <-> ~ unnamed_prefix `prefix_of` p_norm_col p /\ p ∈ rows.
Proof. unfold named_dd. by rewrite list_elem_of_filter. Qed.

Lemma clean_column_named rows nc locs :
  (nc, locs) ∈ clean_col_sheet_map (named_dd rows) -> ~ unnamed_prefix `prefix_of` nc.
Proof.
  intros Hin. apply clean_col_sheet_map_item_inv in Hin as (-> & Hne).
  unfold locations in Hne.
  destruct (filter (fun p => p_norm_col p = nc) (named_dd rows)) as [|p l] eqn:E; [done|].
  assert (Hp : p ∈ filter (fun p => p_norm_col p = nc) (named_dd rows)) by (rewrite E; left).
  apply list_elem_of_filter in Hp as [<- Hp]. by apply named_dd_elem in Hp as [? _].
Qed.

(** X18. The report post-processor builds its candidates from the named
    rows only, so every primary-key candidate and every foreign-key pair is
    on a column whose name does not start with "unnamed_", and the later
    filters [named_pks] and [named_fks] of the schema section remove
    nothing. *)
Theorem clean_candidates_are_named (dd_rows : list profile) :
  Forall (fun pk => ~ unnamed_prefix `prefix_of` pk.1) (pk_candidates (clean_relate dd_rows))
  /\ Forall (fun fk => ~ unnamed_prefix `prefix_of` fk_column fk)
            (fk_pairs (clean_relate dd_rows))
  /\ named_pks (pk_candidates (clean_relate dd_rows)) = pk_candidates (clean_relate dd_rows)
  /\ named_fks (fk_pairs (clean_relate dd_rows)) = fk_pairs (clean_relate dd_rows).
Proof.
  assert (H1 : Forall (fun pk => ~ unnamed_prefix `prefix_of` pk.1)
                 (pk_candidates (clean_relate dd_rows))).
  { apply Forall_forall. intros [nc high] Hin. simpl.
    destruct (clean_relate_eq dd_rows) as [Hpk _]. rewrite Hpk in Hin.
    apply elem_of_concat in Hin as (l & Hin & Hl).
    apply list_elem_of_fmap in Hl as (it & -> & Hit).
    apply pk_of_elem in Hin as (-> & _ & _ & _). destruct it as [nc locs].
    by eapply clean_column_named. }
  assert (H2 : Forall (fun fk => ~ unnamed_prefix `prefix_of` fk_column fk)
                 (fk_pairs (clean_relate dd_rows))).
  { apply Forall_forall. intros e Hin.
    destruct (clean_relate_eq dd_rows) as [_ Hfk]. rewrite Hfk in Hin.
    apply elem_of_concat in Hin as (l & Hin & Hl).
    apply list_elem_of_fmap in Hl as (it & -> & Hit).
    apply fk_of_elem in Hin as (_ & h & lo & _ & _ & ->). simpl.
    destruct it as [nc locs]. by eapply clean_column_named. }
  split; [done|]. split; [done|]. split.
  - unfold named_pks. by apply filter_all.
  - unfold named_fks. by apply filter_all.
Qed.

(** ** The table of primary-key candidates *)

Lemma pk_table_spec (pks : list (pystr * list loc)) (shown : nat) :
  (shown <= 50)%nat ->
  pk_table shown pks `prefix_of` pk_rows pks
  /\ (shown + length (pk_table shown pks) <= 52)%nat
  /\ (Nat.min 51 (shown + length (pk_rows pks)) <= shown + length (pk_table shown pks))%nat.
Proof.
  revert shown. induction pks as [|item pks IH]; intros shown Hs.
  { cbn [pk_table]. unfold pk_rows. cbn [mbind list_bind length]. split; [done|]. lia. }
  cbn [pk_table]. unfold pk_rows. cbn [mbind list_bind]. fold (pk_rows pks).
  set (rows := (fun l => (item.1, l)) <$> take 2 item.2).
  assert (Hrows : (length rows <= 2)%nat).
  { unfold rows. rewrite length_fmap, length_take. lia. }
  rewrite !length_app.
  destruct (50 <? shown + length rows)%nat eqn:E.
  - apply Nat.ltb_lt in E. rewrite app_nil_r. cbn [length]. split; [|split].
    + by apply prefix_app_r.
    + lia.
    + lia.
  - apply Nat.ltb_ge in E. destruct (IH (shown + length rows)%nat E) as (H1 & H2 & H3).
    split; [|split].
    + by apply prefix_app.
    + lia.
    + lia.
Qed.

(** X19. The table of primary-key candidates in the report of v3 lists,
    for the candidates in order, two locations at most of each, and stops
    after the candidate with which more than 50 rows are written: the table
    is an initial part of the rows of all candidates, it has at most 52
    rows, and it has all the rows when these are 51 at most. *)
Theorem pk_table_bound (pks : list (pystr * list loc)) :
  pk_table 0 pks `prefix_of` pk_rows pks
  /\ (length (pk_table 0 pks) <= 52)%nat
  /\ (Nat.min 51 (length (pk_rows pks)) <= length (pk_table 0 pks))%nat
  /\ ((length (pk_rows pks) <= 51)%nat -> pk_table 0 pks = pk_rows pks).
Proof.
  destruct (pk_table_spec pks 0) as (H1 & H2 & H3); [lia|].
  cbn [Nat.add] in H2, H3. split; [done|]. split; [done|]. split; [done|].
  intros Hlen. destruct H1 as [rest Hrest].
  assert (Hl : length (pk_rows pks) = (length (pk_table 0 pks) + length rest)%nat).
  { by rewrite Hrest, length_app. }
  assert (rest = []) as -> by (destruct rest; [done | simpl in Hl; lia]).
  by rewrite app_nil_r in Hrest.
Qed.

(** ** Sheet keys taken apart *)

Lemma split_on_nonempty sep s : split_on sep s <> [].
Proof.
  induction s as [|c s IH]; [done|]. simpl.
  destruct (c =? sep); [done|]. by destruct (split_on sep s).
Qed.

Lemma split_on_plain sep s : sep ∉ s -> split_on sep s = [s].
Proof.
  induction s as [|c s IH]; intros Hs; [done|].
  apply not_elem_of_cons in Hs as [Hne Hs]. simpl.
  rewrite (proj2 (N.eqb_neq c sep)) by done. by rewrite IH.
Qed.

Lemma split_on_app sep a b :
  sep ∉ a -> split_on sep (a ++ sep :: b) = a :: split_on sep b.
Proof.
  induction a as [|c a IH]; intros Ha.
  - simpl. by rewrite N.eqb_refl.
  - apply not_elem_of_cons in Ha as [Hne Ha]. simpl.
    rewrite (proj2 (N.eqb_neq c sep)) by done. by rewrite IH.
Qed.

Lemma join_split sep s : join [sep] (split_on sep s) = s.
Proof.
  induction s as [|c s IH]; [done|]. simpl.
  destruct (N.eqb_spec c sep) as [->|Hne].
  - rewrite join_cons. pose proof (split_on_nonempty sep s) as Hn.
    destruct (split_on sep s) as [|p ps] eqn:E; [done|]. simpl. by rewrite <- IH.
  - destruct (split_on sep s) as [|p ps] eqn:E.
    + by destruct (split_on_nonempty sep s).
    + rewrite join_cons in *. simpl. by rewrite <- IH.
Qed.

(** The part of a name before its first bar. *)
Lemma split_on_head sep s :
  exists p ps, split_on sep s = p :: ps /\ (sep ∉ p) /\ (p `prefix_of` s).
Proof.
  induction s as [|c s (p & ps & IH & Hp & Hpre)].
  - exists [], []. split; [done|]. split; [apply not_elem_of_nil | done].
  - simpl. destruct (N.eqb_spec c sep) as [->|Hne].
    + exists [], (split_on sep s). split; [done|]. split; [apply not_elem_of_nil|].
      apply prefix_nil.
    + rewrite IH. exists (c :: p), ps. split; [done|]. split.
      * by apply not_elem_of_cons.
      * by apply prefix_cons.
Qed.

(** X20. Taking a sheet key apart. A key always has a part before and a
    part after its first bar, so that neither [m.split("|")[0]] nor
    [m.split("|")[1]] can fail on a key. When the file name has no bar the
    first part is the file name, and the second part is the sheet name
    when this has no bar either (its part before the first bar otherwise).
    Joining the parts with bars gives the key back. *)
Theorem key_split_round_trip (r : sheet_rec) :
  (exists f sh, key_file (rec_key r) = Some f /\ key_sheet (rec_key r) = Some sh
                /\ (bar ∉ f) /\ (f `prefix_of` rec_key r))
  /\ (bar ∉ rec_file r ->
      key_file (rec_key r) = Some (rec_file r)
      /\ key_sheet (rec_key r) = head (split_on bar (rec_sheet r))
      /\ (bar ∉ rec_sheet r ->
          split_on bar (rec_key r) = [rec_file r; rec_sheet r]))
  /\ join [bar] (split_on bar (rec_key r)) = rec_key r.
Proof.
  split; [|split].
  - unfold key_file, key_sheet, rec_key.
    destruct (split_on_head bar (rec_file r ++ [bar] ++ rec_sheet r))
      as (p & ps & Heq & Hp & Hpre).
    destruct Hpre as [rest Hrest].
    assert (Hps : ps <> []).
    { intros ->. pose proof (join_split bar (rec_file r ++ [bar] ++ rec_sheet r)) as Hj.
      rewrite Heq in Hj. simpl in Hj. apply Hp. rewrite Hj.
      apply elem_of_app. right. left. }
    rewrite Heq. destruct ps as [|q ps]; [done|].
    exists p, q. split; [done|]. split; [done|]. split; [done|]. by exists rest.
  - intros Hf. unfold key_file, key_sheet, rec_key. simpl.
    rewrite split_on_app by done. split; [done|]. split.
    + simpl. by destruct (split_on bar (rec_sheet r)).
    + intros Hs. by rewrite split_on_plain.
  - apply join_split.
Qed.

Example sample_key_with_bar_in_sheet :
  split_on bar (rec_key (Samples.mk_rec "a.xlsx" "S|1" ["x"]))
  = [of_string "a.xlsx"; of_string "S"; of_string "1"].
Proof. vm_compute. reflexivity. Qed.


(** ** File clusters (analyze_spreadsheets.py) *)

Lemma filter_iff_in {A} (P Q : A -> Prop) `{forall x, Decision (P x)} `{forall x, Decision (Q x)}
    (l : list A) :
  (forall x, x ∈ l -> P x <-> Q x) -> filter P l = filter Q l.
Proof.
  induction l as [|x l IH]; intros Hl; [done|].
  rewrite !filter_cons. rewrite IH by (intros y Hy; apply Hl; by right).
  destruct (decide (P x)) as [Hp|Hp].
  - by rewrite decide_True by (by apply Hl; [left|]).
  - rewrite decide_False; [done|]. intros Hq. apply Hp. by apply Hl; [left|].
Qed.

Lemma set_remove_absent f (s : list pystr) : f ∉ s -> set_remove f s = s.
Proof.
  intros Hf. unfold set_remove. apply filter_all, Forall_forall.
  intros x Hx ->. done.
Qed.

Lemma set_remove_all (l s : list pystr) :
  foldl (fun u f => set_remove f u) s l = filter (fun x => x ∉ l) s.
Proof.
  revert s. induction l as [|f l IH]; intros s.
  - simpl. symmetry. apply filter_all, Forall_forall. intros x _. apply not_elem_of_nil.
  - cbn [foldl]. rewrite IH. unfold set_remove. rewrite list_filter_filter.
    apply list_filter_iff. intros x. rewrite not_elem_of_cons. tauto.
Qed.

Section FileClusters.

Variable fth : list (pystr * list pystr).

(** [other] is taken into the cluster of [seed]. *)
Local Abbreviation near := (fun seed other : pystr =>
  Qle_b FILE_SIM (jaccard_legacy (headers_of fth seed) (headers_of fth other))).

Lemma cluster_files_spec (fuel : nat) (unassigned : list pystr) (acc : list (list pystr)) :
  NoDup unassigned -> (length unassigned <= fuel)%nat ->
  exists new,
    cluster_files fuel fth unassigned acc = (acc ++ new, [])
    /\ concat new ≡ₚ unassigned
    /\ Forall (fun g => exists seed rest,
                 g = seed :: rest /\ Forall (near seed) rest) new
    /\ ForallOrdPairs (fun g g' => forall seed f,
                         head g = Some seed -> f ∈ g' -> ~ near seed f) new.
Proof.
  revert unassigned acc. induction fuel as [|fuel IH]; intros unassigned acc Hnd Hlen.
  { destruct unassigned; [|simpl in Hlen; lia]. exists []. rewrite app_nil_r.
    split; [done|]. split; [done|]. split; constructor. }
  destruct unassigned as [|seed rest0].
  { exists []. rewrite app_nil_r. split; [done|]. split; [done|]. split; constructor. }
  apply NoDup_cons in Hnd as [Hseed Hnd].
  cbn [cluster_files].
  assert (Hrm : set_remove seed (seed :: rest0) = rest0).
  { unfold set_remove. rewrite filter_cons, decide_False by (by intros H; apply H).
    by apply set_remove_absent. }
  rewrite Hrm, set_remove_all.
  set (to_add := filter (near seed) rest0).
  set (left := filter (fun x => x ∉ to_add) rest0).
  assert (Hleft : left = filter (fun x => ~ near seed x) rest0).
  { apply filter_iff_in. intros x Hx. unfold to_add.
    rewrite list_elem_of_filter. tauto. }
  destruct (IH left (acc ++ [seed :: to_add])) as (new & Heq & Hperm & Hseeds & Hord).
  { by apply NoDup_filter. }
  { simpl in Hlen. pose proof (length_filter (fun x => x ∉ to_add) rest0). unfold left. lia. }
  exists ((seed :: to_add) :: new). split; [|split; [|split]].
  - rewrite Heq. by rewrite <- app_assoc.
  - simpl. constructor. rewrite Hperm, Hleft. apply filter_app_complement.
  - constructor; [|done]. exists seed, to_add. split; [done|].
    apply Forall_forall. intros x Hx. by apply list_elem_of_filter in Hx as [? _].
  - constructor; [|done]. apply List.Forall_forall. intros g Hg seed' f [= <-] Hf.
    assert (Hin : f ∈ concat new).
    { apply elem_of_concat. exists g. split; [done|]. by apply list_elem_of_In. }
    rewrite Hperm, Hleft in Hin. by apply list_elem_of_filter in Hin as [? _].
Qed.

(** X21. The grouping of files in [analyze_spreadsheets.py]. The loop
    ends with [unassigned] empty after at most as many passes as there are
    files, and its clusters are a partition of the files: every file is in
    one cluster, once. A cluster is its seed followed by the files that
    were still unassigned and whose header set has a Jaccard similarity of
    at least 0.55 with the header set of the seed (of the seed alone: the
    header sets of the members are not merged, unlike in the phased
    analyzers). No file of a later cluster is that similar to the seed of
    an earlier one. This holds whatever the order is in which Python
    enumerates the set of files. *)
Theorem cluster_files_partition (files : list pystr) :
  NoDup files ->
  exists clusters,
    cluster_files (length files) fth files [] = (clusters, [])
    /\ concat clusters ≡ₚ files
    /\ Forall (fun g => exists seed rest,
                 g = seed :: rest /\ Forall (near seed) rest) clusters
    /\ ForallOrdPairs (fun g g' => forall seed f,
                         head g = Some seed -> f ∈ g' -> ~ near seed f) clusters.
Proof.
  intros Hnd. by apply (cluster_files_spec (length files) files []).
Qed.

End FileClusters.

Lemma cluster_files_partition_witness :
  exists clusters,
    cluster_files 3 [(of_string "a.csv", of_string <$> ["sku"; "qty"]%string);
                     (of_string "b.csv", of_string <$> ["sku"; "qty"]%string);
                     (of_string "c.csv", of_string <$> ["make"; "model"]%string)]
      (of_string <$> ["a.csv"; "c.csv"; "b.csv"]%string) []
    = (clusters, [])
    /\ clusters = [of_string <$> ["a.csv"; "b.csv"]%string; [of_string "c.csv"]].
Proof.
  destruct (cluster_files_partition
              [(of_string "a.csv", of_string <$> ["sku"; "qty"]%string);
               (of_string "b.csv", of_string <$> ["sku"; "qty"]%string);
               (of_string "c.csv", of_string <$> ["make"; "model"]%string)]
              (of_string <$> ["a.csv"; "c.csv"; "b.csv"]%string))
    as (clusters & Heq & _).
  - decide_by_compute.
  - exists clusters. split; [exact Heq|].
    vm_compute in Heq. by injection Heq as <-.
Defined.


(** ** Sorting by decreasing key *)

Section SortedDesc.
Context {A : Type}.
Variable key : A -> nat.

Local Abbreviation ge_key := (fun a b : A => (key b <= key a)%nat).







End SortedDesc.

(** ** Key overlaps (analyze_spreadsheets.py) *)






(** ** Redundancy groups of the report post-processor (clean_report.py) *)

Section CleanFingerprintFacts.

Variable md5 : pystr -> pystr.

Local Abbreviation fp_hits :=
  (group_hits (fun r : mi_row => md5 (row_sig r)) row_key (fun _ : mi_row => true)).

Lemma clean_sheet_fps_fold (rows : list mi_row) :
  clean_sheet_fps md5 rows
  = foldl (group_step (fun r => md5 (row_sig r)) row_key (fun _ => true)) [] rows.
Proof. reflexivity. Qed.

Lemma fp_hits_eq fp (rows : list mi_row) :
  fp_hits fp rows = row_key <$> filter (fun r => md5 (row_sig r) = fp) rows.
Proof.
  unfold group_hits. f_equal. apply list_filter_iff. intros r.
  split; [by intros [_ ?] | by intros ?].
Qed.

Lemma clean_sheet_fps_item (rows : list mi_row) fp ms :
  (fp, ms) ∈ clean_sheet_fps md5 rows
  <-> ms = (row_key <$> filter (fun r => md5 (row_sig r) = fp) rows) /\ ms <> [].
Proof.
  rewrite clean_sheet_fps_fold. split.
  - intros Hin. apply group_fold_item in Hin as (-> & r & Hr & _ & Hk).
    rewrite fp_hits_eq. split; [done|].
    intros E. apply fmap_nil_inv in E.
    assert (Hin : r ∈ filter (fun r => md5 (row_sig r) = fp) rows)
      by by apply list_elem_of_filter.
    rewrite E in Hin. by apply elem_of_nil in Hin.
  - intros [-> Hne]. apply dict_get_elem.
    rewrite group_fold_get, fp_hits_eq. simpl.
    by destruct (row_key <$> filter _ rows).
Qed.

(** X23. The redundancy groups of [clean_report.py]. A group is keyed by
    the MD5 digest of the sheet name and the column count of a master-index
    row, whatever the columns are; it lists, in the order of the index, a
    [File|Sheet] entry for every row of that digest, and it is kept when it
    has more than one entry. No two groups share a digest. Two different
    rows of the index with the same sheet name and the same column count
    are therefore always reported in one group. The report lists the
    groups of three entries or more. *)
Theorem clean_redundant_groups (rows : list mi_row) :
  (forall fp ms,
     (fp, ms) ∈ clean_redundant md5 rows
     <-> ms = (row_key <$> filter (fun r => md5 (row_sig r) = fp) rows)
         /\ (2 <= length ms)%nat)
  /\ NoDup (dict_keys (clean_redundant md5 rows))
  /\ (forall i j r r',
        i <> j -> rows !! i = Some r -> rows !! j = Some r' ->
        mi_sheet r = mi_sheet r' -> mi_col_count r = mi_col_count r' ->
        exists ms, (md5 (row_sig r), ms) ∈ clean_redundant md5 rows
                   /\ row_key r ∈ ms /\ row_key r' ∈ ms)
  /\ (forall g, g ∈ clean_big md5 rows
        <-> g ∈ clean_redundant md5 rows /\ (3 <= length g.2)%nat).
Proof.
  assert (Hitem : forall fp ms,
     (fp, ms) ∈ clean_redundant md5 rows
     <-> ms = (row_key <$> filter (fun r => md5 (row_sig r) = fp) rows)
         /\ (2 <= length ms)%nat).
  { intros fp ms. unfold clean_redundant.
    rewrite list_elem_of_filter, clean_sheet_fps_item. simpl. split.
    - intros (Hlen & -> & _). split; [done | lia].
    - intros (-> & Hlen). split; [lia|]. split; [done|].
      intros E. rewrite E in Hlen. simpl in Hlen. lia. }
  split; [exact Hitem|]. split; [|split].
  - unfold clean_redundant, dict_keys.
    eapply sublist_NoDup; [|apply fmap_sublist, sublist_filter].
    rewrite clean_sheet_fps_fold. apply group_fold_keys_NoDup, NoDup_nil_2.
  - intros i j r r' Hne Hi Hj Hs Hc.
    assert (Hsig : row_sig r' = row_sig r) by (unfold row_sig; by rewrite Hs, Hc).
    exists (row_key <$> filter (fun x => md5 (row_sig x) = md5 (row_sig r)) rows).
    split; [apply Hitem; split; [done|] | split].
    + rewrite length_fmap.
      apply (filter_two _ rows i j r r'); try done. by rewrite Hsig.
    + apply list_elem_of_fmap. exists r. split; [done|].
      apply list_elem_of_filter. split; [done|]. apply list_elem_of_lookup. eauto.
    + apply list_elem_of_fmap. exists r'. split; [done|].
      apply list_elem_of_filter. split; [by rewrite Hsig|].
      apply list_elem_of_lookup. eauto.
  - intros g. unfold clean_big. rewrite list_elem_of_filter. tauto.
Qed.

End CleanFingerprintFacts.

(** ** The files of a cluster *)

Lemma key_file_total (m : pystr) : exists f, key_file m = Some f.
Proof.
  unfold key_file. destruct (split_on_head bar m) as (p & ps & -> & _). by exists p.
Qed.

Lemma omap_total_length {A B} (f : A -> option B) (l : list A) :
  (forall a, exists b, f a = Some b) -> length (omap f l) = length l.
Proof.
  intros Hf. induction l as [|a l IH]; [done|]. cbn [omap list_omap].
  destruct (Hf a) as [b ->]. cbn [length]. by rewrite IH.
Qed.

(** X24. The file list of a cluster, which the log and the report count as
    "N sheets across M files": it is the sorted, duplicate-free list of the
    parts before the first [|] of the member keys, so it never has more
    entries than the cluster has members, and it is empty only for a
    cluster without members. *)
Theorem short_files_count (cl : cluster) :
  let sf := short_files cl in
  NoDup sf
  /\ StronglySorted str_le sf
  /\ (length sf <= length (members cl))%nat
  /\ (forall f, f ∈ sf <-> exists m, m ∈ members cl /\ key_file m = Some f)
  /\ (sf = [] <-> members cl = []).
Proof.
  intros sf. unfold sf, short_files.
  assert (Hel : forall f, f ∈ py_sorted (to_set (omap key_file (members cl)))
                          <-> exists m, m ∈ members cl /\ key_file m = Some f).
  { intros f. by rewrite py_sorted_perm, to_set_elem, list_elem_of_omap. }
  split; [|split; [|split; [|split]]].
  - rewrite py_sorted_perm. apply to_set_NoDup.
  - apply StronglySorted_merge_sort; apply _.
  - rewrite py_sorted_perm.
    rewrite <- (omap_total_length key_file (members cl) key_file_total).
    apply submseteq_length, NoDup_submseteq; [apply to_set_NoDup|].
    intros x. by rewrite to_set_elem.
  - exact Hel.
  - split.
    + intros E. destruct (members cl) as [|m ms] eqn:Em; [done|].
      destruct (key_file_total m) as [f Hf].
      assert (Hin : f ∈ py_sorted (to_set (omap key_file (m :: ms)))).
      { apply Hel. exists m. split; [left | done]. }
      rewrite E in Hin. by apply elem_of_nil in Hin.
    + by intros ->.
Qed.

(** ** The headers of a file (analyze_spreadsheets.py) *)

Lemma dict_update_get k xs (d : list (pystr * list pystr)) k' :
  dict_get k' (dict_update k xs d)
  = if decide (k' = k) then Some (list_union (default [] (dict_get k d)) xs)
    else dict_get k' d.
Proof. unfold dict_update. apply dict_get_set. Qed.

Lemma file_to_headers_fold (shs : list ((pystr * pystr) * list pystr)) d0 f x :
  x ∈ headers_of (foldl (fun d e => dict_update e.1.1 e.2 d) d0 shs) f
  <-> x ∈ headers_of d0 f \/ exists s hs, ((f, s), hs) ∈ shs /\ x ∈ hs.
Proof.
  revert d0. induction shs as [|[[f0 s0] hs0] shs IH]; intros d0.
  - cbn [foldl]. split; [by left|]. intros [H|(s & hs & H & _)]; [done|].
    by apply elem_of_nil in H.
  - cbn [foldl]. rewrite IH. unfold headers_of at 1. simpl.
    rewrite dict_update_get. split.
    + intros [H|(s & hs & Hin & Hx)].
      * destruct (decide (f = f0)) as [->|Hne].
        -- simpl in H. apply list_elem_of_union in H as [H|H]; [by left|].
           right. exists s0, hs0. split; [left | done].
        -- by left.
      * right. exists s, hs. split; [by right | done].
    + intros [H|(s & hs & Hin & Hx)].
      * left. destruct (decide (f = f0)) as [->|Hne]; [|done].
        simpl. apply list_elem_of_union. by left.
      * apply elem_of_cons in Hin as [[= -> -> ->]|Hin].
        -- left. rewrite decide_True by done. simpl. apply list_elem_of_union. by right.
        -- right. eauto.
Qed.

Lemma file_to_headers_NoDup_fold (shs : list ((pystr * pystr) * list pystr)) d0 :
  Forall (fun e => NoDup e.2) shs ->
  (forall f, NoDup (headers_of d0 f)) ->
  forall f, NoDup (headers_of (foldl (fun d e => dict_update e.1.1 e.2 d) d0 shs) f).
Proof.
  intros Hs. revert d0. induction Hs as [|[[f0 s0] hs0] shs Hnd Hs IH]; intros d0 Hd0 f.
  - apply Hd0.
  - cbn [foldl]. apply IH. clear f. intros f. unfold headers_of. simpl.
    rewrite dict_update_get. destruct (decide (f = f0)) as [->|Hne].
    + simpl. apply NoDup_list_union; [apply Hd0 | exact Hnd].
    + apply Hd0.
Qed.

(** X25. The header set of a file in [analyze_spreadsheets.py] is the
    union of the header sets of its sheets: a header belongs to it exactly
    when it is a header of one of the file's sheets. A file without sheets
    has the empty set, and the set has no duplicates. *)
Theorem file_headers_union (shs : list ((pystr * pystr) * list pystr)) :
  let fth := file_to_headers shs in
  (forall f x, x ∈ headers_of fth f <-> exists s hs, ((f, s), hs) ∈ shs /\ x ∈ hs)
  /\ (forall f, f ∉ (fun e => e.1.1) <$> shs -> headers_of fth f = [])
  /\ (Forall (fun e => NoDup e.2) shs -> forall f, NoDup (headers_of fth f)).
Proof.
  intros fth. unfold fth, file_to_headers.
  assert (H1 : forall f x, x ∈ headers_of (foldl (fun d e => dict_update e.1.1 e.2 d) [] shs) f
                           <-> exists s hs, ((f, s), hs) ∈ shs /\ x ∈ hs).
  { intros f x. rewrite file_to_headers_fold. split; [|by right].
    intros [H|H]; [|done]. by apply elem_of_nil in H. }
  split; [exact H1|]. split.
  - intros f Hf. destruct (headers_of _ f) as [|x l] eqn:E; [done|].
    assert (Hx : x ∈ headers_of (foldl (fun d e => dict_update e.1.1 e.2 d) [] shs) f)
      by (rewrite E; left).
    apply H1 in Hx as (s & hs & Hin & _). exfalso. apply Hf.
    apply list_elem_of_fmap. by exists ((f, s), hs).
  - intros Hs. apply file_to_headers_NoDup_fold; [done|].
    intros f. apply NoDup_nil_2.
Qed.


(** ** The shape of a normalized column name *)

Lemma lstrip_keeps (p : N -> bool) (s : pystr) x :
  x ∈ s -> p x = false -> x ∈ lstrip p s.
Proof.
  induction s as [|c s IH]; [done|]. intros Hin Hx. simpl.
  destruct (p c) eqn:Ec; [|done].
  apply elem_of_cons in Hin as [->|Hin]; [congruence | auto].
Qed.

Lemma rstrip_keeps (p : N -> bool) (s : pystr) x :
  x ∈ s -> p x = false -> x ∈ rstrip p s.
Proof.
  induction s as [|c s IH]; [done|]. intros Hin Hx. simpl.
  apply elem_of_cons in Hin as [->|Hin].
  - destruct (rstrip p s); [rewrite Hx|]; left.
  - specialize (IH Hin Hx). destruct (rstrip p s) as [|d r]; [by apply elem_of_nil in IH|].
    by right.
Qed.

Lemma strip_by_keeps (p : N -> bool) (s : pystr) x :
  x ∈ s -> p x = false -> x ∈ strip_by p s.
Proof.
  intros Hin Hx. unfold strip_by. apply rstrip_keeps; [|done]. by apply lstrip_keeps.
Qed.

Lemma strip_by_subseteq (p : N -> bool) (s : pystr) x : x ∈ strip_by p s -> x ∈ s.
Proof.
  unfold strip_by. intros H.
  destruct (rstrip_prefix p (lstrip p s)) as [t Ht].
  destruct (lstrip_suffix p s) as [u Hu].
  rewrite Hu, Ht. apply elem_of_app. right. apply elem_of_app. by left.
Qed.

Lemma rstrip_last (p : N -> bool) (s : pystr) c :
  last (rstrip p s) = Some c -> p c = false.
Proof.
  induction s as [|d s IH]; [done|]. simpl.
  destruct (rstrip p s) as [|e r] eqn:E.
  - destruct (p d) eqn:Ed; [done|]. by intros [= <-].
  - rewrite last_cons. destruct (last (e :: r)) eqn:El.
    + intros [= ->]. by apply IH.
    + by apply last_None in El.
Qed.

Lemma strip_by_head (p : N -> bool) (s : pystr) c :
  head (strip_by p s) = Some c -> p c = false.
Proof.
  unfold strip_by. intros H%rstrip_head.
  destruct (lstrip_head p s) as [H' | (d & H' & Hd)]; congruence.
Qed.

Lemma sub_runs_from_keeps (p : N -> bool) rep b (s : pystr) x :
  x ∈ s -> p x = false -> x ∈ sub_runs_from p rep b s.
Proof.
  revert b. induction s as [|c s IH]; intros b Hin Hx; [done|]. simpl.
  apply elem_of_cons in Hin as [->|Hin].
  - rewrite Hx. left.
  - destruct (p c).
    + apply elem_of_app. right. by apply IH.
    + right. by apply IH.
Qed.

Lemma sub_runs_from_all (p : N -> bool) rep b (s : pystr) :
  Forall (fun c => p c = true) s ->
  sub_runs_from p rep b s = if b || is_nil s then [] else rep.
Proof.
  intros H. revert b. induction H as [|c s Hc _ IH]; intros b.
  - simpl. by destruct b.
  - simpl. rewrite Hc, IH. simpl. rewrite orb_false_r.
    destruct b; [done | by rewrite app_nil_r].
Qed.

Lemma clean_no_adjacent b (s : pystr) i :
  clean b s -> s !! i = Some underscore -> s !! S i <> Some underscore.
Proof.
  revert b i. induction s as [|c s IH]; intros b i Hc Hi; [done|].
  destruct i as [|i].
  - injection Hi as ->. simpl in Hc. destruct Hc as [_ Hc].
    destruct s as [|d s]; [done|]. simpl in *. intros [= ->].
    simpl in Hc. by destruct Hc.
  - simpl in Hi. change ((c :: s) !! S (S i)) with (s !! S i).
    eapply IH; [|exact Hi]. eapply clean_tail, Hc.
Qed.

Lemma space_not_alnum c : isspace c = true -> is_lower_alnum c = false.
Proof.
  intros Hs. destruct (is_lower_alnum c) eqn:E; [|done].
  assert (Hw : is_word c = true) by (unfold is_word; by rewrite E).
  apply word_not_space in Hw. congruence.
Qed.

(** X26. The shape of a normalized column name. Whatever the raw name, the
    name the phased analyzers produce consists of lower-case ASCII letters,
    digits and underscores, neither starts nor ends with an underscore and
    has no two underscores side by side; it is empty exactly when the
    lower-cased raw name has no lower-case ASCII letter and no digit. The
    normalizer of [analyze_spreadsheets.py] also returns only such
    characters and never the empty string. *)
Theorem normalize_col_shape (lower : pystr -> pystr) (name : pystr) :
  let out := normalize_col lower name in
  let out' := normalize_col_legacy lower name in
  Forall (fun c => is_word c = true) out
  /\ head out <> Some underscore
  /\ last out <> Some underscore
  /\ (forall i, out !! i = Some underscore -> out !! S i <> Some underscore)
  /\ (out = [] <-> Forall (fun c => is_lower_alnum c = false) (lower name))
  /\ Forall (fun c => is_word c = true) out'
  /\ out' <> [].
Proof.
  intros out out'. split; [|split; [|split; [|split; [|split; [|split]]]]].
  - apply normalize_col_word.
  - intros H. by apply strip_by_head in H.
  - intros H. unfold out, normalize_col, strip_by in H. by apply rstrip_last in H.
  - intros i. apply (clean_no_adjacent false), normalize_col_clean.
  - unfold out, normalize_col. split.
    + intros Hout. apply Forall_forall. intros x Hx.
      destruct (is_lower_alnum x) eqn:E; [|done]. exfalso.
      assert (Hin : x ∈ strip_by is_underscore
                (sub_runs (fun c => negb (is_lower_alnum c)) [underscore]
                   (strip (lower name)))).
      { apply strip_by_keeps.
        - apply sub_runs_from_keeps; [|by rewrite E].
          apply strip_by_keeps; [done|].
          destruct (isspace x) eqn:Es; [|done].
          apply space_not_alnum in Es. congruence.
        - destruct (is_underscore x) eqn:Eu; [|done].
          apply underscore_not_alnum in Eu. congruence. }
      rewrite Hout in Hin. by apply elem_of_nil in Hin.
    + intros Hall. unfold sub_runs. rewrite sub_runs_from_all.
      * simpl. by destruct (is_nil _).
      * apply Forall_forall. intros x Hx. apply strip_by_subseteq in Hx.
        rewrite Forall_forall in Hall. by rewrite (Hall x Hx).
  - apply normalize_col_legacy_word.
  - apply normalize_col_legacy_nonempty.
Qed.
